(** * Verification of the BST fixture generator [is-valid-bst/gen-test.py]

    The Python program builds random binary search trees of employee
    records, optionally corrupts them by swapping two payloads, and writes
    them in a level-order text format, together with the expected verdict.

    The development follows the program:
    - Python objects of class [Node] live in a store (a list of cells,
      addressed by allocation order); [insert_node] and [violate_bst]
      mutate that store, exactly as the Python code mutates its objects;
    - recursion over the store and the [while] loops carry a fuel
      argument and return [None] when it runs out (Python would raise
      [RecursionError] or spin); the theorems give fuel bounds under which
      a result is returned, or show that a result does not depend on the
      fuel;
    - the random source is an interface ([RandomSource]) with the
      documented contract of [random.Random] ([RandomLaws]); a wrapper
      logs the calls made to it ([Traced]);
    - the file system is a finite map from paths to contents;
    - inductive trees ([tree]) are used only as the abstraction that the
      theorems speak about, through the representation predicate [repr]. *)

From Stdlib Require Import ZArith String Ascii List Lia Sorted Permutation.
From Stdlib Require OrderedTypeEx DecimalString DecimalPos DecimalZ.
From stdpp Require Import base option list sorting gmap strings.

Local Open Scope Z_scope.

(** ** Configuration

    The module-level constants of the script that size and place a run are
    gathered in a record; [default_config] holds the values of the
    script. The two enumerations stay constants. *)

Record Config := mkConfig {
  TESTS_FOLDER : string;
  START_INDEX : Z;
  NUM_VALID : nat;
  NUM_INVALID : nat;
  EMPLOYEE_RANGE : Z * Z;
  SPECIAL_RANGE : Z * Z;
  SEED : Z
}.

Definition default_config : Config :=
  {| TESTS_FOLDER := "tests";
     START_INDEX := 9;
     NUM_VALID := 3;
     NUM_INVALID := 3;
     EMPLOYEE_RANGE := (20, 30);
     SPECIAL_RANGE := (200, 300);
     SEED := 123 |}.

Definition DEPARTMENTS : list string :=
  ["HR"; "Finance"; "Engineering"; "Marketing"; "Sales"; "IT"; "Management"].
Definition JOB_TITLES : list string :=
  ["Junior"; "Midlevel"; "Senior"; "Director"; "Executive"; "God"].

(** [string.ascii_lowercase] *)
Definition ascii_lowercase : list ascii :=
  list_ascii_of_string "abcdefghijklmnopqrstuvwxyz".

(** ** Employees *)

Record Employee := mkEmployee {
  name : string;
  department : string;
  id_in_department : Z;
  job_title : string;
  salary : Z
}.

(** [Employee.key] *)
Definition key (e : Employee) : string * Z :=
  (department e, id_in_department e).

(** Python's [str] of an [int]: decimal digits, a leading minus sign for
    negative numbers. *)
Definition str_int (z : Z) : string :=
  DecimalString.NilZero.string_of_int (Z.to_int z).

(** [Employee.__str__] *)
Definition Employee_str (e : Employee) : string :=
  name e +:+ "," +:+ department e +:+ "," +:+ str_int (id_in_department e)
         +:+ "," +:+ job_title e +:+ "," +:+ str_int (salary e).

(** Python's [<] on tuples [(str, int)]: the first components decide unless
    they are equal, then the second components decide. Strings compare
    lexicographically by character code (the strings of the program are
    ASCII, one byte per character). *)
Definition key_lt (k1 k2 : string * Z) : bool :=
  if String.eqb k1.1 k2.1 then (k1.2 <? k2.2)%Z else String.ltb k1.1 k2.1.

(** ** Nodes and the object store *)

Abbreviation loc := nat (only parsing).

Module Node.
Record t := mk {
  emp : Employee;
  left : option loc;
  right : option loc
}.
Definition set_emp (e : Employee) (n : t) : t := mk e (left n) (right n).
Definition set_left (p : option loc) (n : t) : t := mk (emp n) p (right n).
Definition set_right (p : option loc) (n : t) : t := mk (emp n) (left n) p.
End Node.

(** The store: the cell of the node with address [p] is [h !! p]; a new
    node gets the next address. *)
Abbreviation heap := (list Node.t) (only parsing).

(** [Node(emp)] *)
Definition new_node (h : heap) (e : Employee) : heap * loc :=
  (h ++ [Node.mk e None None], length h).

(** ** BST helpers *)

(** [insert_node(root, emp)]. The assignment [root.left = ...] writes the
    field of the object as it is after the recursive call. *)
Fixpoint insert_node (fuel : nat) (h : heap) (root : option loc) (e : Employee)
  : option (heap * loc) :=
  match fuel with
  | O => None
  | S fuel' =>
      match root with
      | None => Some (new_node h e)
      | Some p =>
          n ← h !! p;
          if key_lt (key e) (key (Node.emp n)) then
            '(h1, q) ← insert_node fuel' h (Node.left n) e;
            Some (alter (Node.set_left (Some q)) p h1, p)
          else
            '(h1, q) ← insert_node fuel' h (Node.right n) e;
            Some (alter (Node.set_right (Some q)) p h1, p)
      end
  end.

(** The loop [for e in shuffled: root = insert_node(root, e)]. *)
Fixpoint insert_all (fuel : nat) (h : heap) (root : option loc)
  (es : list Employee) : option (heap * option loc) :=
  match es with
  | [] => Some (h, root)
  | e :: es' =>
      '(h1, p) ← insert_node fuel h root e;
      insert_all fuel h1 (Some p) es'
  end.

(** [collect_nodes_inorder(root, out)]; the list [out] is extended in
    place, so the extended list is returned. *)
Fixpoint collect_nodes_inorder (fuel : nat) (h : heap) (root : option loc)
  (out : list loc) : option (list loc) :=
  match fuel with
  | O => None
  | S fuel' =>
      match root with
      | None => Some out
      | Some p =>
          n ← h !! p;
          out1 ← collect_nodes_inorder fuel' h (Node.left n) out;
          collect_nodes_inorder fuel' h (Node.right n) (out1 ++ [p])
      end
  end.

(** ** Serialization (level order) *)

(** The [for node in current_level] loop of one round: it extends
    [line_parts] and [next_level]. *)
Fixpoint serialize_level (h : heap) (current_level : list (option loc))
  (line_parts : list string) (next_level : list (option loc))
  : option (list string * list (option loc)) :=
  match current_level with
  | [] => Some (line_parts, next_level)
  | None :: rest => serialize_level h rest (line_parts ++ ["null"]) next_level
  | Some p :: rest =>
      n ← h !! p;
      serialize_level h rest (line_parts ++ [Employee_str (Node.emp n)])
        (next_level ++ [Node.left n; Node.right n])
  end.

(** [while next_level and next_level[-1] is None: next_level.pop()],
    written on the reversed list. *)
Fixpoint pop_none_front {A} (l : list (option A)) : list (option A) :=
  match l with
  | None :: l' => pop_none_front l'
  | _ => l
  end.

Definition pop_trailing_none {A} (next_level : list (option A))
  : list (option A) :=
  reverse (pop_none_front (reverse next_level)).

(** [any(part != "null" for part in line_parts)] *)
Definition any_not_null (line_parts : list string) : bool :=
  existsb (fun part => negb (String.eqb part "null")) line_parts.

(** The [while current_level] loop. *)
Fixpoint serialize_loop (fuel : nat) (h : heap)
  (current_level : list (option loc)) (result_lines : list string)
  : option (list string) :=
  match fuel with
  | O => None
  | S fuel' =>
      match current_level with
      | [] => Some result_lines
      | _ :: _ =>
          '(line_parts, next_level) ← serialize_level h current_level [] [];
          let result_lines' :=
            if any_not_null line_parts
            then result_lines ++ [String.concat " " line_parts]
            else result_lines in
          serialize_loop fuel' h (pop_trailing_none next_level) result_lines'
      end
  end.

(** [serialize_tree(root)] *)
Definition serialize_tree (fuel : nat) (h : heap) (root : option loc)
  : option (list string) :=
  match root with
  | None => Some []
  | Some p => serialize_loop fuel h [Some p] []
  end.

(** ** The random source

    [random.Random] is library code; it is taken through its interface.
    [choice_index n] is the position that [rng.choice] picks in a sequence
    of length [n], [sample2_index n] the two positions that
    [rng.sample(seq, 2)] picks in a sequence of length [n]. The exceptions
    of the library (an empty range, an empty sequence, a sample larger
    than the population) are not modelled: the program calls it with a
    nonempty range and nonempty sequences, and samples two nodes out of
    two or more only. *)

Class RandomSource (G : Type) := {
  Random : Z → G;
  randint : Z → Z → G → Z * G;
  choice_index : nat → G → nat * G;
  shuffle : ∀ A : Type, list A → G → list A * G;
  sample2_index : nat → G → (nat * nat) * G
}.
Arguments shuffle {G _ A} _ _.

(** The documented contract of the library. *)
Class RandomLaws (G : Type) `{RandomSource G} : Prop := {
  randint_range : ∀ a b g, a ≤ b → a ≤ (randint a b g).1 ≤ b;
  choice_index_lt : ∀ n g, (0 < n)%nat → ((choice_index n g).1 < n)%nat;
  shuffle_perm : ∀ A (l : list A) g, Permutation l (shuffle l g).1;
  sample2_distinct : ∀ n g, (2 ≤ n)%nat →
    ((sample2_index n g).1.1 < n)%nat ∧ ((sample2_index n g).1.2 < n)%nat
    ∧ (sample2_index n g).1.1 ≠ (sample2_index n g).1.2
}.

(** The calls made to the random source, for statements about the order
    of sampling. *)
Inductive Draw :=
  | DRandint (a b : Z)
  | DChoice (n : nat)
  | DShuffle (n : nat)
  | DSample (n k : nat).

(** A random source together with the log of the calls made to it. *)
Definition Traced (G : Type) : Type := G * list Draw.

#[export] Instance Traced_source G `{RandomSource G} : RandomSource (Traced G) := {
  Random seed := (Random seed, []);
  randint a b g :=
    let '(x, g1) := randint a b g.1 in (x, (g1, g.2 ++ [DRandint a b]));
  choice_index n g :=
    let '(i, g1) := choice_index n g.1 in (i, (g1, g.2 ++ [DChoice n]));
  shuffle A l g :=
    let '(l1, g1) := shuffle l g.1 in (l1, (g1, g.2 ++ [DShuffle (length l)]));
  sample2_index n g :=
    let '(ij, g1) := sample2_index n g.1 in (ij, (g1, g.2 ++ [DSample n 2]))
}.

Section Program.
Context {G : Type} `{RandomSource G}.
Variable cfg : Config.

(** [rng.choice(seq)] for a non-empty [seq] ([d] stands for the
    [IndexError] of an empty one, which the program never triggers). *)
Definition choice {A} (d : A) (seq : list A) (rng : G) : A * G :=
  let '(i, rng1) := choice_index (length seq) rng in (nth i seq d, rng1).

(** [rng.sample(nodes, 2)], unpacked into [a, b]. *)
Definition sample2 {A} (population : list A) (rng : G) : option (A * A * G) :=
  let '((i, j), rng1) := sample2_index (length population) rng in
  a ← population !! i;
  b ← population !! j;
  Some (a, b, rng1).

(** [build_valid_bst_from_list(employees, rng)] *)
Definition build_valid_bst_from_list (fuel : nat) (h : heap)
  (employees : list Employee) (rng : G) : option (heap * option loc * G) :=
  let '(shuffled, rng1) := shuffle employees rng in
  '(h1, root) ← insert_all fuel h None shuffled;
  Some (h1, root, rng1).

(** [violate_bst(root, rng)]. In [a.emp, b.emp = b.emp, a.emp] both
    right-hand sides are read before the two writes. *)
Definition violate_bst (fuel : nat) (h : heap) (root : option loc) (rng : G)
  : option (heap * option loc * G) :=
  nodes ← collect_nodes_inorder fuel h root [];
  if decide (2 ≤ length nodes)%nat then
    '(a, b, rng1) ← sample2 nodes rng;
    na ← h !! a;
    nb ← h !! b;
    let h1 := alter (Node.set_emp (Node.emp nb)) a h in
    let h2 := alter (Node.set_emp (Node.emp na)) b h1 in
    Some (h2, root, rng1)
  else Some (h, root, rng).

(** ** Random employees *)

(** The characters drawn by [random_string], in the order of the
    generator expression. *)
Fixpoint random_chars (n : nat) (rng : G) : list ascii * G :=
  match n with
  | O => ([], rng)
  | S n' =>
      let '(c, rng1) := choice "a"%char ascii_lowercase rng in
      let '(cs, rng2) := random_chars n' rng1 in
      (c :: cs, rng2)
  end.

(** [random_string(rng, length)]; [range(length)] is empty for a
    negative [length]. *)
Definition random_string (rng : G) (length : Z) : string * G :=
  let '(cs, rng1) := random_chars (Z.to_nat length) rng in
  (string_of_list_ascii cs, rng1).

(** [generate_employee(rng, used_keys)]; one unit of fuel per round of
    the [while True] loop. The set [used_keys] is updated in place, so
    the updated set is returned. *)
Fixpoint generate_employee (fuel : nat) (rng : G) (used_keys : gset (string * Z))
  : option (Employee * gset (string * Z) * G) :=
  match fuel with
  | O => None
  | S fuel' =>
      let '(len, rng1) := randint 1 5 rng in
      let '(name, rng2) := random_string rng1 len in
      let '(department, rng3) := choice ""%string DEPARTMENTS rng2 in
      let '(id_in_department, rng4) := randint 1 200 rng3 in
      let key := (department, id_in_department) in
      if decide (key ∈ used_keys) then generate_employee fuel' rng4 used_keys
      else
        let used_keys' := {[key]} ∪ used_keys in
        let '(job_title, rng5) := choice ""%string JOB_TITLES rng4 in
        let '(salary, rng6) := randint 1000 5000 rng5 in
        Some (mkEmployee name department id_in_department job_title salary,
              used_keys', rng6)
  end.

(** ** Test generation *)

(** [[generate_employee(rng, used_keys) for _ in range(num_emps)]] *)
Fixpoint generate_employees (fuel : nat) (num_emps : nat) (rng : G)
  (used_keys : gset (string * Z))
  : option (list Employee * gset (string * Z) * G) :=
  match num_emps with
  | O => Some ([], used_keys, rng)
  | S n =>
      '(e, used1, rng1) ← generate_employee fuel rng used_keys;
      '(es, used2, rng2) ← generate_employees fuel n rng1 used1;
      Some (e :: es, used2, rng2)
  end.

(** The newline character. *)
Definition nl : string := String (ascii_of_nat 10) EmptyString.

(** [Path(TESTS_FOLDER) / f"test{test_index}"] *)
Definition test_dir (test_index : Z) : string :=
  TESTS_FOLDER cfg +:+ "/" +:+ "test" +:+ str_int test_index.

(** What the loop [for line in lines: fh.write(line + "\n")] leaves in
    a file opened with mode ["w"]. *)
Definition file_of_lines (lines : list string) : string :=
  fold_right (λ line rest, line +:+ nl +:+ rest) ""%string lines.

(** [generate_testcase(is_valid, test_index, rng, emp_range)]. The file
    system is a map from paths to contents; opening with mode ["w"]
    replaces the content; directory creation succeeds and touches no
    file. *)
Definition generate_testcase (fuel : nat) (is_valid : bool) (test_index : Z)
  (rng : G) (emp_range : option (Z * Z)) (h : heap) (fs : gmap string string)
  : option (heap * G * gmap string string) :=
  let emp_range := default (EMPLOYEE_RANGE cfg) emp_range in
  let '(num_emps, rng1) := randint emp_range.1 emp_range.2 rng in
  '(employees, _, rng2) ← generate_employees fuel (Z.to_nat num_emps) rng1 ∅;
  '(h1, root, rng3) ← build_valid_bst_from_list fuel h employees rng2;
  '(h2, root', rng4) ←
    (if is_valid then Some (h1, root, rng3) else violate_bst fuel h1 root rng3);
  lines ← serialize_tree fuel h2 root';
  let fs1 := <[test_dir test_index +:+ "/input.txt" := file_of_lines lines]> fs in
  let fs2 := <[test_dir test_index +:+ "/output.txt" :=
                 (if is_valid then "true" else "false") +:+ nl]> fs1 in
  Some (h2, rng4, fs2).

(** One of the two [for i in range(num)] loops of [main]. *)
Fixpoint testcase_loop (fuel : nat) (is_valid : bool) (num : nat)
  (range : list nat) (idx : Z) (rng : G) (h : heap) (fs : gmap string string)
  : option (Z * G * heap * gmap string string) :=
  match range with
  | [] => Some (idx, rng, h, fs)
  | i :: range' =>
      '(h1, rng1, fs1) ←
        generate_testcase fuel is_valid idx rng
          (if decide (Z.of_nat i = Z.of_nat num - 1)
           then Some (SPECIAL_RANGE cfg) else None) h fs;
      testcase_loop fuel is_valid num range' (idx + 1) rng1 h1 fs1
  end.

(** [main()]; the final [print] goes to standard output and is left
    out. *)
Definition main (fuel : nat) (h : heap) (fs : gmap string string)
  : option (heap * gmap string string) :=
  let rng := Random (SEED cfg) in
  let idx := START_INDEX cfg in
  '(idx1, rng1, h1, fs1) ←
    testcase_loop fuel true (NUM_VALID cfg) (seq 0 (NUM_VALID cfg)) idx rng
      h fs;
  '(_, _, h2, fs2) ←
    testcase_loop fuel false (NUM_INVALID cfg) (seq 0 (NUM_INVALID cfg)) idx1
      rng1 h1 fs1;
  Some (h2, fs2).

End Program.

(** The files that one of the loops of [main] writes, given the contents
    of the input files in the order of the fixtures. *)
Fixpoint write_fixtures (cfg : Config) (is_valid : bool) (idx : Z)
  (inputs : list string) (fs : gmap string string) : gmap string string :=
  match inputs with
  | [] => fs
  | input :: inputs' =>
      write_fixtures cfg is_valid (idx + 1) inputs'
        (<[test_dir cfg idx +:+ "/output.txt" :=
             (if is_valid then "true" else "false") +:+ nl]>
           (<[test_dir cfg idx +:+ "/input.txt" := input]> fs))
  end.

(** ** The abstraction: binary trees of employees

    These definitions are not part of the program; the theorems use them
    to say what the store holds. *)

Inductive tree :=
  | Leaf
  | T (l : tree) (e : Employee) (r : tree).

Fixpoint inorder (t : tree) : list Employee :=
  match t with
  | Leaf => []
  | T l e r => inorder l ++ e :: inorder r
  end.

Fixpoint size (t : tree) : nat :=
  match t with
  | Leaf => 0
  | T l _ r => S (size l + size r)
  end.

Fixpoint height (t : tree) : nat :=
  match t with
  | Leaf => 0
  | T l _ r => S (Nat.max (height l) (height r))
  end.

(** The edge structure of a tree: the tree without its payloads. *)
Inductive shape :=
  | SLeaf
  | SNode (l r : shape).

Fixpoint shape_of (t : tree) : shape :=
  match t with
  | Leaf => SLeaf
  | T l _ r => SNode (shape_of l) (shape_of r)
  end.

(** [repr h root t fp]: in the store [h] the reference [root] is the root
    of the tree [t], whose nodes are the objects [fp], listed in order. *)
Inductive repr (h : heap) : option loc → tree → list loc → Prop :=
  | repr_leaf : repr h None Leaf []
  | repr_node p n l r fl fr :
      h !! p = Some n →
      repr h (Node.left n) l fl →
      repr h (Node.right n) r fr →
      repr h (Some p) (T l (Node.emp n) r) (fl ++ p :: fr).

(** A proper binary tree: no node object occurs twice, so that none is
    reachable from the root along two paths. *)
Definition is_tree (h : heap) (root : option loc) (t : tree) (fp : list loc)
  : Prop :=
  repr h root t fp ∧ NoDup fp.

(** Strict order on keys, as a proposition. *)
Definition klt (a b : Employee) : Prop := key_lt (key a) (key b) = true.

(** The strict BST invariant, node by node. *)
Fixpoint bst (t : tree) : Prop :=
  match t with
  | Leaf => True
  | T l e r =>
      Forall (λ x, klt x e) (inorder l) ∧ Forall (λ x, klt e x) (inorder r)
      ∧ bst l ∧ bst r
  end.

(** The ordering that the data model asks of a node: smaller keys to the
    left, greater or equal keys to the right. *)
Fixpoint ordered (t : tree) : Prop :=
  match t with
  | Leaf => True
  | T l e r =>
      Forall (λ x, klt x e) (inorder l) ∧ Forall (λ x, ¬ klt x e) (inorder r)
      ∧ ordered l ∧ ordered r
  end.

(** Insertion on trees, the counterpart of [insert_node]. *)
Fixpoint insert (e : Employee) (t : tree) : tree :=
  match t with
  | Leaf => T Leaf e Leaf
  | T l x r =>
      if key_lt (key e) (key x) then T (insert e l) x r else T l x (insert e r)
  end.

(** *** Levels of a tree, as the serializer is specified

    A slot is a tree, the absent slot is [Leaf]. *)

Definition present (t : tree) : bool :=
  match t with Leaf => false | T _ _ _ => true end.

(** The child slots of a level: two per present node, none for an absent
    slot. *)
Definition child_slots (level : list tree) : list tree :=
  flat_map (λ t, match t with Leaf => [] | T l _ r => [l; r] end) level.

(** Dropping the absent slots at the end of a slot list. *)
Fixpoint drop_absent_front (l : list tree) : list tree :=
  match l with
  | Leaf :: l' => drop_absent_front l'
  | _ => l
  end.

Definition trim (level : list tree) : list tree :=
  reverse (drop_absent_front (reverse level)).

(** The levels that are rendered, from a first level on, down to the first
    level that is empty after trimming. *)
Fixpoint levels (fuel : nat) (level : list tree) : list (list tree) :=
  match fuel with
  | O => []
  | S fuel' =>
      match level with
      | [] => []
      | _ :: _ => level :: levels fuel' (trim (child_slots level))
      end
  end.

Definition render (t : tree) : string :=
  match t with Leaf => "null"%string | T _ e _ => Employee_str e end.

Definition render_line (level : list tree) : string :=
  String.concat " " (map render level).


(** The tree that the insertion loop builds from a list of employees. *)
Definition build_tree (es : list Employee) (t : tree) : tree :=
  fold_left (λ t e, insert e t) es t.

(** [reach h root path q]: following [path] from [root] through the store
    ([false] for [left], [true] for [right]) ends at the node [q]. *)
Inductive reach (h : heap) : option loc → list bool → loc → Prop :=
  | reach_here p n : h !! p = Some n → reach h (Some p) [] p
  | reach_left p n path q :
      h !! p = Some n → reach h (Node.left n) path q →
      reach h (Some p) (false :: path) q
  | reach_right p n path q :
      h !! p = Some n → reach h (Node.right n) path q →
      reach h (Some p) (true :: path) q.

(** Sample records for the examples. *)
Definition emp_ann : Employee := mkEmployee "ann" "HR" 1 "Junior" 1000.
Definition emp_bob : Employee := mkEmployee "bob" "HR" 2 "Senior" 2000.
Definition emp_cy : Employee := mkEmployee "cy" "Finance" 7 "God" 5000.

(** Exchanging the elements at two positions of a list. *)
Definition swap_at {A} (i j : nat) (l : list A) : list A :=
  match l !! i, l !! j with
  | Some x, Some y => <[j := x]> (<[i := y]> l)
  | _, _ => l
  end.

(** An inversion: a later element that is smaller than an earlier one. *)
Definition has_inversion (es : list Employee) : Prop :=
  ∃ i j x y, (i < j)%nat ∧ es !! i = Some x ∧ es !! j = Some y ∧ klt y x.

(** The levels of a tree that are rendered. *)
Definition tree_levels (t : tree) : list (list tree) :=
  match t with
  | Leaf => []
  | T _ _ _ => levels (S (height t)) [t]
  end.

(** A slot list whose last slot is a present node. *)
Definition ends_present (level : list tree) : Prop :=
  ∃ init l e r, level = init ++ [T l e r].

(** The greatest height and the total size of the slots of a level. *)
Definition level_height (level : list tree) : nat :=
  foldr (λ t m, Nat.max (height t) m) 0%nat level.

Definition level_size (level : list tree) : nat :=
  foldr (λ t m, (size t + m)%nat) 0%nat level.

(** The references of a level of the traversal and the slots they stand
    for. *)
Definition slots_repr (h : heap) (locs : list (option loc)) (level : list tree)
  : Prop :=
  Forall2 (λ p t, ∃ fp, repr h p t fp) locs level.

(** Whether a string contains a comma. *)
Fixpoint has_comma (s : string) : bool :=
  match s with
  | EmptyString => false
  | String c s' => Ascii.eqb c ","%char || has_comma s'
  end.

(** The record of a present slot. *)
Definition root_emp (t : tree) : option Employee :=
  match t with Leaf => None | T _ e _ => Some e end.

(** The records of the present slots of a level, and the records of all
    nodes below the slots of a level. *)
Definition present_emps (level : list tree) : list Employee :=
  omap root_emp level.

Definition level_emps (level : list tree) : list Employee :=
  foldr (λ t acc, inorder t ++ acc) [] level.

(** The tokens of a line other than [null], and their number. *)
Definition non_null (parts : list string) : list string :=
  filter (λ part, part ≠ "null"%string) parts.

Definition count_non_null (parts : list string) : nat :=
  length (non_null parts).

(** A sample store: the node of [emp_bob] at address 0, with the node of
    [emp_ann] at address 1 as its left child. *)
Definition ex_heap : heap :=
  [Node.mk emp_bob (Some 1%nat) None; Node.mk emp_ann None None].

Definition ex_tree : tree := T (T Leaf emp_ann Leaf) emp_bob Leaf.

(** The draws of one round of the loop of [generate_employee], for a name
    of [len] letters, and the draws that follow the round whose key is
    accepted. *)
Definition attempt_draws (len : nat) : list Draw :=
  DRandint 1 5 :: replicate len (DChoice 26) ++ [DChoice 7; DRandint 1 200].

Definition commit_draws : list Draw := [DChoice 6; DRandint 1000 5000].

(** The order of sampling as the specification words it: candidate keys
    first, until one is unused; then the name, the job title and the
    salary. *)
Definition key_first_order (draws : list Draw) : Prop :=
  ∃ (retries len : nat),
    draws = concat (replicate retries [DChoice 7; DRandint 1 200])
            ++ [DChoice 7; DRandint 1 200]
            ++ (DRandint 1 5 :: replicate len (DChoice 26))
            ++ [DChoice 6; DRandint 1000 5000].


(** Whether a string contains a space. *)
Fixpoint has_space (s : string) : bool :=
  match s with
  | EmptyString => false
  | String c s' => Ascii.eqb c " "%char || has_space s'
  end.

(** The words of a line that are separated by single spaces, as Python's
    [line.split(" ")] returns them. *)
Fixpoint split_spaces (s : string) : list string :=
  match s with
  | EmptyString => [EmptyString]
  | String c s' =>
      if Ascii.eqb c " "%char then EmptyString :: split_spaces s'
      else match split_spaces s' with
           | w :: ws => String c w :: ws
           | [] => [String c EmptyString]
           end
  end.

(** A record without a space in its text fields. *)
Definition space_free (e : Employee) : Prop :=
  has_space (name e) = false
  ∧ has_space (department e) = false
  ∧ has_space (job_title e) = false.

(** The order "not greater", for records whose keys may coincide. *)
Definition kle (a b : Employee) : Prop := ¬ klt b a.

(** A record with the key of [emp_ann]. *)
Definition emp_amy : Employee := mkEmployee "amy" "HR" 1 "Senior" 3000.

(** The number of nodes on the path that [insert_node] follows for a
    record. *)
Fixpoint insert_depth (e : Employee) (t : tree) : nat :=
  match t with
  | Leaf => 0
  | T l x r =>
      S (insert_depth e (if key_lt (key e) (key x) then l else r))
  end.

(** A tree without a left child anywhere. *)
Fixpoint right_spine (t : tree) : Prop :=
  match t with
  | Leaf => True
  | T l _ r => l = Leaf ∧ right_spine r
  end.

(** *** Reading a serialization back

    Trees of record lines, and the reader that a consumer of the fixture
    files needs: it rebuilds the tree from the lines of tokens, bottom
    up. *)

Inductive ltree :=
  | LLeaf
  | LNode (l : ltree) (line : string) (r : ltree).

(** The tree of the record lines of a tree. *)
Fixpoint labels (t : tree) : ltree :=
  match t with
  | Leaf => LLeaf
  | T l e r => LNode (labels l) (Employee_str e) (labels r)
  end.

(** The nodes of one level from its tokens and the nodes of the next
    level: a token [null] is an absent slot, any other token takes the
    next two nodes of the next level as its children, absent ones when
    the next level has run out. *)
Fixpoint attach (tokens : list string) (kids : list ltree) : list ltree :=
  match tokens with
  | [] => []
  | token :: tokens' =>
      if String.eqb token "null" then LLeaf :: attach tokens' kids
      else LNode (nth 0 kids LLeaf) token (nth 1 kids LLeaf)
             :: attach tokens' (drop 2 kids)
  end.

Fixpoint rebuild (lines : list (list string)) : list ltree :=
  match lines with
  | [] => []
  | tokens :: lines' => attach tokens (rebuild lines')
  end.

(** The tree that the lines of a fixture file stand for. *)
Definition parse_lines (lines : list string) : ltree :=
  nth 0 (rebuild (split_spaces <$> lines)) LLeaf.

(** *** Reading a record line back *)

Fixpoint has_char (c : ascii) (s : string) : bool :=
  match s with
  | EmptyString => false
  | String c' s' => Ascii.eqb c' c || has_char c s'
  end.

(** The pieces of a string between the occurrences of a separator, as
    Python's [s.split(sep)] returns them for a separator of one
    character. *)
Fixpoint split_on (sep : ascii) (s : string) : list string :=
  match s with
  | EmptyString => [EmptyString]
  | String c s' =>
      if Ascii.eqb c sep then EmptyString :: split_on sep s'
      else match split_on sep s' with
           | w :: ws => String c w :: ws
           | [] => [String c EmptyString]
           end
  end.

(** The integer that a decimal numeral stands for. *)
Definition parse_int (s : string) : option Z :=
  Z.of_int <$> DecimalString.NilZero.int_of_string s.

(** The record of a record line: its five fields between the commas. *)
Definition parse_record (line : string) : option Employee :=
  match split_on "," line with
  | [name; department; id_in_department; job_title; salary] =>
      id ← parse_int id_in_department;
      sal ← parse_int salary;
      Some (mkEmployee name department id job_title sal)
  | _ => None
  end.

(** A record without the character [c] in its text fields. *)
Definition char_free (c : ascii) (e : Employee) : Prop :=
  has_char c (name e) = false
  ∧ has_char c (department e) = false
  ∧ has_char c (job_title e) = false.


(** The keys that the Generator can draw: a department of the list and a
    number from 1 to 200. *)
Definition key_space : list (string * Z) :=
  list_prod DEPARTMENTS (Z.of_nat <$> seq 1 200).

(** *** Reading a fixture file back *)

(** The tree of the records of a tree of record lines. *)
Fixpoint parse_tree (lt : ltree) : option tree :=
  match lt with
  | LLeaf => Some Leaf
  | LNode l line r =>
      l' ← parse_tree l;
      e ← parse_record line;
      r' ← parse_tree r;
      Some (T l' e r')
  end.

(** The newline character, and the lines of a file in which every line
    ends with a newline. *)
Definition nl_char : ascii := ascii_of_nat 10.

Definition read_lines (content : string) : list string :=
  removelast (split_on nl_char content).

(** The tree that the content of an [input.txt] stands for. *)
Definition decode (content : string) : option tree :=
  parse_tree (parse_lines (read_lines content)).

(** A record whose text fields hold no space, no comma and no newline. *)
Definition clean (e : Employee) : Prop :=
  char_free " " e ∧ char_free "," e ∧ char_free nl_char e.

(** [fixture_at cfg fs i is_valid r]: in the file system [fs], fixture
    [i] has an [input.txt] that reads back as a tree with pairwise
    distinct keys and a number of nodes in the range [r], and an
    [output.txt] with the verdict [is_valid]; the tree is a valid BST
    exactly when the verdict is [true] or the tree has fewer than two
    nodes. *)
Definition fixture_at (cfg : Config) (fs : gmap string string) (i : Z)
  (is_valid : bool) (r : Z * Z) : Prop :=
  ∃ (t : tree) (content : string),
    fs !! (test_dir cfg i +:+ "/input.txt") = Some content
    ∧ decode content = Some t
    ∧ fs !! (test_dir cfg i +:+ "/output.txt")
      = Some ((if is_valid then "true" else "false") +:+ nl)
    ∧ (Z.to_nat r.1 ≤ size t ≤ Z.to_nat r.2)%nat
    ∧ NoDup (key <$> inorder t)
    ∧ (bst t ↔ is_valid = true ∨ (size t < 2)%nat).

(** ** A concrete random source

    A tape of prescribed raw values, followed by a linear congruential
    generator once the tape is used up. It serves to run the program on
    concrete inputs. *)

Record Lcg := mkLcg { tape : list nat; state : N }.

Definition lcg_next (g : Lcg) : nat * Lcg :=
  match tape g with
  | x :: xs => (x, mkLcg xs (state g))
  | [] =>
      let s := ((state g * 1103515245 + 12345) mod 2147483648)%N in
      (N.to_nat (s / 65536)%N, mkLcg [] s)
  end.

#[export] Instance Lcg_source : RandomSource Lcg := {
  Random seed := mkLcg [] (Z.to_N seed);
  randint a b g :=
    let '(x, g1) := lcg_next g in (a + Z.of_nat x mod (b - a + 1), g1);
  choice_index n g :=
    let '(x, g1) := lcg_next g in ((x mod n)%nat, g1);
  shuffle A l g :=
    let '(x, g1) := lcg_next g in (rotate x l, g1);
  sample2_index n g :=
    let '(x, g1) := lcg_next g in
    let '(y, g2) := lcg_next g1 in
    let i := (x mod n)%nat in
    let j0 := (y mod (n - 1))%nat in
    ((i, if (j0 <? i)%nat then j0 else S j0), g2)
}.

(** A random source with a prescribed tape. *)
Definition ex_rng : Lcg := mkLcg [2; 0; 1; 2; 0; 4; 3; 500]%nat 0.

(** The log of a run of the Generator on a logging source. *)
Definition run_draws {G A} (r : option (A * Traced G)) : option (list Draw) :=
  x ← r; Some x.2.2.

(** A set of used keys that makes the first round on [ex_rng] fail. *)
Definition ex_used : gset (string * Z) := {[ ("HR"%string, 5) ]}.

(** A small configuration, and two runs of the program on the concrete
    source, from different stores and file systems and with different
    fuel. *)
Definition small_config : Config :=
  {| TESTS_FOLDER := "tests";
     START_INDEX := 9;
     NUM_VALID := 2;
     NUM_INVALID := 2;
     EMPLOYEE_RANGE := (2, 3);
     SPECIAL_RANGE := (4, 5);
     SEED := 123 |}.

Definition ex_files : gmap string string :=
  {[ "notes.txt"%string := "kept"%string ]}.

Definition ex_run1 : option (heap * gmap string string) :=
  main (G:=Lcg) small_config 20 [] ∅.

Definition ex_run2 : option (heap * gmap string string) :=
  main (G:=Lcg) small_config 30 ex_heap ex_files.

Definition run_heap (r : option (heap * gmap string string)) : heap :=
  default [] (fst <$> r).

Definition run_files (r : option (heap * gmap string string))
  : gmap string string :=
  default ∅ (snd <$> r).

(** A run of [generate_testcase] for a fixture marked invalid, on the
    concrete source, and what it leaves. *)
Definition ex_case : option (heap * Lcg * gmap string string) :=
  generate_testcase (G:=Lcg) small_config 10 false 9 ex_rng None [] ∅.

Definition case_heap (r : option (heap * Lcg * gmap string string)) : heap :=
  default [] ((λ x, x.1.1) <$> r).

Definition case_rng (r : option (heap * Lcg * gmap string string)) : Lcg :=
  default ex_rng ((λ x, x.1.2) <$> r).

Definition case_files (r : option (heap * Lcg * gmap string string))
  : gmap string string :=
  default ∅ (snd <$> r).

(** * Properties *)

(** ** The order on keys is a strict total order *)

Section KeyOrder.
Import OrderedTypeEx.

Lemma str_ltb_lt (a b : string) : String.ltb a b = true ↔ String_as_OT.lt a b.
Proof.
  rewrite <- String_as_OT.cmp_lt. unfold String.ltb, String_as_OT.cmp.
  destruct (String.compare a b); split; congruence.
Qed.

Lemma str_ltb_irrefl (a : string) : String.ltb a a = false.
Proof.
  destruct (String.ltb a a) eqn:E; [|done].
  apply str_ltb_lt, String_as_OT.lt_not_eq in E. by destruct E.
Qed.

Lemma str_ltb_trans (a b c : string) :
  String.ltb a b = true → String.ltb b c = true → String.ltb a c = true.
Proof. rewrite !str_ltb_lt. apply String_as_OT.lt_trans. Qed.

Lemma str_ltb_total (a b : string) :
  a ≠ b → String.ltb a b = false → String.ltb b a = true.
Proof.
  intros Hne Hab. unfold String.ltb in *.
  rewrite String.compare_antisym.
  destruct (String.compare a b) eqn:E; simpl; try done.
  apply String.compare_eq_iff in E. done.
Qed.
End KeyOrder.

Lemma key_lt_irrefl (k : string * Z) : key_lt k k = false.
Proof. unfold key_lt. rewrite String.eqb_refl. apply Z.ltb_irrefl. Qed.

Lemma key_lt_trans (a b c : string * Z) :
  key_lt a b = true → key_lt b c = true → key_lt a c = true.
Proof.
  unfold key_lt. destruct a as [a1 a2], b as [b1 b2], c as [c1 c2]; simpl.
  destruct (String.eqb_spec a1 b1) as [->|Hab],
           (String.eqb_spec b1 c1) as [->|Hbc]; intros H1 H2.
  - lia.
  - done.
  - destruct (String.eqb_spec a1 c1); done.
  - destruct (String.eqb_spec a1 c1) as [->|Hac].
    + pose proof (str_ltb_trans _ _ _ H1 H2) as Hcc.
      by rewrite str_ltb_irrefl in Hcc.
    + eapply str_ltb_trans; eauto.
Qed.

Lemma key_lt_asym (a b : string * Z) : key_lt a b = true → key_lt b a = false.
Proof.
  intros Hab. destruct (key_lt b a) eqn:Hba; [|done].
  pose proof (key_lt_trans _ _ _ Hab Hba) as Haa.
  by rewrite key_lt_irrefl in Haa.
Qed.

Lemma key_lt_total (a b : string * Z) :
  a ≠ b → key_lt a b = false → key_lt b a = true.
Proof.
  unfold key_lt. destruct a as [a1 a2], b as [b1 b2]; simpl.
  destruct (String.eqb_spec a1 b1) as [->|Hab]; intros Hne H1.
  - rewrite String.eqb_refl. apply Z.ltb_lt.
    apply Z.ltb_ge in H1. assert (a2 ≠ b2) by congruence. lia.
  - destruct (String.eqb_spec b1 a1) as [->|_]; [done|].
    by apply str_ltb_total.
Qed.

Lemma klt_trans (a b c : Employee) : klt a b → klt b c → klt a c.
Proof. apply key_lt_trans. Qed.

Lemma klt_irrefl (a : Employee) : ¬ klt a a.
Proof. unfold klt. by rewrite key_lt_irrefl. Qed.

Lemma klt_asym (a b : Employee) : klt a b → ¬ klt b a.
Proof. unfold klt. intros Hab. by rewrite (key_lt_asym _ _ Hab). Qed.

Lemma klt_total (a b : Employee) : key a ≠ key b → ¬ klt a b → klt b a.
Proof.
  unfold klt. intros Hne Hab. apply key_lt_total; [done|].
  by destruct (key_lt (key a) (key b)).
Qed.

(** ** Insertion on trees *)

Lemma inorder_insert (e : Employee) (t : tree) :
  inorder (insert e t) ≡ₚ e :: inorder t.
Proof.
  induction t as [|l IHl x r IHr]; simpl; [done|].
  destruct (key_lt (key e) (key x)); simpl.
  - by rewrite IHl.
  - rewrite IHr, <- !Permutation_middle. apply Permutation_swap.
Qed.

Lemma size_inorder (t : tree) : length (inorder t) = size t.
Proof.
  induction t as [|l IHl x r IHr]; simpl; [done|].
  rewrite length_app. simpl. lia.
Qed.

Lemma size_insert (e : Employee) (t : tree) : size (insert e t) = S (size t).
Proof.
  induction t as [|l IHl x r IHr]; simpl; [done|].
  destruct (key_lt (key e) (key x)); simpl; lia.
Qed.

Lemma height_insert (e : Employee) (t : tree) :
  (height (insert e t) ≤ S (height t))%nat.
Proof.
  induction t as [|l IHl x r IHr]; simpl; [lia|].
  destruct (key_lt (key e) (key x)); simpl; lia.
Qed.

Lemma height_le_size (t : tree) : (height t ≤ size t)%nat.
Proof. induction t; simpl; lia. Qed.

Lemma bst_insert (e : Employee) (t : tree) :
  bst t → Forall (λ x, key x ≠ key e) (inorder t) → bst (insert e t).
Proof.
  induction t as [|l IHl x r IHr]; simpl.
  - intros _ _. repeat split; constructor.
  - intros (Hl & Hr & Bl & Br). rewrite Forall_app, Forall_cons.
    intros (Nl & Nx & Nr).
    destruct (key_lt (key e) (key x)) eqn:E; simpl; repeat split; auto.
    + rewrite inorder_insert. by constructor.
    + rewrite inorder_insert. constructor; [|done].
      apply klt_total; [done|]. unfold klt. by rewrite E.
Qed.

(** The two readings of the strict BST invariant agree. *)
Lemma bst_sorted (t : tree) : bst t ↔ StronglySorted klt (inorder t).
Proof.
  induction t as [|l IHl x r IHr]; simpl.
  - split; [constructor|done].
  - rewrite StronglySorted_app, StronglySorted_cons, IHl, IHr.
    split.
    + intros (Hl & Hr & Sl & Sr). repeat split; auto.
      intros a b Ha Hb. rewrite Forall_forall in Hl, Hr.
      apply elem_of_cons in Hb as [->|Hb]; [by apply Hl|].
      eapply klt_trans; [by apply Hl|by apply Hr].
    + intros (Hlr & Sl & Hr & Sr). repeat split; auto.
      apply Forall_forall. intros a Ha. apply Hlr; [done|]. left.
Qed.

(** With pairwise distinct keys, the data model's ordering is the strict
    BST invariant. *)
Lemma ordered_bst (t : tree) :
  NoDup (key <$> inorder t) → ordered t → bst t.
Proof.
  induction t as [|l IHl x r IHr]; simpl; [done|].
  rewrite fmap_app, fmap_cons. intros Hnd (Hl & Hr & Ol & Or).
  apply NoDup_app in Hnd as (Ndl & Hdisj & Ndr).
  apply NoDup_cons in Ndr as (Hx & Ndr).
  repeat split; auto.
  rewrite Forall_forall in Hr |- *. intros y Hy.
  apply klt_total; [|by apply Hr].
  intros Heq. apply Hx. rewrite <- Heq. by apply list_elem_of_fmap_2.
Qed.

Lemma bst_ordered (t : tree) : bst t → ordered t.
Proof.
  induction t as [|l IHl x r IHr]; simpl; [done|].
  intros (Hl & Hr & Bl & Br). repeat split; auto.
  eapply Forall_impl; [exact Hr|]. intros y Hy. by apply klt_asym.
Qed.

Lemma sorted_keys_NoDup (es : list Employee) :
  StronglySorted klt es → NoDup (key <$> es).
Proof.
  induction 1 as [|x l Hs IH Hx]; simpl; constructor; [|done].
  intros (y & Hk & Hy)%list_elem_of_fmap.
  rewrite Forall_forall in Hx. specialize (Hx y Hy).
  unfold klt in Hx. rewrite Hk in Hx. by rewrite key_lt_irrefl in Hx.
Qed.

(** ** The representation predicate *)

Lemma repr_lt h root t fp :
  repr h root t fp → Forall (λ q, (q < length h)%nat) fp.
Proof.
  induction 1 as [|p n l r fl fr Hp _ IHl _ IHr]; [constructor|].
  apply Forall_app. split; [done|]. constructor; [|done].
  by eapply lookup_lt_Some.
Qed.

Lemma repr_length h root t fp : repr h root t fp → length fp = size t.
Proof.
  induction 1 as [|p n l r fl fr Hp _ IHl _ IHr]; simpl; [done|].
  rewrite length_app. simpl. lia.
Qed.

(** [repr] only reads the cells of the footprint. *)
Lemma repr_frame h h' root t fp :
  repr h root t fp → (∀ q, q ∈ fp → h' !! q = h !! q) → repr h' root t fp.
Proof.
  induction 1 as [|p n l r fl fr Hp _ IHl _ IHr]; intros Hfr; [constructor|].
  constructor.
  - rewrite Hfr; [done|]. set_solver.
  - apply IHl. intros q Hq. apply Hfr. set_solver.
  - apply IHr. intros q Hq. apply Hfr. set_solver.
Qed.

(** A reference represents at most one tree. *)
Lemma repr_unique h root t1 fp1 t2 fp2 :
  repr h root t1 fp1 → repr h root t2 fp2 → t1 = t2 ∧ fp1 = fp2.
Proof.
  intros H1. revert t2 fp2.
  induction H1 as [|p n l r fl fr Hp _ IHl _ IHr]; intros t2 fp2 H2.
  - by inversion H2.
  - inversion H2 as [|p' n' l' r' fl' fr' Hp' Hl' Hr']; subst.
    rewrite Hp in Hp'. injection Hp' as <-.
    destruct (IHl _ _ Hl') as [-> ->]. by destruct (IHr _ _ Hr') as [-> ->].
Qed.

(** The payloads of the footprint, in order, are the in-order traversal. *)
Lemma repr_emps h root t fp :
  repr h root t fp →
  Forall2 (λ q e, Node.emp <$> h !! q = Some e) fp (inorder t).
Proof.
  induction 1 as [|p n l r fl fr Hp _ IHl _ IHr]; simpl; [constructor|].
  apply Forall2_app; [done|]. constructor; [|done]. by rewrite Hp.
Qed.

(** ** [insert_node] implements insertion *)

Lemma insert_node_repr h root t fp :
  repr h root t fp → NoDup fp →
  ∀ fuel e, (height t < fuel)%nat →
  ∃ h' p fp',
    insert_node fuel h root e = Some (h', p)
    ∧ repr h' (Some p) (insert e t) fp'
    ∧ fp' ≡ₚ length h :: fp
    ∧ length h' = S (length h)
    ∧ (∀ q, (q < length h)%nat → q ∉ fp → h' !! q = h !! q)
    ∧ (∀ q, root = Some q → p = q).
Proof.
  induction 1 as [|p n l r fl fr Hp Hl IHl Hr IHr]; intros Hnd fuel e Hfuel.
  - destruct fuel as [|fuel]; [lia|]. simpl.
    exists (h ++ [Node.mk e None None]), (length h), ([] ++ length h :: []).
    split_and!; try done.
    + apply (repr_node _ _ (Node.mk e None None)); [|constructor..].
      by apply list_lookup_middle.
    + rewrite length_app. simpl. lia.
    + intros q Hq _. by apply lookup_app_l.
  - destruct fuel as [|fuel]; [simpl in Hfuel; lia|]. simpl in Hfuel |- *.
    rewrite Hp. simpl.
    pose proof (repr_lt _ _ _ _ Hl) as Hltl.
    pose proof (repr_lt _ _ _ _ Hr) as Hltr.
    rewrite Forall_forall in Hltl, Hltr.
    pose proof (lookup_lt_Some _ _ _ Hp) as Hplt.
    apply NoDup_app in Hnd as (Ndl & Hdisj & Ndr).
    apply NoDup_cons in Ndr as (Hpr & Ndr).
    assert (p ∉ fl) as Hpl by (intros Hin; apply (Hdisj _ Hin); left).
    destruct (key_lt (key e) (key (Node.emp n))).
    + destruct (IHl Ndl fuel e ltac:(lia))
        as (h1 & q & fl' & -> & Hrepr & Hperm & Hlen & Hfr & _).
      simpl.
      assert (h1 !! p = Some n) as Hp1 by (rewrite Hfr; done).
      exists (alter (Node.set_left (Some q)) p h1), p, (fl' ++ p :: fr).
      split_and!; try done.
      * change (Node.emp n) with (Node.emp (Node.set_left (Some q) n)).
        constructor.
        -- by rewrite list_lookup_alter_eq, Hp1.
        -- simpl. eapply repr_frame; [exact Hrepr|].
           intros x Hx. apply list_lookup_alter_ne. intros <-.
           rewrite Hperm in Hx. apply elem_of_cons in Hx as [?|?]; [lia|done].
        -- simpl. eapply repr_frame; [exact Hr|].
           intros x Hx. rewrite list_lookup_alter_ne by (by intros <-).
           apply Hfr; [by apply Hltr|].
           intros Hxl. apply (Hdisj _ Hxl). by right.
      * by rewrite Hperm.
      * by rewrite length_alter.
      * intros x Hx Hnin. rewrite list_lookup_alter_ne by set_solver.
        apply Hfr; [done|]. set_solver.
      * by intros ? [= ->].
    + destruct (IHr Ndr fuel e ltac:(lia))
        as (h1 & q & fr' & -> & Hrepr & Hperm & Hlen & Hfr & _).
      simpl.
      assert (h1 !! p = Some n) as Hp1 by (rewrite Hfr; done).
      exists (alter (Node.set_right (Some q)) p h1), p, (fl ++ p :: fr').
      split_and!; try done.
      * change (Node.emp n) with (Node.emp (Node.set_right (Some q) n)).
        constructor.
        -- by rewrite list_lookup_alter_eq, Hp1.
        -- simpl. eapply repr_frame; [exact Hl|].
           intros x Hx. rewrite list_lookup_alter_ne by (by intros <-).
           apply Hfr; [by apply Hltl|].
           intros Hxr. apply (Hdisj _ Hx). by right.
        -- simpl. eapply repr_frame; [exact Hrepr|].
           intros x Hx. apply list_lookup_alter_ne. intros <-.
           rewrite Hperm in Hx. apply elem_of_cons in Hx as [?|?]; [lia|done].
      * rewrite Hperm. by rewrite <- !Permutation_middle, Permutation_swap.
      * by rewrite length_alter.
      * intros x Hx Hnin. rewrite list_lookup_alter_ne by set_solver.
        apply Hfr; [done|]. set_solver.
      * by intros ? [= ->].
Qed.

Lemma build_tree_inorder (es : list Employee) (t : tree) :
  inorder (build_tree es t) ≡ₚ inorder t ++ es.
Proof.
  revert t. induction es as [|e es IH]; intros t; simpl.
  - by rewrite app_nil_r.
  - rewrite IH, inorder_insert. simpl. by rewrite Permutation_middle.
Qed.

Lemma build_tree_size (es : list Employee) (t : tree) :
  size (build_tree es t) = (size t + length es)%nat.
Proof.
  revert t. induction es as [|e es IH]; intros t; simpl; [lia|].
  rewrite IH, size_insert. lia.
Qed.

Lemma build_tree_bst (es : list Employee) (t : tree) :
  bst t → NoDup (key <$> inorder t ++ es) → bst (build_tree es t).
Proof.
  revert t. induction es as [|e es IH]; intros t Hb Hnd; simpl; [done|].
  apply IH.
  - apply bst_insert; [done|].
    rewrite fmap_app in Hnd. apply NoDup_app in Hnd as (_ & Hdisj & _).
    apply Forall_forall. intros x Hx Heq. apply (Hdisj (key x)).
    + by apply list_elem_of_fmap_2.
    + rewrite Heq, fmap_cons. left.
  - assert (inorder (insert e t) ++ es ≡ₚ inorder t ++ e :: es) as ->; [|done].
    rewrite inorder_insert. simpl. apply Permutation_middle.
Qed.

(** ** The insertion loop *)

Lemma insert_all_repr es :
  ∀ h root t fp fuel,
  repr h root t fp → NoDup fp → (height t + length es ≤ fuel)%nat →
  ∃ h' root' fp',
    insert_all fuel h root es = Some (h', root')
    ∧ repr h' root' (build_tree es t) fp'
    ∧ NoDup fp'
    ∧ fp' ≡ₚ seq (length h) (length es) ++ fp
    ∧ length h' = (length h + length es)%nat
    ∧ (∀ q, (q < length h)%nat → q ∉ fp → h' !! q = h !! q).
Proof.
  induction es as [|e es IH]; intros h root t fp fuel Hrepr Hnd Hfuel.
  - exists h, root, fp. simpl. split_and!; done || lia.
  - simpl in Hfuel |- *.
    destruct (insert_node_repr _ _ _ _ Hrepr Hnd fuel e ltac:(lia))
      as (h1 & p & fp1 & -> & Hrepr1 & Hperm1 & Hlen1 & Hfr1 & _).
    simpl.
    pose proof (repr_lt _ _ _ _ Hrepr) as Hlt. rewrite Forall_forall in Hlt.
    assert (NoDup fp1) as Hnd1.
    { rewrite Hperm1. constructor; [|done]. intros Hin. apply Hlt in Hin. lia. }
    pose proof (height_insert e t) as Hh.
    destruct (IH h1 (Some p) (insert e t) fp1 fuel Hrepr1 Hnd1 ltac:(lia))
      as (h' & root' & fp' & -> & Hrepr' & Hnd' & Hperm' & Hlen' & Hfr').
    exists h', root', fp'. split_and!; try done.
    + rewrite Hperm', Hperm1, Hlen1. simpl.
      by rewrite <- Permutation_middle.
    + lia.
    + intros q Hq Hnin. rewrite Hfr'; [by apply Hfr1|lia|].
      rewrite Hperm1. intros [?|?]%elem_of_cons; [lia|done].
Qed.

(** ** Paths in a represented tree *)

Lemma reach_footprint h root t fp path q :
  repr h root t fp → reach h root path q → q ∈ fp.
Proof.
  intros Hrepr. revert path.
  induction Hrepr as [|p n l r fl fr Hp _ IHl _ IHr]; intros path Hreach.
  - inversion Hreach.
  - inversion Hreach as [p' n' Hp'|p' n' path' q' Hp' Hsub|p' n' path' q' Hp' Hsub];
      subst.
    + set_solver.
    + rewrite Hp in Hp'. injection Hp' as <-. specialize (IHl _ Hsub). set_solver.
    + rewrite Hp in Hp'. injection Hp' as <-. specialize (IHr _ Hsub). set_solver.
Qed.

Lemma reach_inv h p n path q :
  h !! p = Some n → reach h (Some p) path q →
  (path = [] ∧ q = p)
  ∨ (∃ path', path = false :: path' ∧ reach h (Node.left n) path' q)
  ∨ (∃ path', path = true :: path' ∧ reach h (Node.right n) path' q).
Proof.
  intros Hp Hreach.
  inversion Hreach as [p' n' Hp'|p' n' path' q' Hp' Hsub|p' n' path' q' Hp' Hsub];
    subst; rewrite Hp in Hp'; injection Hp' as <-.
  - by left.
  - right. left. by exists path'.
  - right. right. by exists path'.
Qed.

Lemma reach_unique h root t fp :
  repr h root t fp → NoDup fp →
  ∀ path1 path2 q, reach h root path1 q → reach h root path2 q → path1 = path2.
Proof.
  induction 1 as [|p n l r fl fr Hp Hl IHl Hr IHr]; intros Hnd path1 path2 q H1 H2.
  - inversion H1.
  - apply NoDup_app in Hnd as (Ndl & Hdisj & Ndr).
    apply NoDup_cons in Ndr as (Hpr & Ndr).
    assert (p ∉ fl) as Hpl.
    { intros Hx. apply (Hdisj _ Hx). left. }
    assert (∀ x, x ∈ fl → x ∉ fr) as Hlr.
    { intros x Hx Hx'. apply (Hdisj _ Hx). by right. }
    destruct (reach_inv _ _ _ _ _ Hp H1)
      as [[-> ->]|[(pa1 & -> & Hs1)|(pa1 & -> & Hs1)]];
    destruct (reach_inv _ _ _ _ _ Hp H2)
      as [[-> Hq]|[(pa2 & -> & Hs2)|(pa2 & -> & Hs2)]].
    + done.
    + destruct Hpl. by eapply reach_footprint.
    + destruct Hpr. by eapply reach_footprint.
    + subst q. destruct Hpl. by eapply reach_footprint.
    + f_equal. by eapply IHl.
    + destruct (Hlr q); by eapply reach_footprint.
    + subst q. destruct Hpr. by eapply reach_footprint.
    + destruct (Hlr q); by eapply reach_footprint.
    + f_equal. by eapply IHr.
Qed.

(** Every node of the footprint is reachable. *)
Lemma footprint_reach h root t fp q :
  repr h root t fp → q ∈ fp → ∃ path, reach h root path q.
Proof.
  induction 1 as [|p n l r fl fr Hp Hl IHl Hr IHr]; intros Hq.
  - by apply elem_of_nil in Hq.
  - apply elem_of_app in Hq as [Hq|Hq]; [|apply elem_of_cons in Hq as [->|Hq]].
    + destruct (IHl Hq) as [path Hpath]. exists (false :: path).
      by eapply reach_left.
    + exists []. by eapply reach_here.
    + destruct (IHr Hq) as [path Hpath]. exists (true :: path).
      by eapply reach_right.
Qed.

(** ** The random sources satisfy the contract *)

#[export] Instance Lcg_laws : RandomLaws Lcg.
Proof.
  split.
  - intros a b g Hab. simpl. destruct (lcg_next g) as [x g1]. simpl.
    pose proof (Z.mod_pos_bound (Z.of_nat x) (b - a + 1)). lia.
  - intros n g Hn. simpl. destruct (lcg_next g) as [x g1]. simpl.
    apply Nat.mod_upper_bound. lia.
  - intros A l g. simpl. destruct (lcg_next g) as [x g1]. simpl.
    unfold rotate. rewrite Permutation_app_comm. by rewrite take_drop.
  - intros n g Hn. simpl. destruct (lcg_next g) as [x g1].
    destruct (lcg_next g1) as [y g2]. simpl.
    pose proof (Nat.mod_upper_bound x n ltac:(lia)).
    pose proof (Nat.mod_upper_bound y (n - 1) ltac:(lia)).
    destruct (Nat.ltb_spec (y mod (n - 1)) (x mod n)); lia.
Qed.

#[export] Instance Traced_laws G `{RandomLaws G} : RandomLaws (Traced G).
Proof.
  split.
  - intros a b [g tr] Hab. simpl.
    pose proof (randint_range a b g Hab). by destruct (randint a b g).
  - intros n [g tr] Hn. simpl.
    pose proof (choice_index_lt n g Hn). by destruct (choice_index n g).
  - intros A l [g tr]. simpl.
    pose proof (shuffle_perm A l g). by destruct (shuffle l g).
  - intros n [g tr] Hn. simpl.
    pose proof (sample2_distinct n g Hn). by destruct (sample2_index n g).
Qed.

(** ** The Builder *)

Section Builder.
Context {G : Type} `{RandomLaws G}.

Lemma insert_all_fresh fuel h es :
  NoDup (key <$> es) → (length es ≤ fuel)%nat →
  ∃ h' root fp,
    insert_all fuel h None es = Some (h', root)
    ∧ is_tree h' root (build_tree es Leaf) fp
    ∧ bst (build_tree es Leaf)
    ∧ length h' = (length h + length es)%nat
    ∧ fp ≡ₚ seq (length h) (length es)
    ∧ (∀ q, (q < length h)%nat → h' !! q = h !! q).
Proof.
  intros Hnd Hfuel.
  destruct (insert_all_repr es h None Leaf [] fuel (repr_leaf h)
              (NoDup_nil_2) ltac:(simpl; lia))
    as (h' & root & fp & Hrun & Hrepr & Hndfp & Hperm & Hlen & Hfr).
  exists h', root, fp. split_and!; try done.
  - by apply build_tree_bst.
  - by rewrite Hperm, app_nil_r.
  - intros q Hq. apply Hfr; [done|]. apply not_elem_of_nil.
Qed.

Lemma build_spec fuel h employees (g : G) :
  NoDup (key <$> employees) → (length employees ≤ fuel)%nat →
  ∃ h' root t fp,
    build_valid_bst_from_list fuel h employees g
      = Some (h', root, (shuffle employees g).2)
    ∧ t = build_tree (shuffle employees g).1 Leaf
    ∧ is_tree h' root t fp
    ∧ bst t
    ∧ inorder t ≡ₚ employees
    ∧ size t = length employees
    ∧ length h' = (length h + length employees)%nat
    ∧ fp ≡ₚ seq (length h) (length employees)
    ∧ (∀ q, (q < length h)%nat → h' !! q = h !! q).
Proof.
  intros Hnd Hfuel. unfold build_valid_bst_from_list.
  pose proof (shuffle_perm _ employees g) as Hperm.
  destruct (shuffle employees g) as [shuffled g1]. simpl in Hperm |- *.
  destruct (insert_all_fresh fuel h shuffled)
    as (h' & root & fp & -> & Htree & Hbst & Hlen & Hfp & Hfr).
  { by rewrite <- Hperm. }
  { by rewrite <- Hperm. }
  exists h', root, (build_tree shuffled Leaf), fp. simpl.
  split_and!; try done.
  - by rewrite build_tree_inorder, Hperm.
  - rewrite build_tree_size. simpl. by rewrite Hperm.
  - by rewrite Hperm.
  - by rewrite Hperm.
Qed.

End Builder.

(** ** Sorted lists and swaps *)

#[export] Instance klt_transitive : Transitive klt.
Proof. intros a b c. apply klt_trans. Qed.

Lemma StronglySorted_lookup_lt {A} (R : relation A) (l : list A) i j x y :
  StronglySorted R l → (i < j)%nat → l !! i = Some x → l !! j = Some y → R x y.
Proof.
  intros Hs. revert i j. induction Hs as [|a l Hs IH Ha]; intros i j Hij Hi Hj.
  - done.
  - destruct j as [|j]; [lia|]. destruct i as [|i]; simpl in *.
    + injection Hi as ->. rewrite Forall_forall in Ha. apply Ha.
      by eapply list_elem_of_lookup_2.
    + eapply (IH i j); [lia|done..].
Qed.

Lemma StronglySorted_of_fmap {A B} (f : A → B) (R : relation B) (l : list A) :
  StronglySorted R (f <$> l) → StronglySorted (λ a b, R (f a) (f b)) l.
Proof.
  induction l as [|a l IH]; [constructor|].
  rewrite fmap_cons. intros [Ha Hl]%StronglySorted_cons.
  constructor; [by apply IH|].
  apply Forall_forall. intros b Hb. rewrite Forall_forall in Ha. apply Ha.
  by apply list_elem_of_fmap_2.
Qed.

Lemma inversion_not_sorted (es : list Employee) :
  has_inversion es → ¬ Sorted klt es.
Proof.
  intros (i & j & x & y & Hij & Hi & Hj & Hyx) Hs.
  apply Sorted_StronglySorted in Hs; [|apply _].
  pose proof (StronglySorted_lookup_lt _ _ _ _ _ _ Hs Hij Hi Hj) as Hxy.
  by eapply klt_asym.
Qed.

Lemma swap_at_perm {A} (i j : nat) (l : list A) : swap_at i j l ≡ₚ l.
Proof.
  unfold swap_at. destruct (l !! i) eqn:Hi; [|done].
  destruct (l !! j) eqn:Hj; [|done]. by apply Permutation_insert_swap.
Qed.

Lemma swap_at_lookup_l {A} (i j : nat) (l : list A) x y :
  i ≠ j → l !! i = Some x → l !! j = Some y → swap_at i j l !! i = Some y.
Proof.
  intros Hne Hi Hj. unfold swap_at. rewrite Hi, Hj.
  rewrite list_lookup_insert_ne by done.
  apply list_lookup_insert_eq. by eapply lookup_lt_Some.
Qed.

Lemma swap_at_lookup_r {A} (i j : nat) (l : list A) x y :
  l !! i = Some x → l !! j = Some y → swap_at i j l !! j = Some x.
Proof.
  intros Hi Hj. unfold swap_at. rewrite Hi, Hj.
  apply list_lookup_insert_eq. rewrite length_insert. by eapply lookup_lt_Some.
Qed.

Lemma swap_at_lookup_ne {A} (i j k : nat) (l : list A) :
  k ≠ i → k ≠ j → swap_at i j l !! k = l !! k.
Proof.
  intros Hi Hj. unfold swap_at.
  destruct (l !! i); [|done]. destruct (l !! j); [|done].
  by rewrite !list_lookup_insert_ne.
Qed.

(** Exchanging two elements of a strictly increasing list leaves an
    inversion at the two positions. *)
Lemma swap_at_inversion (es : list Employee) i j :
  StronglySorted klt es → i ≠ j →
  (i < length es)%nat → (j < length es)%nat →
  has_inversion (swap_at i j es).
Proof.
  intros Hs Hne Hi Hj.
  destruct (lookup_lt_is_Some_2 _ _ Hi) as [x Hx].
  destruct (lookup_lt_is_Some_2 _ _ Hj) as [y Hy].
  destruct (decide (i < j)%nat) as [Hlt|Hge].
  - exists i, j, y, x. split_and!; [done|..].
    + by eapply swap_at_lookup_l.
    + by eapply swap_at_lookup_r.
    + by eapply (StronglySorted_lookup_lt klt es i j).
  - exists j, i, x, y. split_and!; [lia|..].
    + by eapply swap_at_lookup_r.
    + by eapply swap_at_lookup_l.
    + eapply (StronglySorted_lookup_lt klt es j i); [done|lia|done..].
Qed.

(** ** The Corruptor *)

Lemma collect_repr h root t fp :
  repr h root t fp →
  ∀ fuel out, (height t < fuel)%nat →
  collect_nodes_inorder fuel h root out = Some (out ++ fp).
Proof.
  induction 1 as [|p n l r fl fr Hp _ IHl _ IHr]; intros fuel out Hfuel;
    (destruct fuel as [|fuel]; [simpl in Hfuel; lia|]); simpl in *.
  - by rewrite app_nil_r.
  - rewrite Hp. simpl. rewrite IHl by lia. simpl. rewrite IHr by lia.
    by rewrite <- !app_assoc.
Qed.

(** A store with the same edges represents a tree of the same shape, on
    the same nodes. *)
Lemma repr_relabel h h' root t fp :
  repr h root t fp →
  (∀ q, q ∈ fp → Node.left <$> h' !! q = Node.left <$> h !! q
                ∧ Node.right <$> h' !! q = Node.right <$> h !! q) →
  ∃ t', repr h' root t' fp ∧ shape_of t' = shape_of t.
Proof.
  induction 1 as [|p n l r fl fr Hp _ IHl _ IHr]; intros Hsame.
  - exists Leaf. split; [constructor|done].
  - destruct IHl as (l' & Hl' & Hsl).
    { intros q Hq. apply Hsame, elem_of_app. by left. }
    destruct IHr as (r' & Hr' & Hsr).
    { intros q Hq. apply Hsame, elem_of_app. right. by right. }
    destruct (Hsame p) as [Hpl Hpr].
    { apply elem_of_app. right. left. }
    rewrite Hp in Hpl, Hpr. simpl in Hpl, Hpr.
    destruct (h' !! p) as [n'|] eqn:Hp'; [|done].
    injection Hpl as Hpl. injection Hpr as Hpr.
    exists (T l' (Node.emp n') r'). split; [|simpl; congruence].
    constructor; [done|by rewrite Hpl|by rewrite Hpr].
Qed.

Section Corruptor.
Context {G : Type} `{RandomLaws G}.

(** With fewer than two nodes nothing is sampled and nothing is written. *)
Lemma violate_small fuel h root t fp (g : G) :
  repr h root t fp → (size t < 2)%nat → (height t < fuel)%nat →
  violate_bst fuel h root g = Some (h, root, g).
Proof.
  intros Hrepr Hsize Hfuel. unfold violate_bst.
  rewrite (collect_repr _ _ _ _ Hrepr) by done. simpl.
  rewrite (repr_length _ _ _ _ Hrepr).
  destruct (decide (2 ≤ size t)%nat); [lia|done].
Qed.

(** With two nodes or more, the payloads at the two sampled in-order
    positions are exchanged and nothing else changes. *)
Lemma violate_spec fuel h root t fp (g : G) :
  is_tree h root t fp → (2 ≤ size t)%nat → (height t < fuel)%nat →
  ∃ h' t',
    violate_bst fuel h root g
      = Some (h', root, (sample2_index (size t) g).2)
    ∧ is_tree h' root t' fp
    ∧ shape_of t' = shape_of t
    ∧ length h' = length h
    ∧ (∀ q, Node.left <$> h' !! q = Node.left <$> h !! q
            ∧ Node.right <$> h' !! q = Node.right <$> h !! q)
    ∧ (∀ q, q ∉ fp → h' !! q = h !! q)
    ∧ (sample2_index (size t) g).1.1 ≠ (sample2_index (size t) g).1.2
    ∧ ((sample2_index (size t) g).1.1 < size t)%nat
    ∧ ((sample2_index (size t) g).1.2 < size t)%nat
    ∧ inorder t' = swap_at (sample2_index (size t) g).1.1
                           (sample2_index (size t) g).1.2 (inorder t).
Proof.
  intros [Hrepr Hnd] Hsize Hfuel. unfold violate_bst.
  rewrite (collect_repr _ _ _ _ Hrepr) by done. simpl.
  pose proof (repr_length _ _ _ _ Hrepr) as Hlen. rewrite Hlen.
  destruct (decide (2 ≤ size t)%nat); [|lia].
  unfold sample2. rewrite Hlen.
  destruct (sample2_distinct (size t) g Hsize) as (Hi & Hj & Hij).
  destruct (sample2_index (size t) g) as [[i j] g1]. simpl in Hi, Hj, Hij |- *.
  destruct (lookup_lt_is_Some_2 fp i ltac:(lia)) as [a Ha].
  destruct (lookup_lt_is_Some_2 fp j ltac:(lia)) as [b Hb].
  rewrite Ha, Hb. simpl.
  pose proof (repr_lt _ _ _ _ Hrepr) as Hlt. rewrite Forall_forall in Hlt.
  destruct (lookup_lt_is_Some_2 h a) as [na Hna].
  { apply Hlt. by eapply list_elem_of_lookup_2. }
  destruct (lookup_lt_is_Some_2 h b) as [nb Hnb].
  { apply Hlt. by eapply list_elem_of_lookup_2. }
  rewrite Hna, Hnb. simpl.
  assert (a ≠ b) as Hab.
  { intros ->. apply Hij. by eapply NoDup_lookup. }
  set (h' := alter (Node.set_emp (Node.emp na)) b
               (alter (Node.set_emp (Node.emp nb)) a h)).
  assert (∀ q, Node.left <$> h' !! q = Node.left <$> h !! q
               ∧ Node.right <$> h' !! q = Node.right <$> h !! q) as Hedges.
  { intros q. unfold h'. rewrite !list_lookup_alter.
    repeat case_decide; subst; clear; by destruct (h !! q) as [[]|]. }
  destruct (repr_relabel h h' root t fp Hrepr) as (t' & Hrepr' & Hshape).
  { intros q _. apply Hedges. }
  exists h', t'. split_and!; try done.
  - unfold h'. by rewrite !length_alter.
  - intros q Hq. unfold h'.
    rewrite !list_lookup_alter_ne; [done|..].
    + intros ->. apply Hq. by eapply list_elem_of_lookup_2.
    + intros ->. apply Hq. by eapply list_elem_of_lookup_2.
  - pose proof (repr_emps _ _ _ _ Hrepr) as Hemps.
    pose proof (repr_emps _ _ _ _ Hrepr') as Hemps'.
    destruct (Forall2_lookup_l _ _ _ _ _ Hemps Ha) as (x & Hx & Hxa).
    destruct (Forall2_lookup_l _ _ _ _ _ Hemps Hb) as (y & Hy & Hyb).
    rewrite Hna in Hxa. rewrite Hnb in Hyb. simpl in Hxa, Hyb.
    injection Hxa as <-. injection Hyb as <-.
    apply list_eq. intros k.
    destruct (fp !! k) as [q|] eqn:Hq.
    + destruct (Forall2_lookup_l _ _ _ _ _ Hemps' Hq) as (e' & -> & He').
      destruct (Forall2_lookup_l _ _ _ _ _ Hemps Hq) as (e & Hek & He).
      unfold h' in He'. rewrite !list_lookup_alter in He'.
      destruct (decide (k = j)) as [->|Hkj].
      * assert (q = b) as -> by congruence.
        rewrite decide_True in He' by done.
        rewrite decide_False in He' by done. rewrite Hnb in He'.
        simpl in He'. injection He' as <-.
        symmetry. by eapply swap_at_lookup_r.
      * destruct (decide (k = i)) as [->|Hki].
        -- assert (q = a) as -> by congruence.
           rewrite decide_False in He' by done.
           rewrite decide_True in He' by done. rewrite Hna in He'.
           simpl in He'. injection He' as <-.
           symmetry. by eapply swap_at_lookup_l.
        -- rewrite swap_at_lookup_ne by done. rewrite Hek.
           assert (q ≠ a) by (intros ->; apply Hki; by eapply NoDup_lookup).
           assert (q ≠ b) by (intros ->; apply Hkj; by eapply NoDup_lookup).
           rewrite !decide_False in He' by done. congruence.
    + apply lookup_ge_None in Hq.
      rewrite !lookup_ge_None_2; [done|..].
      * rewrite (length_Permutation_proper _ _ (swap_at_perm i j (inorder t))).
        rewrite size_inorder. lia.
      * rewrite size_inorder.
        rewrite <- (repr_length _ _ _ _ Hrepr'). lia.
Qed.

End Corruptor.

(** ** The Serializer *)

Lemma has_comma_app (a b : string) :
  has_comma (a +:+ b) = has_comma a || has_comma b.
Proof.
  induction a as [|c a IH]; simpl; [done|]. rewrite IH.
  by rewrite orb_assoc.
Qed.

(** A record line is never the token [null]. *)
Lemma Employee_str_not_null (e : Employee) :
  String.eqb (Employee_str e) "null" = false.
Proof.
  destruct (String.eqb_spec (Employee_str e) "null") as [Heq|]; [|done].
  assert (has_comma (Employee_str e) = true) as Hc.
  { unfold Employee_str. rewrite has_comma_app. simpl. apply orb_true_r. }
  rewrite Heq in Hc. done.
Qed.

Lemma render_null (t : tree) :
  negb (String.eqb (render t) "null") = present t.
Proof.
  destruct t as [|l e r]; simpl; [done|]. by rewrite Employee_str_not_null.
Qed.

Lemma any_not_null_render (level : list tree) :
  any_not_null (render <$> level) = existsb present level.
Proof.
  unfold any_not_null. induction level as [|t level IH]; [done|].
  rewrite fmap_cons. cbn [existsb]. by rewrite render_null, IH.
Qed.

Lemma repr_None h t fp : repr h None t fp → t = Leaf.
Proof. by inversion 1. Qed.

Lemma repr_Some h p t fp : repr h (Some p) t fp → present t = true.
Proof. by inversion 1. Qed.

(** One round of the traversal renders the level and collects the child
    slots of its present nodes. *)
Lemma serialize_level_spec h locs level :
  slots_repr h locs level →
  ∀ parts next, ∃ next',
    serialize_level h locs parts next
      = Some (parts ++ (render <$> level), next ++ next')
    ∧ slots_repr h next' (child_slots level).
Proof.
  induction 1 as [|p t locs level [fp Hrepr] _ IH]; intros parts next.
  - exists []. simpl. rewrite !app_nil_r. split; [done|constructor].
  - inversion Hrepr as [|q n l r fl fr Hq Hl Hr]; subst; simpl.
    + destruct (IH (parts ++ ["null"%string]) next) as (next' & -> & Hnext).
      exists next'. by rewrite <- app_assoc.
    + rewrite Hq. simpl.
      destruct (IH (parts ++ [Employee_str (Node.emp n)])
                  (next ++ [Node.left n; Node.right n]))
        as (next' & -> & Hnext).
      exists (Node.left n :: Node.right n :: next').
      rewrite <- !app_assoc. split; [done|].
      constructor; [by eexists|]. constructor; [by eexists|done].
Qed.

Lemma pop_none_front_repr h locs level :
  slots_repr h locs level →
  slots_repr h (pop_none_front locs) (drop_absent_front level).
Proof.
  induction 1 as [|p t locs level [fp Hrepr] Hrest IH]; [constructor|].
  inversion Hrepr; subst; simpl; [done|].
  constructor; [by eexists|done].
Qed.

Lemma pop_trailing_none_repr h locs level :
  slots_repr h locs level →
  slots_repr h (pop_trailing_none locs) (trim level).
Proof.
  intros Hs. unfold pop_trailing_none, trim.
  apply Forall2_reverse, pop_none_front_repr, Forall2_reverse. exact Hs.
Qed.

(** *** Trimming a slot list *)

Lemma drop_absent_front_split (l : list tree) :
  ∃ n, l = replicate n Leaf ++ drop_absent_front l.
Proof.
  induction l as [|t l [n IH]]; [by exists 0%nat|].
  destruct t as [|a e b]; simpl.
  - exists (S n). simpl. by rewrite <- IH.
  - by exists 0%nat.
Qed.

Lemma drop_absent_front_head (l : list tree) :
  drop_absent_front l = [] ∨ ∃ a e b l', drop_absent_front l = T a e b :: l'.
Proof.
  induction l as [|t l IH]; [by left|].
  destruct t as [|a e b]; simpl; [done|]. right. by exists a, e, b, l.
Qed.

(** Trimming removes absent slots from the end, and nothing else. *)
Lemma trim_split (l : list tree) : ∃ n, l = trim l ++ replicate n Leaf.
Proof.
  unfold trim. destruct (drop_absent_front_split (reverse l)) as [n Hn].
  exists n. rewrite <- (reverse_involutive l) at 1. rewrite Hn at 1.
  by rewrite reverse_app, reverse_replicate.
Qed.

(** What is left is empty or ends with a present node. *)
Lemma trim_ends (l : list tree) : trim l = [] ∨ ends_present (trim l).
Proof.
  unfold trim.
  destruct (drop_absent_front_head (reverse l)) as [->|(a & e & b & l' & ->)].
  - by left.
  - right. exists (reverse l'), a, e, b. by rewrite reverse_cons.
Qed.

Lemma level_height_app (l1 l2 : list tree) :
  level_height (l1 ++ l2) = Nat.max (level_height l1) (level_height l2).
Proof.
  unfold level_height. induction l1 as [|t l1 IH]; simpl; [done|].
  rewrite IH. lia.
Qed.

Lemma level_size_app (l1 l2 : list tree) :
  level_size (l1 ++ l2) = (level_size l1 + level_size l2)%nat.
Proof.
  unfold level_size. induction l1 as [|t l1 IH]; simpl; [done|].
  rewrite IH. lia.
Qed.

Lemma level_height_absent n : level_height (replicate n Leaf) = 0%nat.
Proof. induction n; simpl; [done|]. by rewrite IHn. Qed.

Lemma level_size_absent n : level_size (replicate n Leaf) = 0%nat.
Proof. induction n; simpl; [done|]. by rewrite IHn. Qed.

Lemma level_height_trim (l : list tree) : level_height (trim l) = level_height l.
Proof.
  destruct (trim_split l) as [n Hn]. rewrite Hn at 2.
  rewrite level_height_app, level_height_absent. lia.
Qed.

Lemma level_size_trim (l : list tree) : level_size (trim l) = level_size l.
Proof.
  destruct (trim_split l) as [n Hn]. rewrite Hn at 2.
  rewrite level_size_app, level_size_absent. lia.
Qed.

Lemma level_height_children (l : list tree) :
  level_height (child_slots l) = pred (level_height l).
Proof.
  induction l as [|t l IH]; [done|].
  change (child_slots (t :: l))
    with (match t with Leaf => [] | T a _ b => [a; b] end ++ child_slots l).
  rewrite level_height_app, IH. destruct t as [|a e b]; simpl; lia.
Qed.

Lemma level_size_children (l : list tree) :
  level_size l = (length (filter (λ t, present t = true) l)
                  + level_size (child_slots l))%nat.
Proof.
  induction l as [|t l IH]; [done|].
  change (child_slots (t :: l))
    with (match t with Leaf => [] | T a _ b => [a; b] end ++ child_slots l).
  rewrite level_size_app. change (level_size (t :: l))
    with (size t + level_size l)%nat. rewrite IH.
  destruct t as [|a e b].
  - rewrite filter_cons_False by done. simpl. lia.
  - rewrite filter_cons_True by done. simpl. lia.
Qed.

Lemma ends_present_exists (l : list tree) :
  ends_present l → existsb present l = true.
Proof.
  intros (init & a & e & b & ->). rewrite existsb_app. simpl.
  apply orb_true_r.
Qed.

Lemma ends_present_height (l : list tree) :
  ends_present l → (0 < level_height l)%nat.
Proof.
  intros (init & a & e & b & ->). rewrite level_height_app. simpl. lia.
Qed.

Lemma ends_present_trim (l : list tree) : ends_present l → trim l = l.
Proof.
  intros (init & a & e & b & ->). unfold trim.
  rewrite reverse_app. simpl. by rewrite reverse_cons, reverse_involutive.
Qed.

(** *** The traversal loop *)

Lemma trimmed_child_slots (level : list tree) :
  (level = [] ∨ ends_present level) →
  (trim (child_slots level) = [] ∨ ends_present (trim (child_slots level)))
  ∧ (level ≠ [] →
     (level_height (trim (child_slots level)) < level_height level)%nat).
Proof.
  intros Hlevel. split; [apply trim_ends|]. intros Hne.
  destruct Hlevel as [->|Hends]; [done|].
  rewrite level_height_trim, level_height_children.
  pose proof (ends_present_height _ Hends). lia.
Qed.

(** The loop renders the levels one by one and returns as soon as the
    fuel exceeds the height of the first level. *)
Lemma serialize_loop_spec fuel :
  ∀ h locs level acc,
  slots_repr h locs level → (level = [] ∨ ends_present level) →
  (level_height level < fuel)%nat →
  serialize_loop fuel h locs acc
    = Some (acc ++ (render_line <$> levels fuel level)).
Proof.
  induction fuel as [|fuel IH]; intros h locs level acc Hs Hlevel Hfuel; [lia|].
  destruct Hs as [|p t locs level Hpt Hrest].
  - simpl. by rewrite app_nil_r.
  - assert (slots_repr h (p :: locs) (t :: level)) as Hs by by constructor.
    destruct (serialize_level_spec _ _ _ Hs [] []) as (next' & Hrun & Hnext).
    rewrite !app_nil_l in Hrun.
    cbn [serialize_loop levels]. rewrite Hrun. cbn [mbind option_bind].
    rewrite any_not_null_render.
    destruct Hlevel as [?|Hends]; [done|].
    rewrite (ends_present_exists _ Hends).
    destruct (trimmed_child_slots (t :: level)) as [Htr Hlt]; [by right|].
    rewrite (IH h _ (trim (child_slots (t :: level)))).
    + rewrite fmap_cons. by rewrite <- app_assoc.
    + by apply pop_trailing_none_repr.
    + done.
    + specialize (Hlt ltac:(done)). lia.
Qed.

(** More fuel than needed does not change the levels. *)
Lemma levels_fuel fuel1 :
  ∀ fuel2 level,
  (level = [] ∨ ends_present level) →
  (level_height level < fuel1)%nat → (level_height level < fuel2)%nat →
  levels fuel1 level = levels fuel2 level.
Proof.
  induction fuel1 as [|fuel1 IH]; intros fuel2 level Hlevel H1 H2; [lia|].
  destruct fuel2 as [|fuel2]; [lia|].
  destruct level as [|t level]; [done|]. cbn [levels].
  destruct (trimmed_child_slots (t :: level) Hlevel) as [Htr Hlt].
  specialize (Hlt ltac:(done)). f_equal. apply IH; [done|lia..].
Qed.

(** The properties of the rendered levels: each ends with a present
    node; there are as many as the height of the first level; each next
    level is the list of child slots without the absent slots at its end;
    the present slots of all levels are the nodes of the first level. *)
Lemma levels_props fuel :
  ∀ level,
  (level = [] ∨ ends_present level) → (level_height level < fuel)%nat →
  Forall ends_present (levels fuel level)
  ∧ length (levels fuel level) = level_height level
  ∧ (∀ k lvl, levels fuel level !! k = Some lvl →
       ∃ n, child_slots lvl
            = default [] (levels fuel level !! S k) ++ replicate n Leaf)
  ∧ sum_list ((λ lvl, length (filter (λ t, present t = true) lvl))
                <$> levels fuel level) = level_size level.
Proof.
  induction fuel as [|fuel IH]; intros level Hlevel Hfuel; [lia|].
  destruct level as [|t level]; [by split_and!|].
  destruct Hlevel as [?|Hends]; [done|]. cbn [levels].
  destruct (trimmed_child_slots (t :: level)) as [Htr Hlt]; [by right|].
  specialize (Hlt ltac:(done)).
  destruct (IH (trim (child_slots (t :: level))) Htr ltac:(lia))
    as (Hall & Hlen & Hstep & Hsum).
  split_and!.
  - by constructor.
  - cbn [length]. rewrite Hlen, level_height_trim, level_height_children.
    pose proof (ends_present_height _ Hends). lia.
  - intros [|k] lvl Hk.
    + injection Hk as <-. cbn [lookup list_lookup].
      destruct (trim_split (child_slots (t :: level))) as [n Hn].
      exists n. rewrite Hn at 1. f_equal.
      destruct Htr as [Hnil|Hends'].
      * rewrite Hnil. by destruct fuel.
      * destruct fuel as [|fuel'].
        { pose proof (ends_present_height _ Hends'). lia. }
        destruct Hends' as (init & a & e & b & Heq). rewrite Heq.
        by destruct init.
    + by apply Hstep.
  - rewrite fmap_cons. cbn [sum_list_with]. rewrite Hsum, level_size_trim.
    unfold id. by rewrite <- level_size_children.
Qed.

(** *** Every node is rendered once *)

Lemma level_emps_app (l1 l2 : list tree) :
  level_emps (l1 ++ l2) = level_emps l1 ++ level_emps l2.
Proof.
  unfold level_emps. induction l1 as [|t l1 IH]; simpl; [done|].
  by rewrite IH, app_assoc.
Qed.

Lemma level_emps_absent n : level_emps (replicate n Leaf) = [].
Proof. induction n; simpl; [done|]. by rewrite IHn. Qed.

Lemma level_emps_trim (l : list tree) : level_emps (trim l) = level_emps l.
Proof.
  destruct (trim_split l) as [n Hn]. rewrite Hn at 2.
  by rewrite level_emps_app, level_emps_absent, app_nil_r.
Qed.

Lemma level_emps_children (l : list tree) :
  level_emps l ≡ₚ present_emps l ++ level_emps (child_slots l).
Proof.
  induction l as [|t l IH]; [done|].
  change (child_slots (t :: l))
    with (match t with Leaf => [] | T a _ b => [a; b] end ++ child_slots l).
  rewrite level_emps_app.
  change (level_emps (t :: l)) with (inorder t ++ level_emps l).
  rewrite IH. destruct t as [|a e b]; [done|].
  change (present_emps (T a e b :: l)) with (e :: present_emps l).
  change (level_emps [a; b]) with (inorder a ++ inorder b ++ []).
  rewrite app_nil_r. simpl inorder.
  rewrite <- !app_assoc. simpl. rewrite <- Permutation_middle. f_equiv.
  rewrite (Permutation_app_swap_app (inorder b)).
  apply Permutation_app_swap_app.
Qed.

Lemma levels_emps fuel :
  ∀ level,
  (level = [] ∨ ends_present level) → (level_height level < fuel)%nat →
  concat (present_emps <$> levels fuel level) ≡ₚ level_emps level.
Proof.
  induction fuel as [|fuel IH]; intros level Hlevel Hfuel; [lia|].
  destruct level as [|t level]; [done|]. cbn [levels].
  destruct (trimmed_child_slots (t :: level) Hlevel) as [Htr Hlt].
  specialize (Hlt ltac:(done)).
  rewrite fmap_cons. cbn [concat].
  rewrite (IH _ Htr) by lia.
  by rewrite level_emps_trim, <- level_emps_children.
Qed.

(** The tokens of a line other than [null] are the record lines of its
    present slots. *)
Lemma non_null_render (level : list tree) :
  non_null (render <$> level) = Employee_str <$> present_emps level.
Proof.
  unfold non_null, present_emps.
  induction level as [|t level IH]; [done|]. rewrite fmap_cons.
  destruct t as [|a e b].
  - rewrite filter_cons_False by (intros Hne; by apply Hne). exact IH.
  - rewrite filter_cons_True.
    + simpl. f_equal. exact IH.
    + simpl. intros Heq. pose proof (Employee_str_not_null e) as Hn.
      rewrite Heq in Hn. done.
Qed.

Lemma serialize_tree_spec fuel h root t fp :
  repr h root t fp → (height t < fuel)%nat →
  serialize_tree fuel h root = Some (render_line <$> tree_levels t).
Proof.
  intros Hrepr Hfuel. destruct root as [p|].
  - pose proof (repr_Some _ _ _ _ Hrepr) as Hp.
    destruct t as [|a e b]; [done|]. unfold serialize_tree, tree_levels.
    assert (ends_present [T a e b]) as Hends by by exists [], a, e, b.
    assert (level_height [T a e b] = height (T a e b)) as Hh.
    { unfold level_height. simpl. lia. }
    rewrite (serialize_loop_spec fuel h [Some p] [T a e b]).
    + simpl app. do 2 f_equal. apply levels_fuel; [by right|lia..].
    + constructor; [by eexists|constructor].
    + by right.
    + lia.
  - by rewrite (repr_None _ _ _ Hrepr).
Qed.

(** *** The tokens of a line, read back from its text *)

Lemma has_space_app (a b : string) :
  has_space (a +:+ b) = has_space a || has_space b.
Proof.
  induction a as [|c a IH]; simpl; [done|]. rewrite IH.
  by rewrite orb_assoc.
Qed.

Lemma split_spaces_word (w : string) :
  has_space w = false → split_spaces w = [w].
Proof.
  induction w as [|c w IH]; simpl; [done|].
  intros [Hc Hw]%orb_false_iff. rewrite Hc, (IH Hw). done.
Qed.

Lemma split_spaces_app (w rest : string) :
  has_space w = false →
  split_spaces (w +:+ " " +:+ rest) = w :: split_spaces rest.
Proof.
  induction w as [|c w IH]; simpl; [done|].
  intros [Hc Hw]%orb_false_iff. rewrite Hc, (IH Hw). done.
Qed.

Lemma split_spaces_concat (parts : list string) :
  parts ≠ [] → Forall (λ w, has_space w = false) parts →
  split_spaces (String.concat " " parts) = parts.
Proof.
  induction parts as [|w parts IH]; [done|]. intros _ Hall.
  apply Forall_cons in Hall as [Hw Hall].
  destruct parts as [|w' parts]; [by apply split_spaces_word|].
  change (String.concat " " (w :: w' :: parts))
    with (w +:+ " " +:+ String.concat " " (w' :: parts)).
  rewrite split_spaces_app by done. f_equal. by apply IH.
Qed.

Lemma has_space_str_int (z : Z) : has_space (str_int z) = false.
Proof.
  assert (∀ d, has_space (DecimalString.NilEmpty.string_of_uint d) = false)
    as Huint by (induction d; simpl; done).
  assert (∀ d, has_space (DecimalString.NilZero.string_of_uint d) = false)
    as Hzero by (intros [| | | | | | | | | |]; simpl; try done; apply Huint).
  unfold str_int. destruct (Z.to_int z); simpl; apply Hzero.
Qed.

Lemma space_free_str (e : Employee) :
  space_free e → has_space (Employee_str e) = false.
Proof.
  intros (Hname & Hdep & Hjob). unfold Employee_str.
  rewrite !has_space_app, Hname, Hdep, Hjob, !has_space_str_int. done.
Qed.

(** The slots of the rendered levels are nodes of the first level. *)
Lemma levels_present_emps fuel level lvl a e b :
  (level = [] ∨ ends_present level) → (level_height level < fuel)%nat →
  lvl ∈ levels fuel level → T a e b ∈ lvl → e ∈ level_emps level.
Proof.
  intros Hlevel Hfuel Hlvl Hslot.
  rewrite <- (levels_emps fuel level Hlevel Hfuel).
  apply list_elem_of_In, in_concat. exists (present_emps lvl). split.
  - apply list_elem_of_In, list_elem_of_fmap. by exists lvl.
  - apply list_elem_of_In. unfold present_emps.
    apply list_elem_of_omap. by exists (T a e b).
Qed.

(** ** Building representations of concrete stores *)

Lemma repr_cell h p e lp rp l r fl fr :
  h !! p = Some (Node.mk e lp rp) → repr h lp l fl → repr h rp r fr →
  repr h (Some p) (T l e r) (fl ++ p :: fr).
Proof. intros Hp Hl Hr. by apply (repr_node h p (Node.mk e lp rp)). Qed.

Lemma ex_heap_repr : repr ex_heap (Some 0%nat) ex_tree [1; 0]%nat.
Proof.
  apply (repr_cell ex_heap 0 emp_bob (Some 1%nat) None
           (T Leaf emp_ann Leaf) Leaf [1%nat] []); [done| |constructor].
  apply (repr_cell ex_heap 1 emp_ann None None Leaf Leaf [] []);
    [done|constructor..].
Qed.

Lemma sum_count_non_null (parts : list (list string)) :
  sum_list (count_non_null <$> parts) = length (concat (non_null <$> parts)).
Proof.
  induction parts as [|l ls IH]; [done|].
  rewrite !fmap_cons. cbn [sum_list_with concat]. rewrite IH.
  unfold id, count_non_null. by rewrite length_app.
Qed.

(** ** The Generator *)

Lemma string_of_list_ascii_length (cs : list ascii) :
  String.length (string_of_list_ascii cs) = length cs.
Proof. induction cs as [|c cs IH]; simpl; [done|]. by rewrite IH. Qed.

Section Generator.
Context {G : Type} `{RandomLaws G}.

Lemma choice_elem {A} (d : A) (seq : list A) (g : G) :
  (0 < length seq)%nat → (choice d seq g).1 ∈ seq.
Proof.
  intros Hlen. unfold choice.
  pose proof (choice_index_lt (length seq) g Hlen) as Hi.
  destruct (choice_index (length seq) g) as [i g1]. simpl in *.
  apply list_elem_of_In, nth_In. lia.
Qed.

Lemma random_chars_spec (n : nat) :
  ∀ g : G,
  length (random_chars n g).1 = n
  ∧ Forall (λ c, c ∈ ascii_lowercase) (random_chars n g).1.
Proof.
  induction n as [|n IH]; intros g; simpl; [by split|].
  pose proof (choice_elem "a"%char ascii_lowercase g ltac:(simpl; lia)) as Hc.
  destruct (choice "a"%char ascii_lowercase g) as [c g1].
  destruct (IH g1) as [Hlen Hall].
  destruct (random_chars n g1) as [cs g2]. simpl in *.
  split; [by rewrite Hlen|by constructor].
Qed.

(** What a returned record looks like, and what happened to the set of
    used keys. *)
Lemma generate_employee_props (fuel : nat) :
  ∀ (g : G) used e used' g',
  generate_employee fuel g used = Some (e, used', g') →
  (key e ∉ used)
  ∧ used' = {[key e]} ∪ used
  ∧ department e ∈ DEPARTMENTS
  ∧ 1 ≤ id_in_department e ≤ 200
  ∧ (1 ≤ String.length (name e) ≤ 5)%nat
  ∧ Forall (λ c, c ∈ ascii_lowercase) (list_ascii_of_string (name e))
  ∧ job_title e ∈ JOB_TITLES
  ∧ 1000 ≤ salary e ≤ 5000.
Proof.
  induction fuel as [|fuel IH]; intros g used e used' g' Hrun; [done|].
  cbn [generate_employee] in Hrun.
  pose proof (randint_range 1 5 g ltac:(lia)) as Hlen.
  destruct (randint 1 5 g) as [len g1]. simpl in Hlen.
  unfold random_string in Hrun.
  destruct (random_chars_spec (Z.to_nat len) g1) as [Hcs Hlow].
  destruct (random_chars (Z.to_nat len) g1) as [cs g2]. simpl in Hcs, Hlow.
  pose proof (choice_elem ""%string DEPARTMENTS g2 ltac:(simpl; lia)) as Hdep.
  destruct (choice ""%string DEPARTMENTS g2) as [dep g3]. simpl in Hdep.
  pose proof (randint_range 1 200 g3 ltac:(lia)) as Hid.
  destruct (randint 1 200 g3) as [id g4]. simpl in Hid.
  destruct (decide ((dep, id) ∈ used)) as [Hin|Hnin]; [by eapply IH|].
  pose proof (choice_elem ""%string JOB_TITLES g4 ltac:(simpl; lia)) as Hjob.
  destruct (choice ""%string JOB_TITLES g4) as [job g5]. simpl in Hjob.
  pose proof (randint_range 1000 5000 g5 ltac:(lia)) as Hsal.
  destruct (randint 1000 5000 g5) as [sal g6]. simpl in Hsal.
  injection Hrun as <- <- <-. unfold key.
  cbn [name department id_in_department job_title salary].
  split_and!;
    rewrite ?string_of_list_ascii_length, ?list_ascii_of_string_of_list_ascii;
    try done; lia.
Qed.

End Generator.

(** *** The order of sampling *)

Section Trace.
Context {G : Type} `{RandomSource G}.

Lemma randint_traced a b (g : G) tr :
  randint (G:=Traced G) a b (g, tr)
  = ((randint a b g).1, ((randint a b g).2, tr ++ [DRandint a b])).
Proof. simpl. by destruct (randint a b g). Qed.

Lemma choice_traced {A} (d : A) (seq : list A) (g : G) tr :
  choice (G:=Traced G) d seq (g, tr)
  = ((choice d seq g).1, ((choice d seq g).2, tr ++ [DChoice (length seq)])).
Proof.
  unfold choice. simpl. by destruct (choice_index (length seq) g).
Qed.

Lemma random_chars_traced (n : nat) :
  ∀ (g : G) tr,
  random_chars (G:=Traced G) n (g, tr)
  = ((random_chars n g).1,
     ((random_chars n g).2, tr ++ replicate n (DChoice 26))).
Proof.
  induction n as [|n IH]; intros g tr.
  - simpl. by rewrite app_nil_r.
  - cbn [random_chars]. rewrite choice_traced.
    destruct (choice "a"%char ascii_lowercase g) as [c g1]. simpl fst. simpl snd.
    rewrite IH. destruct (random_chars n g1) as [cs g2]. simpl.
    by rewrite <- app_assoc.
Qed.

Lemma attempt_draws_app (tr : list Draw) (len : nat) (rest : list Draw) :
  ((((tr ++ [DRandint 1 5]) ++ replicate len (DChoice 26)) ++ [DChoice 7])
     ++ [DRandint 1 200]) ++ rest
  = tr ++ attempt_draws len ++ rest.
Proof.
  unfold attempt_draws. rewrite <- !app_assoc. simpl.
  by rewrite <- !app_assoc.
Qed.

(** A run on the logging source is the run on the source itself, and its
    log shows: in every round the name is drawn first (its length, then
    its letters), then the department and the number; the job title and
    the salary are drawn once, after the round whose key is accepted. *)
Lemma generate_employee_traced (fuel : nat) :
  ∀ (g : G) tr used e used' g' tr',
  generate_employee (G:=Traced G) fuel (g, tr) used = Some (e, used', (g', tr')) →
  generate_employee fuel g used = Some (e, used', g')
  ∧ ∃ rejected : list nat,
      tr' = tr ++ concat (attempt_draws <$> rejected)
               ++ attempt_draws (String.length (name e)) ++ commit_draws.
Proof.
  induction fuel as [|fuel IH]; intros g tr used e used' g' tr' Hrun; [done|].
  cbn [generate_employee] in Hrun |- *.
  rewrite randint_traced in Hrun.
  destruct (randint 1 5 g) as [len g1]. simpl fst in Hrun. simpl snd in Hrun.
  unfold random_string in Hrun |- *.
  rewrite random_chars_traced in Hrun.
  pose proof (eq_refl (length (random_chars (Z.to_nat len) g1).1)) as Hcs.
  destruct (random_chars (Z.to_nat len) g1) as [cs g2] eqn:Hchars.
  simpl fst in Hrun. simpl snd in Hrun.
  rewrite choice_traced in Hrun.
  destruct (choice ""%string DEPARTMENTS g2) as [dep g3].
  simpl fst in Hrun. simpl snd in Hrun.
  rewrite randint_traced in Hrun.
  destruct (randint 1 200 g3) as [id g4]. simpl fst in Hrun. simpl snd in Hrun.
  destruct (decide ((dep, id) ∈ used)) as [Hin|Hnin].
  - destruct (IH _ _ _ _ _ _ _ Hrun) as (Hplain & rejected & ->).
    split; [done|]. exists (Z.to_nat len :: rejected).
    change (length DEPARTMENTS) with 7%nat.
    rewrite attempt_draws_app, fmap_cons. cbn [concat].
    by rewrite <- !app_assoc.
  - rewrite choice_traced in Hrun.
    destruct (choice ""%string JOB_TITLES g4) as [job g5].
    simpl fst in Hrun. simpl snd in Hrun.
    rewrite randint_traced in Hrun.
    destruct (randint 1000 5000 g5) as [sal g6].
    simpl fst in Hrun. simpl snd in Hrun.
    injection Hrun as <- <- <- <-. split; [done|]. exists [].
    cbn [name]. rewrite string_of_list_ascii_length.
    assert (length cs = Z.to_nat len) as ->.
    { clear -Hchars. revert g1 cs g2 Hchars.
      induction (Z.to_nat len) as [|n IHn]; intros g1 cs g2 Hchars; simpl in *.
      - by injection Hchars as <- _.
      - destruct (choice "a"%char ascii_lowercase g1) as [c g1'].
        destruct (random_chars n g1') as [cs' g2'] eqn:E.
        injection Hchars as <- _. simpl. f_equal. by eapply IHn. }
    change (length DEPARTMENTS) with 7%nat.
    change (length JOB_TITLES) with 6%nat.
    rewrite <- (app_assoc _ [DChoice 6]), attempt_draws_app. reflexivity.
Qed.

(** Conversely, the logging source returns whenever the source itself
    does. *)
Lemma generate_employee_lift (fuel : nat) :
  ∀ (g : G) tr used e used' g',
  generate_employee fuel g used = Some (e, used', g') →
  ∃ tr',
    generate_employee (G:=Traced G) fuel (g, tr) used
      = Some (e, used', (g', tr')).
Proof.
  induction fuel as [|fuel IH]; intros g tr used e used' g' Hrun; [done|].
  cbn [generate_employee] in Hrun |- *.
  rewrite randint_traced.
  destruct (randint 1 5 g) as [len g1]. simpl fst. simpl snd.
  unfold random_string in Hrun |- *.
  rewrite random_chars_traced.
  destruct (random_chars (Z.to_nat len) g1) as [cs g2]. simpl fst. simpl snd.
  rewrite choice_traced.
  destruct (choice ""%string DEPARTMENTS g2) as [dep g3]. simpl fst. simpl snd.
  rewrite randint_traced.
  destruct (randint 1 200 g3) as [id g4]. simpl fst. simpl snd.
  destruct (decide ((dep, id) ∈ used)) as [Hin|Hnin]; [by apply IH|].
  rewrite choice_traced.
  destruct (choice ""%string JOB_TITLES g4) as [job g5]. simpl fst. simpl snd.
  rewrite randint_traced.
  destruct (randint 1000 5000 g5) as [sal g6]. simpl fst. simpl snd.
  injection Hrun as <- <- <-. by eexists.
Qed.

End Trace.

(** ** More fuel does not change a result *)

Lemma insert_node_mono fuel :
  ∀ h root e r fuel',
  insert_node fuel h root e = Some r → (fuel ≤ fuel')%nat →
  insert_node fuel' h root e = Some r.
Proof.
  induction fuel as [|fuel IH]; intros h root e r fuel' Hrun Hle; [done|].
  destruct fuel' as [|fuel']; [lia|]. simpl in Hrun |- *.
  destruct root as [p|]; [|done].
  destruct (h !! p) as [n|]; [|done]. simpl in Hrun |- *.
  destruct (key_lt (key e) (key (Node.emp n))).
  - destruct (insert_node fuel h (Node.left n) e) as [r1|] eqn:E; [|done].
    by rewrite (IH _ _ _ _ fuel' E) by lia.
  - destruct (insert_node fuel h (Node.right n) e) as [r1|] eqn:E; [|done].
    by rewrite (IH _ _ _ _ fuel' E) by lia.
Qed.

Lemma insert_all_mono fuel fuel' es :
  ∀ h root r,
  insert_all fuel h root es = Some r → (fuel ≤ fuel')%nat →
  insert_all fuel' h root es = Some r.
Proof.
  induction es as [|e es IH]; intros h root r Hrun Hle; [done|].
  simpl in Hrun |- *.
  destruct (insert_node fuel h root e) as [[h1 p]|] eqn:E; [|done].
  rewrite (insert_node_mono _ _ _ _ _ fuel' E) by done. simpl in *.
  by apply IH.
Qed.

Lemma collect_mono fuel :
  ∀ h root out r fuel',
  collect_nodes_inorder fuel h root out = Some r → (fuel ≤ fuel')%nat →
  collect_nodes_inorder fuel' h root out = Some r.
Proof.
  induction fuel as [|fuel IH]; intros h root out r fuel' Hrun Hle; [done|].
  destruct fuel' as [|fuel']; [lia|]. simpl in Hrun |- *.
  destruct root as [p|]; [|done].
  destruct (h !! p) as [n|]; [|done]. simpl in Hrun |- *.
  destruct (collect_nodes_inorder fuel h (Node.left n) out) as [out1|] eqn:E;
    [|done].
  rewrite (IH _ _ _ _ fuel' E) by lia. simpl in *. apply IH; [done|lia].
Qed.

Lemma serialize_loop_mono fuel :
  ∀ h level acc r fuel',
  serialize_loop fuel h level acc = Some r → (fuel ≤ fuel')%nat →
  serialize_loop fuel' h level acc = Some r.
Proof.
  induction fuel as [|fuel IH]; intros h level acc r fuel' Hrun Hle; [done|].
  destruct fuel' as [|fuel']; [lia|]. cbn [serialize_loop] in Hrun |- *.
  destruct level as [|p level]; [done|].
  destruct (serialize_level h (p :: level) [] []) as [[parts next]|]; [|done].
  simpl in Hrun |- *. apply IH; [done|lia].
Qed.

Section FuelGenerator.
Context {G : Type} `{RandomSource G}.

Lemma generate_employee_mono fuel :
  ∀ (g : G) used r fuel',
  generate_employee fuel g used = Some r → (fuel ≤ fuel')%nat →
  generate_employee fuel' g used = Some r.
Proof.
  induction fuel as [|fuel IH]; intros g used r fuel' Hrun Hle; [done|].
  destruct fuel' as [|fuel']; [lia|]. cbn [generate_employee] in Hrun |- *.
  destruct (randint 1 5 g) as [len g1].
  destruct (random_string g1 len) as [nm g2].
  destruct (choice ""%string DEPARTMENTS g2) as [dep g3].
  destruct (randint 1 200 g3) as [id g4].
  destruct (decide ((dep, id) ∈ used)); [|done].
  apply IH; [done|lia].
Qed.

Lemma generate_employees_mono fuel fuel' n :
  ∀ (g : G) used r,
  generate_employees fuel n g used = Some r → (fuel ≤ fuel')%nat →
  generate_employees fuel' n g used = Some r.
Proof.
  induction n as [|n IH]; intros g used r Hrun Hle; [done|].
  simpl in Hrun |- *.
  destruct (generate_employee fuel g used) as [[[e used1] g1]|] eqn:E; [|done].
  rewrite (generate_employee_mono _ _ _ _ fuel' E) by done. simpl in *.
  destruct (generate_employees fuel n g1 used1) as [[[es used2] g2]|] eqn:E2;
    [|done].
  by rewrite (IH _ _ _ E2) by done.
Qed.

End FuelGenerator.

(** ** The records of a fixture have pairwise distinct keys *)

Lemma generate_employees_keys {G : Type} `{RandomLaws G} fuel n :
  ∀ (g : G) used es used' g',
  generate_employees fuel n g used = Some (es, used', g') →
  length es = n
  ∧ NoDup (key <$> es)
  ∧ (∀ k, k ∈ key <$> es → k ∉ used).
Proof.
  induction n as [|n IH]; intros g used es used' g' Hrun; simpl in Hrun.
  - injection Hrun as <- <- <-. split_and!; [done|constructor|].
    intros k Hk. by apply elem_of_nil in Hk.
  - destruct (generate_employee fuel g used) as [[[e used1] g1]|] eqn:E;
      [|done]. simpl in Hrun.
    destruct (generate_employees fuel n g1 used1) as [[[es1 used2] g2]|] eqn:E2;
      [|done]. simpl in Hrun. injection Hrun as <- <- <-.
    destruct (generate_employee_props _ _ _ _ _ _ E) as (Hnin & -> & _).
    destruct (IH _ _ _ _ _ E2) as (Hlen & Hnd & Hfresh).
    split_and!.
    + simpl. by rewrite Hlen.
    + rewrite fmap_cons. constructor; [|done].
      intros Hin. apply (Hfresh _ Hin), elem_of_union. left.
      by apply elem_of_singleton.
    + intros k. rewrite fmap_cons. intros [->|Hk]%elem_of_cons; [done|].
      intros Hused. apply (Hfresh _ Hk), elem_of_union. by right.
Qed.

(** ** Fixtures *)

Lemma repr_single h p e :
  h !! p = Some (Node.mk e None None) → repr h (Some p) (T Leaf e Leaf) [p].
Proof.
  intros Hp.
  apply (repr_cell h p e None None Leaf Leaf [] []); [done|constructor..].
Qed.

Lemma fixture_paths_ne (dir : string) :
  dir +:+ "/input.txt" ≠ dir +:+ "/output.txt".
Proof. induction dir as [|c dir IH]; simpl; [done|]. by intros [= ?]. Qed.

(** A fixture of one record: the Corruptor has nothing to exchange, and
    the two kinds of fixture differ in the verdict only. *)
Lemma generate_testcase_single {G : Type} `{RandomLaws G} (cfg : Config)
  (fuel : nat)
  (is_valid : bool) (test_index : Z) (g : G) (emp_range : option (Z * Z))
  (h : heap) (fs : gmap string string) (e : Employee)
  (used : gset (string * Z)) (g2 : G) :
  (randint (default (EMPLOYEE_RANGE cfg) emp_range).1
           (default (EMPLOYEE_RANGE cfg) emp_range).2 g).1 = 1 →
  generate_employee fuel
    (randint (default (EMPLOYEE_RANGE cfg) emp_range).1
             (default (EMPLOYEE_RANGE cfg) emp_range).2 g).2 ∅
    = Some (e, used, g2) →
  (2 ≤ fuel)%nat →
  generate_testcase cfg fuel is_valid test_index g emp_range h fs
  = Some (h ++ [Node.mk e None None], (shuffle [e] g2).2,
          <[test_dir cfg test_index +:+ "/output.txt" :=
              (if is_valid then "true" else "false") +:+ nl]>
            (<[test_dir cfg test_index +:+ "/input.txt" := Employee_str e +:+ nl]>
               fs)).
Proof.
  intros Hnum Hgen Hfuel. unfold generate_testcase.
  destruct (randint (default (EMPLOYEE_RANGE cfg) emp_range).1
              (default (EMPLOYEE_RANGE cfg) emp_range).2 g) as [num g1].
  simpl in Hnum, Hgen. subst num. change (Z.to_nat 1) with 1%nat.
  cbn [generate_employees]. rewrite Hgen. cbn [mbind option_bind].
  unfold build_valid_bst_from_list.
  pose proof (shuffle_perm _ [e] g2) as Hperm.
  destruct (shuffle [e] g2) as [shuffled g3].
  apply Permutation_singleton_l in Hperm. simpl in Hperm. subst shuffled.
  destruct fuel as [|fuel]; [lia|]. cbn [insert_all insert_node].
  cbn [mbind option_bind new_node].
  assert (repr (h ++ [Node.mk e None None]) (Some (length h))
            (T Leaf e Leaf) [length h]) as Hrepr.
  { apply repr_single. by apply list_lookup_middle. }
  assert ((if is_valid
           then Some (h ++ [Node.mk e None None], Some (length h), g3)
           else violate_bst (S fuel) (h ++ [Node.mk e None None])
                  (Some (length h)) g3)
          = Some (h ++ [Node.mk e None None], Some (length h), g3)) as ->.
  { destruct is_valid; [done|].
    apply (violate_small _ _ _ _ _ _ Hrepr); simpl; lia. }
  cbn [mbind option_bind].
  rewrite (serialize_tree_spec _ _ _ _ _ Hrepr) by (simpl; lia).
  reflexivity.
Qed.

(** ** Two runs from the same state of the random source *)

Lemma shape_size (t1 t2 : tree) : shape_of t1 = shape_of t2 → size t1 = size t2.
Proof.
  revert t2. induction t1 as [|l1 IHl e1 r1 IHr]; intros [|l2 e2 r2] Hs;
    try done. simpl in Hs |- *. injection Hs as Hl Hr.
  by rewrite (IHl _ Hl), (IHr _ Hr).
Qed.

(** A tree is determined by its shape and its in-order sequence. *)
Lemma shape_inorder_inj (t1 t2 : tree) :
  shape_of t1 = shape_of t2 → inorder t1 = inorder t2 → t1 = t2.
Proof.
  revert t2. induction t1 as [|l1 IHl e1 r1 IHr]; intros [|l2 e2 r2] Hs Hin;
    try done. simpl in Hs, Hin. injection Hs as Hl Hr.
  apply app_inj_1 in Hin as [Hinl Hinr].
  - injection Hinr as -> Hinr. by rewrite (IHl _ Hl Hinl), (IHr _ Hr Hinr).
  - by rewrite !size_inorder, (shape_size _ _ Hl).
Qed.

Section Partial.
Context {G : Type} `{RandomLaws G} (cfg : Config).

(** Whatever the fuel and the store, a run of the Builder that returns
    has built the tree of the shuffled records. *)
Lemma build_partial fuel h employees (g : G) h' root g' :
  NoDup (key <$> employees) →
  build_valid_bst_from_list fuel h employees g = Some (h', root, g') →
  g' = (shuffle employees g).2
  ∧ ∃ fp, is_tree h' root (build_tree (shuffle employees g).1 Leaf) fp.
Proof.
  intros Hnd Hrun.
  destruct (build_spec (Nat.max fuel (length employees)) h employees g Hnd
              ltac:(lia))
    as (h2 & root2 & t & fp & Hrun2 & -> & Htree & _).
  unfold build_valid_bst_from_list in Hrun, Hrun2.
  destruct (shuffle employees g) as [shuffled g1].
  destruct (insert_all fuel h None shuffled) as [[h1 r1]|] eqn:E; [|done].
  rewrite (insert_all_mono _ (Nat.max fuel (length employees)) _ _ _ _ E)
    in Hrun2 by lia.
  simpl in Hrun, Hrun2. injection Hrun as <- <- <-.
  injection Hrun2 as <- <-. split; [done|]. by exists fp.
Qed.

(** ... and a run of the Corruptor that returns has exchanged the payloads
    at the sampled positions, or done nothing on a small tree. *)
Lemma violate_partial fuel h root t fp (g : G) h' root' g' :
  is_tree h root t fp →
  violate_bst fuel h root g = Some (h', root', g') →
  root' = root
  ∧ ∃ t', is_tree h' root t' fp
    ∧ shape_of t' = shape_of t
    ∧ (if decide (2 ≤ size t)%nat
       then inorder t' = swap_at (sample2_index (size t) g).1.1
                                 (sample2_index (size t) g).1.2 (inorder t)
            ∧ g' = (sample2_index (size t) g).2
       else inorder t' = inorder t ∧ g' = g).
Proof.
  intros Htree Hrun.
  assert (violate_bst (Nat.max fuel (S (height t))) h root g
          = Some (h', root', g')) as Hrun2.
  { unfold violate_bst in Hrun |- *.
    destruct (collect_nodes_inorder fuel h root []) as [nodes|] eqn:E; [|done].
    by rewrite (collect_mono _ _ _ _ _ (Nat.max fuel (S (height t))) E) by lia. }
  clear Hrun. destruct (decide (2 ≤ size t)%nat) as [Hsize|Hsize].
  - destruct (violate_spec (Nat.max fuel (S (height t))) h root t fp g Htree
                Hsize ltac:(lia))
      as (h2 & t' & Hspec & Htree' & Hshape & _ & _ & _ & _ & _ & _ & Hin).
    rewrite Hspec in Hrun2. injection Hrun2 as <- <- <-.
    split; [done|]. by exists t'.
  - destruct Htree as [Hrepr Hnd].
    rewrite (violate_small _ _ _ _ _ _ Hrepr) in Hrun2 by lia.
    injection Hrun2 as <- <- <-. split; [done|]. by exists t.
Qed.

Lemma serialize_partial fuel h root t fp lines :
  repr h root t fp → serialize_tree fuel h root = Some lines →
  lines = render_line <$> tree_levels t.
Proof.
  intros Hrepr Hrun.
  pose proof (serialize_tree_spec (Nat.max fuel (S (height t))) h root t fp
                Hrepr ltac:(lia)) as Hspec.
  unfold serialize_tree in Hrun, Hspec. destruct root as [p|].
  - rewrite (serialize_loop_mono _ _ _ _ _ (Nat.max fuel (S (height t))) Hrun)
      in Hspec by lia. by injection Hspec.
  - rewrite (repr_None _ _ _ Hrepr). by injection Hrun.
Qed.

(** Two runs of [generate_testcase] that start from the same state of the
    random source end in the same state and write the same two files,
    whatever their fuel, their stores and their file systems. *)
Lemma generate_testcase_det fuel1 fuel2 is_valid idx (g : G) emp_range
  h1 h2 fs1 fs2 h1' g1' fs1' h2' g2' fs2' :
  generate_testcase cfg fuel1 is_valid idx g emp_range h1 fs1
    = Some (h1', g1', fs1') →
  generate_testcase cfg fuel2 is_valid idx g emp_range h2 fs2
    = Some (h2', g2', fs2') →
  g1' = g2'
  ∧ ∃ input, fs1' = write_fixtures cfg is_valid idx [input] fs1
           ∧ fs2' = write_fixtures cfg is_valid idx [input] fs2.
Proof.
  unfold generate_testcase. intros Hrun1 Hrun2.
  destruct (randint (default (EMPLOYEE_RANGE cfg) emp_range).1
              (default (EMPLOYEE_RANGE cfg) emp_range).2 g) as [num g1].
  destruct (generate_employees fuel1 (Z.to_nat num) g1 ∅)
    as [[[es used] ga]|] eqn:Egen1; [|done].
  destruct (generate_employees fuel2 (Z.to_nat num) g1 ∅)
    as [[[es2 used2] gb]|] eqn:Egen2; [|done].
  pose proof (generate_employees_mono _ (Nat.max fuel1 fuel2) _ _ _ _ Egen1
                ltac:(lia)) as Hm1.
  pose proof (generate_employees_mono _ (Nat.max fuel1 fuel2) _ _ _ _ Egen2
                ltac:(lia)) as Hm2.
  rewrite Hm1 in Hm2. injection Hm2 as <- <- <-. clear Hm1.
  destruct (generate_employees_keys _ _ _ _ _ _ _ Egen1) as (_ & Hnd & _).
  cbn [mbind option_bind] in Hrun1, Hrun2.
  destruct (build_valid_bst_from_list fuel1 h1 es ga)
    as [[[ha roota] gc]|] eqn:Eb1; [|done].
  destruct (build_valid_bst_from_list fuel2 h2 es ga)
    as [[[hb rootb] gd]|] eqn:Eb2; [|done].
  destruct (build_partial _ _ _ _ _ _ _ Hnd Eb1) as (-> & fpa & Hta).
  destruct (build_partial _ _ _ _ _ _ _ Hnd Eb2) as (-> & fpb & Htb).
  cbn [mbind option_bind] in Hrun1, Hrun2.
  set (t := build_tree (shuffle es ga).1 Leaf) in *.
  assert (∃ t' g',
            ∀ fuel h root fp h' root' g'',
              is_tree h root t fp →
              (if is_valid then Some (h, root, (shuffle es ga).2)
               else violate_bst fuel h root (shuffle es ga).2)
              = Some (h', root', g'') →
              g'' = g' ∧ ∃ fp', repr h' root' t' fp')
    as (t' & g' & Hcorrupt).
  { destruct is_valid.
    - exists t, (shuffle es ga).2.
      intros fuel h root fp h' root' g'' [Hrepr _] [= <- <- <-].
      split; [done|]. by exists fp.
    - destruct (decide (2 ≤ size t)%nat) as [Hsize|Hsize].
      + destruct (violate_spec (S (height t)) ha roota t fpa (shuffle es ga).2
                    Hta Hsize ltac:(lia))
          as (h0 & t0 & _ & _ & Hshape0 & _ & _ & _ & _ & _ & _ & Hin0).
        exists t0, (sample2_index (size t) (shuffle es ga).2).2.
        intros fuel h root fp h' root' g'' Htree Hrun.
        destruct (violate_partial _ _ _ _ _ _ _ _ _ Htree Hrun)
          as (-> & t' & [Hrepr' _] & Hshape' & Hcase).
        rewrite decide_True in Hcase by done. destruct Hcase as [Hin' ->].
        split; [done|]. exists fp.
        assert (t' = t0) as <-; [|done].
        apply shape_inorder_inj; congruence.
      + exists t, (shuffle es ga).2.
        intros fuel h root fp h' root' g'' Htree Hrun.
        destruct (violate_partial _ _ _ _ _ _ _ _ _ Htree Hrun)
          as (-> & t' & [Hrepr' _] & Hshape' & Hcase).
        rewrite decide_False in Hcase by done. destruct Hcase as [Hin' ->].
        split; [done|]. exists fp.
        assert (t' = t) as <-; [|done].
        by apply shape_inorder_inj. }
  destruct (if is_valid then Some (ha, roota, (shuffle es ga).2)
            else violate_bst fuel1 ha roota (shuffle es ga).2)
    as [[[hc rootc] ge]|] eqn:Ec1; [|done].
  destruct (if is_valid then Some (hb, rootb, (shuffle es ga).2)
            else violate_bst fuel2 hb rootb (shuffle es ga).2)
    as [[[hd rootd] gf]|] eqn:Ec2; [|done].
  destruct (Hcorrupt _ _ _ _ _ _ _ Hta Ec1) as (-> & fpc & Hreprc).
  destruct (Hcorrupt _ _ _ _ _ _ _ Htb Ec2) as (-> & fpd & Hreprd).
  cbn [mbind option_bind] in Hrun1, Hrun2.
  destruct (serialize_tree fuel1 hc rootc) as [lines1|] eqn:Es1; [|done].
  destruct (serialize_tree fuel2 hd rootd) as [lines2|] eqn:Es2; [|done].
  rewrite (serialize_partial _ _ _ _ _ _ Hreprc Es1) in Hrun1.
  rewrite (serialize_partial _ _ _ _ _ _ Hreprd Es2) in Hrun2.
  simpl in Hrun1, Hrun2. injection Hrun1 as <- <- <-.
  injection Hrun2 as <- <- <-. split; [done|].
  by exists (file_of_lines (render_line <$> tree_levels t')).
Qed.

End Partial.

Lemma testcase_loop_det {G : Type} `{RandomLaws G} (cfg : Config) fuel1 fuel2
  is_valid num
  range :
  ∀ idx (g : G) h1 h2 fs1 fs2 idx1 g1 h1' fs1' idx2 g2 h2' fs2',
  testcase_loop cfg fuel1 is_valid num range idx g h1 fs1
    = Some (idx1, g1, h1', fs1') →
  testcase_loop cfg fuel2 is_valid num range idx g h2 fs2
    = Some (idx2, g2, h2', fs2') →
  idx1 = idx + Z.of_nat (length range) ∧ idx2 = idx1 ∧ g1 = g2
  ∧ ∃ inputs, length inputs = length range
      ∧ fs1' = write_fixtures cfg is_valid idx inputs fs1
      ∧ fs2' = write_fixtures cfg is_valid idx inputs fs2.
Proof.
  induction range as [|i range IH];
    intros idx g h1 h2 fs1 fs2 idx1 g1 h1' fs1' idx2 g2 h2' fs2' Hrun1 Hrun2.
  - simpl in Hrun1, Hrun2. injection Hrun1 as <- <- <- <-.
    injection Hrun2 as <- <- <- <-. split_and!; [simpl; lia|done..|].
    by exists [].
  - cbn [testcase_loop] in Hrun1, Hrun2.
    set (range_i := if decide (Z.of_nat i = Z.of_nat num - 1)
                    then Some (SPECIAL_RANGE cfg) else None) in *.
    destruct (generate_testcase cfg fuel1 is_valid idx g range_i h1 fs1)
      as [[[ha ga] fsa]|] eqn:E1; [|done].
    destruct (generate_testcase cfg fuel2 is_valid idx g range_i h2 fs2)
      as [[[hb gb] fsb]|] eqn:E2; [|done].
    destruct (generate_testcase_det _ _ _ _ _ _ _ _ _ _ _ _ _ _ _ _ _ E1 E2)
      as (<- & input & -> & ->).
    cbn [mbind option_bind] in Hrun1, Hrun2.
    destruct (IH _ _ _ _ _ _ _ _ _ _ _ _ _ _ Hrun1 Hrun2)
      as (-> & -> & -> & inputs & Hlen & -> & ->).
    split_and!; [simpl length; lia|done..|].
    exists (input :: inputs). split_and!; [simpl; lia|done..].
Qed.

(** The files written sit on top of the file system that was there. *)
Lemma write_fixtures_union (cfg : Config) is_valid inputs :
  ∀ idx fs,
  write_fixtures cfg is_valid idx inputs fs
  = write_fixtures cfg is_valid idx inputs ∅ ∪ fs.
Proof.
  induction inputs as [|input inputs IH]; intros idx fs; simpl.
  - by rewrite (left_id_L ∅ (∪)).
  - rewrite IH. rewrite (IH _ (<[_ := _]> (<[_ := _]> ∅))).
    rewrite <- (assoc_L (∪)). f_equal.
    by rewrite <- !insert_union_l, (left_id_L ∅ (∪)).
Qed.

(** ** The paths of the fixtures are pairwise distinct *)

Lemma str_int_inj (z1 z2 : Z) : str_int z1 = str_int z2 → z1 = z2.
Proof.
  unfold str_int. intros Heq.
  assert (∀ z, DecimalString.NilZero.int_of_string
                 (DecimalString.NilZero.string_of_int (Z.to_int z))
               = Some (Z.to_int z)) as Hisi.
  { intros z. apply DecimalString.NilZero.isi; destruct z; simpl; try done;
      intros [= Hnil]; by apply DecimalPos.Unsigned.to_uint_nonnil in Hnil. }
  pose proof (Hisi z1) as H1. rewrite Heq, Hisi in H1. injection H1 as H1.
  by rewrite <- (DecimalZ.of_to z1), <- (DecimalZ.of_to z2), H1.
Qed.

Lemma list_ascii_of_string_app (a b : string) :
  list_ascii_of_string (a +:+ b)
  = list_ascii_of_string a ++ list_ascii_of_string b.
Proof. induction a as [|c a IH]; simpl; [done|]. by rewrite IH. Qed.

Lemma string_app_inj_r (a b s : string) : a +:+ s = b +:+ s → a = b.
Proof.
  intros Heq. apply (f_equal list_ascii_of_string) in Heq.
  rewrite !list_ascii_of_string_app in Heq. apply app_inv_tail in Heq.
  by rewrite <- (string_of_list_ascii_of_string a),
             <- (string_of_list_ascii_of_string b), Heq.
Qed.

Lemma test_dir_inj (cfg : Config) (i j : Z) :
  test_dir cfg i = test_dir cfg j → i = j.
Proof.
  unfold test_dir. intros Heq.
  apply str_int_inj.
  by do 3 apply (inj (String.app _)) in Heq.
Qed.

Lemma input_path_inj (cfg : Config) (i j : Z) :
  test_dir cfg i +:+ "/input.txt" = test_dir cfg j +:+ "/input.txt" → i = j.
Proof. intros Heq%string_app_inj_r. by eapply test_dir_inj. Qed.

Lemma output_path_inj (cfg : Config) (i j : Z) :
  test_dir cfg i +:+ "/output.txt" = test_dir cfg j +:+ "/output.txt" → i = j.
Proof. intros Heq%string_app_inj_r. by eapply test_dir_inj. Qed.

Lemma input_output_path_ne (a b : string) :
  a +:+ "/input.txt" ≠ b +:+ "/output.txt".
Proof.
  intros Heq. apply (f_equal list_ascii_of_string) in Heq.
  rewrite !list_ascii_of_string_app in Heq.
  apply (f_equal (@rev ascii)) in Heq. rewrite !rev_app_distr in Heq.
  simpl in Heq. discriminate Heq.
Qed.

(** ** The files of a loop of [main] *)

Lemma write_fixtures_frame (cfg : Config) is_valid inputs :
  ∀ idx fs path,
  (∀ i, idx ≤ i < idx + Z.of_nat (length inputs) →
        path ≠ test_dir cfg i +:+ "/input.txt"
        ∧ path ≠ test_dir cfg i +:+ "/output.txt") →
  write_fixtures cfg is_valid idx inputs fs !! path = fs !! path.
Proof.
  induction inputs as [|input inputs IH]; intros idx fs path Hpath; [done|].
  cbn [write_fixtures]. rewrite IH.
  - destruct (Hpath idx ltac:(simpl; lia)) as [Hin Hout].
    by rewrite !lookup_insert_ne.
  - intros i Hi. apply Hpath. simpl. lia.
Qed.

Lemma write_fixtures_lookup (cfg : Config) is_valid inputs :
  ∀ idx fs i,
  idx ≤ i < idx + Z.of_nat (length inputs) →
  write_fixtures cfg is_valid idx inputs fs
    !! (test_dir cfg i +:+ "/input.txt")
  = inputs !! Z.to_nat (i - idx)
  ∧ is_Some (inputs !! Z.to_nat (i - idx))
  ∧ write_fixtures cfg is_valid idx inputs fs
      !! (test_dir cfg i +:+ "/output.txt")
    = Some ((if is_valid then "true" else "false") +:+ nl).
Proof.
  induction inputs as [|input inputs IH]; intros idx fs i Hi;
    [simpl in Hi; lia|].
  cbn [write_fixtures]. destruct (decide (i = idx)) as [->|Hne].
  - rewrite !write_fixtures_frame.
    + rewrite Z.sub_diag. simpl.
      rewrite lookup_insert_ne by apply not_eq_sym, input_output_path_ne.
      rewrite !lookup_insert_eq. by split_and!.
    + intros j Hj. split.
      * intros Heq. symmetry in Heq. by apply input_output_path_ne in Heq.
      * intros Heq%output_path_inj. lia.
    + intros j Hj. split.
      * intros Heq%input_path_inj. lia.
      * apply input_output_path_ne.
  - destruct (IH (idx + 1) (<[test_dir cfg idx +:+ "/output.txt" :=
                               (if is_valid then "true" else "false") +:+ nl]>
                             (<[test_dir cfg idx +:+ "/input.txt" := input]> fs))
                i ltac:(simpl in Hi; lia)) as (Hin & Hsome & Hout).
    replace (Z.to_nat (i - idx)) with (S (Z.to_nat (i - (idx + 1)))) by lia.
    by split_and!.
Qed.

(** ** Every corrupted fixture is out of order *)

Section Corruption.
Context {G : Type} `{RandomLaws G}.

Lemma violate_inversion fuel h root t fp (g : G) :
  is_tree h root t fp → bst t → (2 ≤ size t)%nat → (height t < fuel)%nat →
  ∃ h' t',
    violate_bst fuel h root g = Some (h', root, (sample2_index (size t) g).2)
    ∧ is_tree h' root t' fp
    ∧ shape_of t' = shape_of t
    ∧ length h' = length h
    ∧ (∀ q, Node.left <$> h' !! q = Node.left <$> h !! q
            ∧ Node.right <$> h' !! q = Node.right <$> h !! q)
    ∧ inorder t' ≡ₚ inorder t
    ∧ has_inversion (inorder t').
Proof.
  intros Htree Hbst Hsize Hfuel.
  destruct (violate_spec fuel h root t fp g Htree Hsize Hfuel)
    as (h' & t' & Hrun & Htree' & Hshape & Hlen & Hedges & _
        & Hij & Hi & Hj & Hin).
  exists h', t'. split_and!; try done.
  - by rewrite Hin, swap_at_perm.
  - rewrite Hin. apply swap_at_inversion; rewrite ?size_inorder; try done.
    by apply bst_sorted.
Qed.

(** The trees that the program passes to the Corruptor are those of the
    Builder: with two records or more the corrupted tree is out of
    order. *)
Lemma builder_then_corruptor fuel h employees (g : G) :
  NoDup (key <$> employees) → (2 ≤ length employees)%nat →
  (length employees < fuel)%nat →
  ∃ h1 root g1 h2 g2 t t' fp,
    build_valid_bst_from_list fuel h employees g = Some (h1, root, g1)
    ∧ violate_bst fuel h1 root g1 = Some (h2, root, g2)
    ∧ is_tree h1 root t fp
    ∧ is_tree h2 root t' fp
    ∧ shape_of t' = shape_of t
    ∧ key <$> inorder t' ≡ₚ key <$> employees
    ∧ has_inversion (inorder t')
    ∧ ¬ bst t'.
Proof.
  intros Hnd Hlen Hfuel.
  destruct (build_spec fuel h employees g Hnd ltac:(lia))
    as (h1 & root & t & fp & Hbuild & _ & Htree & Hbst & Hperm & Hsize & _).
  pose proof (height_le_size t) as Hh.
  destruct (violate_inversion fuel h1 root t fp (shuffle employees g).2 Htree
              Hbst ltac:(lia) ltac:(lia))
    as (h2 & t' & Hrun & Htree' & Hshape & _ & _ & Hperm' & Hinv).
  exists h1, root, (shuffle employees g).2, h2,
    (sample2_index (size t) (shuffle employees g).2).2, t, t', fp.
  split_and!; try done.
  - by rewrite Hperm', Hperm.
  - intros Hb. apply bst_sorted in Hb.
    by apply (inversion_not_sorted _ Hinv), StronglySorted_Sorted.
Qed.

End Corruption.

(** ** Lines and their words *)

(** When no record has a space in its fields, splitting a rendered line
    at the spaces gives back its tokens. *)
Lemma tree_levels_split (t : tree) :
  Forall space_free (inorder t) →
  Forall (λ lvl, split_spaces (render_line lvl) = render <$> lvl)
    (tree_levels t).
Proof.
  intros Hfree. destruct t as [|a0 e0 b0]; [constructor|].
  unfold tree_levels.
  assert ([T a0 e0 b0] = [] ∨ ends_present [T a0 e0 b0]) as Hlevel.
  { right. by exists [], a0, e0, b0. }
  assert (level_height [T a0 e0 b0] < S (height (T a0 e0 b0)))%nat as Hfuel.
  { unfold level_height. simpl. lia. }
  destruct (levels_props _ _ Hlevel Hfuel) as (Hends & _).
  apply Forall_forall. intros lvl Hlvl.
  rewrite Forall_forall in Hends. rewrite Forall_forall in Hfree.
  unfold render_line. apply split_spaces_concat.
  - destruct (Hends _ Hlvl) as (init & a & e & b & ->).
    rewrite fmap_app. by intros [? ?]%app_eq_nil.
  - apply Forall_fmap, Forall_forall. intros [|a e b] Hslot; [done|].
    simpl. apply space_free_str, Hfree.
    pose proof (levels_present_emps _ _ _ _ _ _ Hlevel Hfuel Hlvl Hslot) as He.
    unfold level_emps in He. simpl in He. by rewrite app_nil_r in He.
Qed.

(** The records of the Generator have no space in their fields. *)
Lemma generate_employee_space_free {G : Type} `{RandomLaws G} fuel (g : G)
  used e used' g' :
  generate_employee fuel g used = Some (e, used', g') → space_free e.
Proof.
  intros Hrun.
  destruct (generate_employee_props _ _ _ _ _ _ Hrun)
    as (_ & _ & Hdep & _ & _ & Hname & Hjob & _).
  split_and!.
  - destruct (name e) as [|c nm] eqn:E; [done|]. clear E.
    revert Hname. generalize (String c nm). clear.
    induction s as [|c s IH]; simpl; [done|].
    intros [Hc Hs]%Forall_cons. rewrite (IH Hs), orb_false_r.
    revert Hc. generalize c. apply Forall_forall.
    unfold ascii_lowercase. simpl. repeat constructor.
  - revert Hdep. generalize (department e). apply Forall_forall.
    unfold DEPARTMENTS. repeat constructor.
  - revert Hjob. generalize (job_title e). apply Forall_forall.
    unfold JOB_TITLES. repeat constructor.
Qed.

(** * The claims *)

(** C1. For every list of records with pairwise distinct keys, the tree
    that the Builder returns is a proper tree in the store whose in-order
    sequence of keys is strictly increasing and which satisfies the strict
    BST invariant node by node; this holds for the order chosen by any
    random source and, more generally, for every insertion order that is a
    permutation of the records. Fuel of at least the number of records is
    enough for the Builder to return. *)
Theorem builder_bst_invariant {G : Type} `{RandomLaws G}
  (fuel : nat) (h : heap) (employees : list Employee) (g : G) :
  NoDup (key <$> employees) → (length employees ≤ fuel)%nat →
  (∃ h' root g' t fp,
      build_valid_bst_from_list fuel h employees g = Some (h', root, g')
      ∧ is_tree h' root t fp
      ∧ inorder t ≡ₚ employees
      ∧ StronglySorted (λ k1 k2, key_lt k1 k2 = true) (key <$> inorder t)
      ∧ bst t)
  ∧ (∀ order, order ≡ₚ employees →
      ∃ h' root t fp,
        insert_all fuel h None order = Some (h', root)
        ∧ is_tree h' root t fp
        ∧ inorder t ≡ₚ employees
        ∧ StronglySorted (λ k1 k2, key_lt k1 k2 = true) (key <$> inorder t)
        ∧ bst t).
Proof.
  intros Hnd Hfuel. split.
  - destruct (build_spec fuel h employees g Hnd Hfuel)
      as (h' & root & t & fp & Hrun & _ & Htree & Hbst & Hperm & _).
    exists h', root, (shuffle employees g).2, t, fp. split_and!; try done.
    apply (StronglySorted_fmap _ klt); [done|]. by apply bst_sorted.
  - intros order Hperm.
    destruct (insert_all_fresh fuel h order)
      as (h' & root & fp & Hrun & Htree & Hbst & _).
    { by rewrite Hperm. }
    { by rewrite Hperm. }
    exists h', root, (build_tree order Leaf), fp. split_and!; try done.
    + by rewrite build_tree_inorder.
    + apply (StronglySorted_fmap _ klt); [done|]. by apply bst_sorted.
Qed.

Lemma builder_bst_invariant_witness :
  ∃ h' root g' t fp,
    build_valid_bst_from_list 3 [] [emp_ann; emp_bob; emp_cy] (mkLcg [] 1)
      = Some (h', root, g')
    ∧ is_tree h' root t fp
    ∧ inorder t ≡ₚ [emp_ann; emp_bob; emp_cy]
    ∧ StronglySorted (λ k1 k2, key_lt k1 k2 = true) (key <$> inorder t)
    ∧ bst t.
Proof.
  apply (builder_bst_invariant 3 [] [emp_ann; emp_bob; emp_cy] (mkLcg [] 1)).
  - refine (bool_decide_unpack _ _). vm_compute. exact I.
  - simpl. lia.
Defined.

(** C4. For every list of N records with pairwise distinct keys, the
    Builder creates exactly N node objects, and the tree it returns has
    exactly N nodes, all distinct; the nodes of the tree are exactly the
    objects reachable from the root, and each of them is reachable along
    one path only (no sharing, no cycle). *)
Theorem builder_node_count {G : Type} `{RandomLaws G}
  (fuel : nat) (h : heap) (employees : list Employee) (g : G) :
  NoDup (key <$> employees) → (length employees ≤ fuel)%nat →
  ∃ h' root g' t fp,
    build_valid_bst_from_list fuel h employees g = Some (h', root, g')
    ∧ repr h' root t fp
    ∧ size t = length employees
    ∧ length fp = length employees
    ∧ length h' = (length h + length employees)%nat
    ∧ NoDup fp
    ∧ (∀ q, q ∈ fp ↔ ∃ path, reach h' root path q)
    ∧ (∀ path1 path2 q,
         reach h' root path1 q → reach h' root path2 q → path1 = path2).
Proof.
  intros Hnd Hfuel.
  destruct (build_spec fuel h employees g Hnd Hfuel)
    as (h' & root & t & fp & Hrun & _ & [Hrepr Hndfp] & _ & _ & Hsize & Hlen & _).
  exists h', root, (shuffle employees g).2, t, fp. split_and!; try done.
  - by rewrite (repr_length _ _ _ _ Hrepr).
  - intros q. split.
    + by eapply footprint_reach.
    + intros [path Hpath]. by eapply reach_footprint.
  - by eapply reach_unique.
Qed.

Lemma builder_node_count_witness :
  ∃ h' root g' t fp,
    build_valid_bst_from_list 3 [] [emp_ann; emp_bob; emp_cy] (mkLcg [] 1)
      = Some (h', root, g')
    ∧ repr h' root t fp
    ∧ size t = 3%nat
    ∧ length fp = 3%nat
    ∧ length h' = 3%nat
    ∧ NoDup fp
    ∧ (∀ q, q ∈ fp ↔ ∃ path, reach h' root path q)
    ∧ (∀ path1 path2 q,
         reach h' root path1 q → reach h' root path2 q → path1 = path2).
Proof.
  apply (builder_node_count 3 [] [emp_ann; emp_bob; emp_cy] (mkLcg [] 1)).
  - refine (bool_decide_unpack _ _). vm_compute. exact I.
  - simpl. lia.
Defined.

(** C2. For every tree in the store with at least two nodes that meets
    the ordering of the data model and has pairwise distinct keys, the
    Corruptor returns; afterwards the same node objects form a tree of the
    same shape with the same left and right references, the keys are the
    same multiset, and the in-order sequence of keys is not strictly
    increasing: it has an inversion, and the strict BST invariant fails. *)
Theorem corruptor_breaks_order {G : Type} `{RandomLaws G}
  (fuel : nat) (h : heap) (root : option loc) (t : tree) (fp : list loc)
  (g : G) :
  is_tree h root t fp → ordered t → NoDup (key <$> inorder t) →
  (2 ≤ size t)%nat → (height t < fuel)%nat →
  ∃ h' g' t',
    violate_bst fuel h root g = Some (h', root, g')
    ∧ is_tree h' root t' fp
    ∧ shape_of t' = shape_of t
    ∧ length h' = length h
    ∧ (∀ q, Node.left <$> h' !! q = Node.left <$> h !! q
            ∧ Node.right <$> h' !! q = Node.right <$> h !! q)
    ∧ key <$> inorder t' ≡ₚ key <$> inorder t
    ∧ has_inversion (inorder t')
    ∧ ¬ StronglySorted (λ k1 k2, key_lt k1 k2 = true) (key <$> inorder t')
    ∧ ¬ bst t'.
Proof.
  intros Htree Hord Hkeys Hsize Hfuel.
  destruct (violate_inversion fuel h root t fp g Htree
              (ordered_bst t Hkeys Hord) Hsize Hfuel)
    as (h' & t' & Hrun & Htree' & Hshape & Hlen & Hedges & Hperm & Hinv).
  exists h', (sample2_index (size t) g).2, t'. split_and!; try done.
  - by rewrite Hperm.
  - intros Hs. apply StronglySorted_of_fmap in Hs.
    by apply (inversion_not_sorted _ Hinv), StronglySorted_Sorted.
  - intros Hb. apply bst_sorted in Hb.
    by apply (inversion_not_sorted _ Hinv), StronglySorted_Sorted.
Qed.

Lemma corruptor_breaks_order_witness :
  ∃ h' g' t',
    violate_bst 3 ex_heap (Some 0%nat) (mkLcg [] 1) = Some (h', Some 0%nat, g')
    ∧ is_tree h' (Some 0%nat) t' [1; 0]%nat
    ∧ shape_of t' = shape_of ex_tree
    ∧ length h' = length ex_heap
    ∧ (∀ q, Node.left <$> h' !! q = Node.left <$> ex_heap !! q
            ∧ Node.right <$> h' !! q = Node.right <$> ex_heap !! q)
    ∧ key <$> inorder t' ≡ₚ key <$> inorder ex_tree
    ∧ has_inversion (inorder t')
    ∧ ¬ StronglySorted (λ k1 k2, key_lt k1 k2 = true) (key <$> inorder t')
    ∧ ¬ bst t'.
Proof.
  apply (corruptor_breaks_order 3 ex_heap (Some 0%nat) ex_tree [1; 0]%nat
           (mkLcg [] 1)).
  - split; [exact ex_heap_repr|]. refine (bool_decide_unpack _ _).
    vm_compute. exact I.
  - simpl. repeat split; repeat constructor.
  - refine (bool_decide_unpack _ _). vm_compute. exact I.
  - simpl. lia.
  - simpl. lia.
Defined.

(** C6. On a tree with no node or one node the Corruptor is the identity:
    it returns the same root, the store is unchanged (so are all nodes,
    payloads and edges) and the random source is not consulted. *)
Theorem corruptor_small_identity {G : Type} `{RandomSource G}
  (fuel : nat) (h : heap) (root : option loc) (t : tree) (fp : list loc)
  (g : G) :
  repr h root t fp → (size t ≤ 1)%nat → (height t < fuel)%nat →
  violate_bst fuel h root g = Some (h, root, g).
Proof.
  intros Hrepr Hsize Hfuel. unfold violate_bst.
  rewrite (collect_repr _ _ _ _ Hrepr) by done. simpl.
  rewrite (repr_length _ _ _ _ Hrepr).
  destruct (decide (2 ≤ size t)%nat) as [Hle|_]; [lia|reflexivity].
Qed.

Lemma corruptor_small_identity_witness :
  violate_bst 2 [Node.mk emp_ann None None] (Some 0%nat) (mkLcg [] 1)
  = Some ([Node.mk emp_ann None None], Some 0%nat, mkLcg [] 1).
Proof.
  apply (corruptor_small_identity 2 [Node.mk emp_ann None None] (Some 0%nat)
           (T Leaf emp_ann Leaf) [0%nat] (mkLcg [] 1)).
  - apply (repr_cell _ 0 emp_ann None None Leaf Leaf [] []);
      [reflexivity|constructor..].
  - simpl. lia.
  - simpl. lia.
Defined.

(** C3. For every nonempty tree the Serializer returns, with one line per
    level of the tree: the first line is the root; every line ends with a
    present node (no [null] is left at its end) and so has an entry other
    than [null]; the next line is the list of the child slots of the
    present nodes, in order, without the absent slots at its end only (an
    absent slot before a present one is kept); after the first level whose
    child slots are all absent, no line follows. *)
Theorem serializer_levels (fuel : nat) (h : heap) (p : loc) (t : tree)
  (fp : list loc) :
  repr h (Some p) t fp → (height t < fuel)%nat →
  ∃ lvls : list (list tree),
    serialize_tree fuel h (Some p) = Some (render_line <$> lvls)
    ∧ lvls !! 0%nat = Some [t]
    ∧ length lvls = height t
    ∧ ∀ k lvl, lvls !! k = Some lvl →
        ends_present lvl
        ∧ any_not_null (render <$> lvl) = true
        ∧ ∃ n, child_slots lvl
               = default [] (lvls !! S k) ++ replicate n Leaf.
Proof.
  intros Hrepr Hfuel. exists (tree_levels t).
  split; [by eapply serialize_tree_spec|].
  pose proof (repr_Some _ _ _ _ Hrepr) as Hp.
  destruct t as [|a e b]; [done|]. unfold tree_levels.
  assert (ends_present [T a e b]) as Hends by by exists [], a, e, b.
  assert (level_height [T a e b] = height (T a e b)) as Hh.
  { unfold level_height. simpl. lia. }
  destruct (levels_props (S (height (T a e b))) [T a e b])
    as (Hall & Hlen & Hstep & _); [by right|lia|].
  split_and!.
  - done.
  - by rewrite Hlen.
  - intros k lvl Hk. rewrite Forall_forall in Hall.
    assert (ends_present lvl) as Hlvl.
    { apply Hall. by eapply list_elem_of_lookup_2. }
    split_and!; [done| |by apply Hstep].
    rewrite any_not_null_render. by apply ends_present_exists.
Qed.

Lemma serializer_levels_witness :
  ∃ lvls : list (list tree),
    serialize_tree 3 ex_heap (Some 0%nat) = Some (render_line <$> lvls)
    ∧ lvls !! 0%nat = Some [ex_tree]
    ∧ length lvls = height ex_tree
    ∧ ∀ k lvl, lvls !! k = Some lvl →
        ends_present lvl
        ∧ any_not_null (render <$> lvl) = true
        ∧ ∃ n, child_slots lvl
               = default [] (lvls !! S k) ++ replicate n Leaf.
Proof.
  apply (serializer_levels 3 ex_heap 0 ex_tree [1; 0]%nat).
  - exact ex_heap_repr.
  - simpl. lia.
Defined.

(** C10. For every tree, empty or not, the Serializer returns lines of
    space-joined tokens in which the tokens other than [null] are, up to
    order, the record lines of the nodes of the tree, each node once; so
    their number is the number of nodes. A token is [null] exactly when
    its slot is absent. When no record has a space in its fields (as the
    records of the Generator), the tokens are the words that splitting
    the lines at the spaces gives back. *)
Theorem serializer_token_count (fuel : nat) (h : heap) (root : option loc)
  (t : tree) (fp : list loc) :
  repr h root t fp → (height t < fuel)%nat →
  ∃ parts : list (list string),
    serialize_tree fuel h root = Some (String.concat " " <$> parts)
    ∧ parts = (λ lvl : list tree, render <$> lvl) <$> tree_levels t
    ∧ concat (non_null <$> parts) ≡ₚ Employee_str <$> inorder t
    ∧ sum_list (count_non_null <$> parts) = size t
    ∧ (∀ slot, render slot = "null"%string ↔ slot = Leaf)
    ∧ (Forall space_free (inorder t) →
       split_spaces <$> (String.concat " " <$> parts) = parts).
Proof.
  intros Hrepr Hfuel.
  exists ((λ lvl : list tree, render <$> lvl) <$> tree_levels t).
  assert (concat (non_null <$> ((λ lvl : list tree, render <$> lvl) <$> tree_levels t))
          = Employee_str <$> concat (present_emps <$> tree_levels t)) as Hcat.
  { induction (tree_levels t) as [|lvl lvls IH]; [done|].
    rewrite !fmap_cons. cbn [concat]. rewrite IH, non_null_render.
    by rewrite fmap_app. }
  assert (concat (present_emps <$> tree_levels t) ≡ₚ inorder t) as Hperm.
  { destruct t as [|a e b]; [done|]. unfold tree_levels.
    rewrite levels_emps.
    - unfold level_emps. simpl. by rewrite app_nil_r.
    - right. by exists [], a, e, b.
    - unfold level_height. simpl. lia. }
  split_and!.
  - rewrite (serialize_tree_spec _ _ _ _ _ Hrepr Hfuel). f_equal.
    rewrite <- list_fmap_compose. done.
  - done.
  - by rewrite Hcat, Hperm.
  - rewrite <- size_inorder, <- Hperm.
    rewrite <- (length_fmap Employee_str), <- Hcat.
    apply sum_count_non_null.
  - intros [|a e b]; simpl; [done|]. split; [|done].
    intros Heq. pose proof (Employee_str_not_null e) as Hn.
    rewrite Heq in Hn. done.
  - intros Hfree. rewrite <- !list_fmap_compose.
    apply Forall_fmap_ext, (tree_levels_split t Hfree).
Qed.

Lemma serializer_token_count_witness :
  ∃ parts : list (list string),
    serialize_tree 3 ex_heap (Some 0%nat) = Some (String.concat " " <$> parts)
    ∧ parts = (λ lvl : list tree, render <$> lvl) <$> tree_levels ex_tree
    ∧ concat (non_null <$> parts) ≡ₚ Employee_str <$> inorder ex_tree
    ∧ sum_list (count_non_null <$> parts) = size ex_tree
    ∧ (∀ slot, render slot = "null"%string ↔ slot = Leaf)
    ∧ (Forall space_free (inorder ex_tree) →
       split_spaces <$> (String.concat " " <$> parts) = parts).
Proof.
  apply (serializer_token_count 3 ex_heap (Some 0%nat) ex_tree [1; 0]%nat).
  - exact ex_heap_repr.
  - simpl. lia.
Defined.

(** C9. Two records with keys ("HR", 1) and ("HR", 2), inserted in the
    order [("HR", 2); ("HR", 1)] into an empty store: the root holds the
    record with key ("HR", 2) and its left child the record with key
    ("HR", 1); the serialization is two lines, the record line of the root
    and then that of the left child; the Corruptor, with any random source,
    exchanges the two payloads, and the in-order sequence of keys becomes
    ("HR", 2), ("HR", 1), which is decreasing. *)
Theorem example_two_records {G : Type} `{RandomLaws G} (fuel : nat) (g : G)
  (name1 job1 name2 job2 : string) (salary1 salary2 : Z) :
  let r1 := mkEmployee name1 "HR" 1 job1 salary1 in
  let r2 := mkEmployee name2 "HR" 2 job2 salary2 in
  let h1 := [Node.mk r2 (Some 1%nat) None; Node.mk r1 None None] in
  (3 ≤ fuel)%nat →
  insert_all fuel [] None [r2; r1] = Some (h1, Some 0%nat)
  ∧ is_tree h1 (Some 0%nat) (T (T Leaf r1 Leaf) r2 Leaf) [1; 0]%nat
  ∧ serialize_tree fuel h1 (Some 0%nat)
    = Some [Employee_str r2; Employee_str r1]
  ∧ ∃ h2 g',
      violate_bst fuel h1 (Some 0%nat) g = Some (h2, Some 0%nat, g')
      ∧ is_tree h2 (Some 0%nat) (T (T Leaf r2 Leaf) r1 Leaf) [1; 0]%nat
      ∧ key <$> inorder (T (T Leaf r2 Leaf) r1 Leaf)
        = [("HR"%string, 2); ("HR"%string, 1)]
      ∧ key_lt ("HR"%string, 1) ("HR"%string, 2) = true.
Proof.
  intros r1 r2 h1 Hfuel.
  assert (repr h1 (Some 0%nat) (T (T Leaf r1 Leaf) r2 Leaf) [1; 0]%nat)
    as Hrepr.
  { apply (repr_cell h1 0 r2 (Some 1%nat) None (T Leaf r1 Leaf) Leaf
             [1%nat] []); [done| |constructor].
    apply (repr_cell h1 1 r1 None None Leaf Leaf [] []);
      [done|constructor..]. }
  assert (NoDup [1; 0]%nat) as Hnd.
  { refine (bool_decide_unpack _ _). vm_compute. exact I. }
  split_and!.
  - destruct fuel as [|[|fuel]]; [lia..|]. reflexivity.
  - done.
  - rewrite (serialize_tree_spec _ _ _ _ _ Hrepr) by (simpl; lia).
    reflexivity.
  - destruct (violate_spec fuel h1 (Some 0%nat) _ _ g (conj Hrepr Hnd))
      as (h2 & t' & Hrun & Htree' & Hshape & _ & _ & _ & Hij & Hi & Hj & Hin);
      [simpl; lia..|].
    exists h2, (sample2_index 2 g).2. split_and!; try done.
    assert (t' = T (T Leaf r2 Leaf) r1 Leaf) as <-; [|done].
    simpl size in Hij, Hi, Hj, Hin.
    destruct (sample2_index 2 g) as [[i j] g']. simpl in Hij, Hi, Hj, Hin.
    destruct t' as [|[|[|] x [|]] y [|]]; try done.
    assert (i = 0%nat ∧ j = 1%nat ∨ i = 1%nat ∧ j = 0%nat) as [[-> ->]|[-> ->]]
      by lia; simpl in Hin; by injection Hin as -> ->.
Qed.

Lemma example_two_records_witness :
  insert_all 3 [] None [emp_bob; emp_ann] = Some (ex_heap, Some 0%nat)
  ∧ is_tree ex_heap (Some 0%nat) ex_tree [1; 0]%nat
  ∧ serialize_tree 3 ex_heap (Some 0%nat)
    = Some [Employee_str emp_bob; Employee_str emp_ann]
  ∧ ∃ h2 g',
      violate_bst 3 ex_heap (Some 0%nat) (mkLcg [] 1) = Some (h2, Some 0%nat, g')
      ∧ is_tree h2 (Some 0%nat) (T (T Leaf emp_bob Leaf) emp_ann Leaf) [1; 0]%nat
      ∧ key <$> inorder (T (T Leaf emp_bob Leaf) emp_ann Leaf)
        = [("HR"%string, 2); ("HR"%string, 1)]
      ∧ key_lt ("HR"%string, 1) ("HR"%string, 2) = true.
Proof.
  apply (example_two_records 3 (mkLcg [] 1) "ann" "Junior" "bob" "Senior"
           1000 2000).
  lia.
Defined.

(** C5, as amended. Whenever the Generator returns, the key of the
    returned record was not in [used_keys] and has been added to it; the
    department is one of the seven, the number is in [1, 200], the name is
    a string of 1 to 5 lowercase letters, the job title is one of the six,
    the salary is in [1000, 5000]. The order of sampling, as the log of
    the same run on the logging source shows it, is: in every round of the
    loop the name is drawn first (its length, then its letters), then the
    department and the number; the job title and the salary are drawn
    after a round has found an unused key, which is committed before they
    are drawn. *)
Theorem generator_contract {G : Type} `{RandomLaws G} (fuel : nat) (g : G)
  (used : gset (string * Z)) (e : Employee) (used' : gset (string * Z))
  (g' : G) :
  generate_employee fuel g used = Some (e, used', g') →
  (key e ∉ used)
  ∧ used' = {[key e]} ∪ used
  ∧ department e ∈ DEPARTMENTS
  ∧ 1 ≤ id_in_department e ≤ 200
  ∧ (1 ≤ String.length (name e) ≤ 5)%nat
  ∧ Forall (λ c, c ∈ ascii_lowercase) (list_ascii_of_string (name e))
  ∧ job_title e ∈ JOB_TITLES
  ∧ 1000 ≤ salary e ≤ 5000
  ∧ ∀ tr : list Draw, ∃ rejected : list nat,
      generate_employee (G:=Traced G) fuel (g, tr) used
      = Some (e, used',
              (g', tr ++ concat (attempt_draws <$> rejected)
                      ++ attempt_draws (String.length (name e))
                      ++ commit_draws)).
Proof.
  intros Hrun.
  destruct (generate_employee_props _ _ _ _ _ _ Hrun)
    as (? & ? & ? & ? & ? & ? & ? & ?).
  split_and!; try (done || lia).
  intros tr. destruct (generate_employee_lift _ _ tr _ _ _ _ Hrun) as [tr' Htr].
  destruct (generate_employee_traced _ _ _ _ _ _ _ _ Htr)
    as (_ & rejected & ->).
  by exists rejected.
Qed.

Lemma generator_contract_witness :
  let e := mkEmployee "gase" "Sales" 99 "Midlevel" 1041 in
  (key e ∉ ex_used)
  ∧ {[key e]} ∪ ex_used = {[key e]} ∪ ex_used
  ∧ department e ∈ DEPARTMENTS
  ∧ 1 ≤ id_in_department e ≤ 200
  ∧ (1 ≤ String.length (name e) ≤ 5)%nat
  ∧ Forall (λ c, c ∈ ascii_lowercase) (list_ascii_of_string (name e))
  ∧ job_title e ∈ JOB_TITLES
  ∧ 1000 ≤ salary e ≤ 5000
  ∧ ∀ tr : list Draw, ∃ rejected : list nat,
      generate_employee (G:=Traced Lcg) 3 (ex_rng, tr) ex_used
      = Some (e, {[key e]} ∪ ex_used,
              (mkLcg [] 1051550459,
               tr ++ concat (attempt_draws <$> rejected)
                  ++ attempt_draws (String.length (name e))
                  ++ commit_draws)).
Proof.
  intros e.
  apply (generator_contract 3 ex_rng ex_used e ({[key e]} ∪ ex_used)
           (mkLcg [] 1051550459)).
  vm_compute. reflexivity.
Defined.

(** C5, as stated, fails: on the source [ex_rng], with the key ("HR", 5)
    in use, the Generator draws the length and the letters of a name
    before each of its two candidate keys, so the draws are not in the
    order "keys until one is unused, then name, job title and salary". *)
Lemma generator_order_counterexample :
  run_draws (generate_employee (G:=Traced Lcg) 3 (ex_rng, []) ex_used)
  = Some [DRandint 1 5; DChoice 26; DChoice 26; DChoice 26; DChoice 7;
          DRandint 1 200;
          DRandint 1 5; DChoice 26; DChoice 26; DChoice 26; DChoice 26;
          DChoice 7; DRandint 1 200;
          DChoice 6; DRandint 1000 5000]
  ∧ ¬ key_first_order
        [DRandint 1 5; DChoice 26; DChoice 26; DChoice 26; DChoice 7;
         DRandint 1 200;
         DRandint 1 5; DChoice 26; DChoice 26; DChoice 26; DChoice 26;
         DChoice 7; DRandint 1 200;
         DChoice 6; DRandint 1000 5000].
Proof.
  split; [by vm_compute|].
  intros (retries & len & Heq). by destruct retries.
Qed.

(** C7. A fixture of exactly one record that is marked invalid: the
    Corruptor changes nothing, the store holds the single node as the
    Builder left it, [input.txt] is the one record line, exactly as in the
    fixture marked valid from the same state, the tree is a valid BST, and
    [output.txt] is the single line [false]. *)
Theorem single_record_invalid_fixture {G : Type} `{RandomLaws G}
  (cfg : Config) (fuel : nat)
  (test_index : Z) (g : G) (emp_range : option (Z * Z))
  (h : heap) (fs : gmap string string) (e : Employee)
  (used : gset (string * Z)) (g2 : G) :
  (randint (default (EMPLOYEE_RANGE cfg) emp_range).1
           (default (EMPLOYEE_RANGE cfg) emp_range).2 g).1 = 1 →
  generate_employee fuel
    (randint (default (EMPLOYEE_RANGE cfg) emp_range).1
             (default (EMPLOYEE_RANGE cfg) emp_range).2 g).2 ∅
    = Some (e, used, g2) →
  (2 ≤ fuel)%nat →
  ∃ h' g' fs' fs_valid,
    generate_testcase cfg fuel false test_index g emp_range h fs
      = Some (h', g', fs')
    ∧ generate_testcase cfg fuel true test_index g emp_range h fs
      = Some (h', g', fs_valid)
    ∧ h' = h ++ [Node.mk e None None]
    ∧ is_tree h' (Some (length h)) (T Leaf e Leaf) [length h]
    ∧ bst (T Leaf e Leaf)
    ∧ fs' !! (test_dir cfg test_index +:+ "/input.txt")
      = Some (Employee_str e +:+ nl)
    ∧ fs_valid !! (test_dir cfg test_index +:+ "/input.txt")
      = Some (Employee_str e +:+ nl)
    ∧ fs' !! (test_dir cfg test_index +:+ "/output.txt") = Some ("false" +:+ nl)
    ∧ fs_valid !! (test_dir cfg test_index +:+ "/output.txt")
      = Some ("true" +:+ nl).
Proof.
  intros Hnum Hgen Hfuel.
  pose proof (generate_testcase_single cfg fuel false test_index g emp_range h fs
                e used g2 Hnum Hgen Hfuel) as Hinvalid.
  pose proof (generate_testcase_single cfg fuel true test_index g emp_range h fs
                e used g2 Hnum Hgen Hfuel) as Hvalid.
  eexists _, _, _, _. split; [exact Hinvalid|]. split; [exact Hvalid|].
  pose proof (fixture_paths_ne (test_dir cfg test_index)) as Hne.
  split_and!.
  - done.
  - split.
    + apply repr_single. by apply list_lookup_middle.
    + apply NoDup_singleton.
  - simpl. repeat split; constructor.
  - rewrite lookup_insert_ne by done. by rewrite lookup_insert_eq.
  - rewrite lookup_insert_ne by done. by rewrite lookup_insert_eq.
  - by rewrite lookup_insert_eq.
  - by rewrite lookup_insert_eq.
Qed.

Lemma single_record_invalid_fixture_witness :
  let e := mkEmployee "b" "Engineering" 1 "Executive" 1003 in
  ∃ h' g' fs' fs_valid,
    generate_testcase default_config 2 false 9 ex_rng (Some (1, 1)) [] ∅ = Some (h', g', fs')
    ∧ generate_testcase default_config 2 true 9 ex_rng (Some (1, 1)) [] ∅
      = Some (h', g', fs_valid)
    ∧ h' = [] ++ [Node.mk e None None]
    ∧ is_tree h' (Some (length (@nil Node.t))) (T Leaf e Leaf)
        [length (@nil Node.t)]
    ∧ bst (T Leaf e Leaf)
    ∧ fs' !! (test_dir default_config 9 +:+ "/input.txt") = Some (Employee_str e +:+ nl)
    ∧ fs_valid !! (test_dir default_config 9 +:+ "/input.txt") = Some (Employee_str e +:+ nl)
    ∧ fs' !! (test_dir default_config 9 +:+ "/output.txt") = Some ("false" +:+ nl)
    ∧ fs_valid !! (test_dir default_config 9 +:+ "/output.txt") = Some ("true" +:+ nl).
Proof.
  intros e.
  apply (single_record_invalid_fixture default_config 2 9 ex_rng (Some (1, 1)) [] ∅ e
           {[key e]} (mkLcg [500%nat] 0)).
  - vm_compute. reflexivity.
  - vm_compute. reflexivity.
  - lia.
Defined.

(** C8. The run is a function of the seed and the configuration. For
    every configuration (the one of the script, [default_config], with
    seed 123, range (20, 30) and first index 9, is one of them): two runs
    of [main] that return, whatever their fuel and the stores and file
    systems they start from, leave the same [input.txt] and the same
    [output.txt] for every fixture, from the first index on; the valid
    fixtures come first and record [true], the invalid ones record
    [false]; no other file is touched. With the configuration of the
    script the first valid fixture is fixture 9: both runs leave the same
    [tests/test9/input.txt], and [tests/test9/output.txt] is the line
    [true]. *)
Theorem run_deterministic {G : Type} `{RandomLaws G} (cfg : Config)
  (fuel1 fuel2 : nat) (h1 h2 : heap) (fs1 fs2 : gmap string string)
  (h1' h2' : heap) (fs1' fs2' : gmap string string) :
  main (G:=G) cfg fuel1 h1 fs1 = Some (h1', fs1') →
  main (G:=G) cfg fuel2 h2 fs2 = Some (h2', fs2') →
  (∀ i,
     START_INDEX cfg ≤ i
       < START_INDEX cfg + Z.of_nat (NUM_VALID cfg) + Z.of_nat (NUM_INVALID cfg) →
     is_Some (fs1' !! (test_dir cfg i +:+ "/input.txt"))
     ∧ fs1' !! (test_dir cfg i +:+ "/input.txt")
       = fs2' !! (test_dir cfg i +:+ "/input.txt")
     ∧ fs1' !! (test_dir cfg i +:+ "/output.txt")
       = fs2' !! (test_dir cfg i +:+ "/output.txt")
     ∧ fs1' !! (test_dir cfg i +:+ "/output.txt")
       = Some ((if i <? START_INDEX cfg + Z.of_nat (NUM_VALID cfg)
                then "true" else "false") +:+ nl))
  ∧ (∀ path,
       (∀ i,
          START_INDEX cfg ≤ i
            < START_INDEX cfg + Z.of_nat (NUM_VALID cfg)
              + Z.of_nat (NUM_INVALID cfg) →
          path ≠ test_dir cfg i +:+ "/input.txt"
          ∧ path ≠ test_dir cfg i +:+ "/output.txt") →
       fs1' !! path = fs1 !! path ∧ fs2' !! path = fs2 !! path)
  ∧ (cfg = default_config →
       is_Some (fs1' !! "tests/test9/input.txt"%string)
       ∧ fs1' !! "tests/test9/input.txt"%string
         = fs2' !! "tests/test9/input.txt"%string
       ∧ fs1' !! "tests/test9/output.txt"%string = Some ("true" +:+ nl)
       ∧ fs2' !! "tests/test9/output.txt"%string = Some ("true" +:+ nl)).
Proof.
  intros Hrun1 Hrun2.
  enough ((∀ i,
     START_INDEX cfg ≤ i
       < START_INDEX cfg + Z.of_nat (NUM_VALID cfg) + Z.of_nat (NUM_INVALID cfg) →
     is_Some (fs1' !! (test_dir cfg i +:+ "/input.txt"))
     ∧ fs1' !! (test_dir cfg i +:+ "/input.txt")
       = fs2' !! (test_dir cfg i +:+ "/input.txt")
     ∧ fs1' !! (test_dir cfg i +:+ "/output.txt")
       = fs2' !! (test_dir cfg i +:+ "/output.txt")
     ∧ fs1' !! (test_dir cfg i +:+ "/output.txt")
       = Some ((if i <? START_INDEX cfg + Z.of_nat (NUM_VALID cfg)
                then "true" else "false") +:+ nl))
  ∧ (∀ path,
       (∀ i,
          START_INDEX cfg ≤ i
            < START_INDEX cfg + Z.of_nat (NUM_VALID cfg)
              + Z.of_nat (NUM_INVALID cfg) →
          path ≠ test_dir cfg i +:+ "/input.txt"
          ∧ path ≠ test_dir cfg i +:+ "/output.txt") →
       fs1' !! path = fs1 !! path ∧ fs2' !! path = fs2 !! path)) as [Hall Hframe].
  { split_and!; [done..|]. intros ->.
    destruct (Hall 9 ltac:(simpl; lia)) as (Hsome & Hin & Hout & Htrue).
    change (test_dir default_config 9 +:+ "/input.txt")
      with "tests/test9/input.txt"%string in Hsome, Hin.
    change (test_dir default_config 9 +:+ "/output.txt")
      with "tests/test9/output.txt"%string in Hout, Htrue.
    split_and!; [done..| |]; [apply Htrue|rewrite <- Hout; apply Htrue]. }
  unfold main in Hrun1, Hrun2.
  destruct (testcase_loop cfg fuel1 true (NUM_VALID cfg) (seq 0 (NUM_VALID cfg))
              (START_INDEX cfg) (Random (SEED cfg)) h1 fs1)
    as [[[[idxa ga] ha] fsa]|] eqn:Ea; [|done].
  destruct (testcase_loop cfg fuel2 true (NUM_VALID cfg) (seq 0 (NUM_VALID cfg))
              (START_INDEX cfg) (Random (SEED cfg)) h2 fs2)
    as [[[[idxb gb] hb] fsb]|] eqn:Eb; [|done].
  destruct (testcase_loop_det _ _ _ _ _ _ _ _ _ _ _ _ _ _ _ _ _ _ _ _ Ea Eb)
    as (-> & -> & <- & valid_inputs & Hlenv & -> & ->).
  cbn [mbind option_bind] in Hrun1, Hrun2.
  destruct (testcase_loop cfg fuel1 false (NUM_INVALID cfg)
              (seq 0 (NUM_INVALID cfg)) _ ga ha _)
    as [[[[idxc gc] hc] fsc]|] eqn:Ec; [|done].
  destruct (testcase_loop cfg fuel2 false (NUM_INVALID cfg)
              (seq 0 (NUM_INVALID cfg)) _ ga hb _)
    as [[[[idxd gd] hd] fsd]|] eqn:Ed; [|done].
  destruct (testcase_loop_det _ _ _ _ _ _ _ _ _ _ _ _ _ _ _ _ _ _ _ _ Ec Ed)
    as (_ & _ & _ & invalid_inputs & Hleni & -> & ->).
  simpl in Hrun1, Hrun2.
  injection Hrun1 as <- <-. injection Hrun2 as <- <-.
  rewrite length_seq in Hlenv, Hleni |- *.
  set (first := START_INDEX cfg) in *.
  set (nv := NUM_VALID cfg) in *. set (ni := NUM_INVALID cfg) in *.
  split.
  - intros i Hi. destruct (decide (i < first + Z.of_nat nv)) as [Hv|Hv].
    + assert ((i <? first + Z.of_nat nv) = true) as -> by lia.
      rewrite !(write_fixtures_frame cfg false).
      * destruct (write_fixtures_lookup cfg true valid_inputs first fs1 i
                    ltac:(lia)) as (Hin1 & Hsome & Hout1).
        destruct (write_fixtures_lookup cfg true valid_inputs first fs2 i
                    ltac:(lia)) as (Hin2 & _ & Hout2).
        rewrite Hin1, Hin2, Hout1, Hout2. by split_and!.
      * intros j Hj. split.
        -- intros Heq. symmetry in Heq. by apply input_output_path_ne in Heq.
        -- intros Heq%output_path_inj. lia.
      * intros j Hj. split.
        -- intros Heq. symmetry in Heq. by apply input_output_path_ne in Heq.
        -- intros Heq%output_path_inj. lia.
      * intros j Hj. split.
        -- intros Heq%input_path_inj. lia.
        -- apply input_output_path_ne.
      * intros j Hj. split.
        -- intros Heq%input_path_inj. lia.
        -- apply input_output_path_ne.
    + assert ((i <? first + Z.of_nat nv) = false) as -> by lia.
      destruct (write_fixtures_lookup cfg false invalid_inputs
                  (first + Z.of_nat nv)
                  (write_fixtures cfg true first valid_inputs fs1) i
                  ltac:(lia)) as (Hin1 & Hsome & Hout1).
      destruct (write_fixtures_lookup cfg false invalid_inputs
                  (first + Z.of_nat nv)
                  (write_fixtures cfg true first valid_inputs fs2) i
                  ltac:(lia)) as (Hin2 & _ & Hout2).
      rewrite Hin1, Hin2, Hout1, Hout2. by split_and!.
  - intros path Hpath.
    rewrite !(write_fixtures_frame cfg false), !(write_fixtures_frame cfg true);
      [done|intros i Hi; apply Hpath; lia..].
Qed.

Lemma run_deterministic_witness :
  (∀ i,
     9 ≤ i < 13 →
     is_Some (run_files ex_run1 !! (test_dir small_config i +:+ "/input.txt"))
     ∧ run_files ex_run1 !! (test_dir small_config i +:+ "/input.txt")
       = run_files ex_run2 !! (test_dir small_config i +:+ "/input.txt")
     ∧ run_files ex_run1 !! (test_dir small_config i +:+ "/output.txt")
       = run_files ex_run2 !! (test_dir small_config i +:+ "/output.txt")
     ∧ run_files ex_run1 !! (test_dir small_config i +:+ "/output.txt")
       = Some ((if i <? 11 then "true" else "false") +:+ nl))
  ∧ (∀ path,
       (∀ i,
          9 ≤ i < 13 →
          path ≠ test_dir small_config i +:+ "/input.txt"
          ∧ path ≠ test_dir small_config i +:+ "/output.txt") →
       run_files ex_run1 !! path = (∅ : gmap string string) !! path
       ∧ run_files ex_run2 !! path = ex_files !! path)
  ∧ (small_config = default_config →
       is_Some (run_files ex_run1 !! "tests/test9/input.txt"%string)
       ∧ run_files ex_run1 !! "tests/test9/input.txt"%string
         = run_files ex_run2 !! "tests/test9/input.txt"%string
       ∧ run_files ex_run1 !! "tests/test9/output.txt"%string
         = Some ("true" +:+ nl)
       ∧ run_files ex_run2 !! "tests/test9/output.txt"%string
         = Some ("true" +:+ nl)).
Proof.
  apply (run_deterministic (G:=Lcg) small_config 20 30 [] ex_heap ∅ ex_files
           (run_heap ex_run1) (run_heap ex_run2)).
  - vm_compute. reflexivity.
  - vm_compute. reflexivity.
Defined.

(** * Further properties of the code *)

(** X1. [insert_node] never overwrites: on any store, well formed or not,
    a call that returns has returned the root it was given (the new node
    for an absent root), has added exactly one cell, which holds the new
    record and no child, and has left every existing node its payload and
    every child reference it had. *)
Theorem insert_node_keeps_nodes (fuel : nat) :
  ∀ (h : heap) (root : option loc) (e : Employee) (h' : heap) (p : loc),
  insert_node fuel h root e = Some (h', p) →
  (∀ q, root = Some q → p = q)
  ∧ (root = None → p = length h)
  ∧ length h' = S (length h)
  ∧ h' !! length h = Some (Node.mk e None None)
  ∧ ∀ q n, h !! q = Some n →
      ∃ n', h' !! q = Some n'
        ∧ Node.emp n' = Node.emp n
        ∧ (∀ x, Node.left n = Some x → Node.left n' = Some x)
        ∧ (∀ x, Node.right n = Some x → Node.right n' = Some x).
Proof.
  induction fuel as [|fuel IH]; intros h root e h' p Hrun; [done|].
  simpl in Hrun. destruct root as [r|].
  - destruct (h !! r) as [n|] eqn:Hr; [|done]. simpl in Hrun.
    pose proof (lookup_lt_Some _ _ _ Hr) as Hrlt.
    destruct (key_lt (key e) (key (Node.emp n))).
    + destruct (insert_node fuel h (Node.left n) e) as [[h1 q]|] eqn:E;
        [|done]. simpl in Hrun. injection Hrun as <- <-.
      destruct (IH _ _ _ _ _ E) as (Hsame & _ & Hlen & Hnew & Hold).
      split_and!.
      * by intros ? [= ->].
      * done.
      * by rewrite length_alter.
      * rewrite list_lookup_alter_ne by lia. done.
      * intros q0 n0 Hq0. destruct (Hold _ _ Hq0) as (n1 & Hn1 & He & Hl & Hrr).
        destruct (decide (q0 = r)) as [->|Hne].
        -- exists (Node.set_left (Some q) n1).
           rewrite list_lookup_alter_eq, Hn1. split_and!; try done.
           intros x Hx. simpl. rewrite Hr in Hq0. injection Hq0 as <-.
           by rewrite (Hsame _ Hx).
        -- exists n1. by rewrite list_lookup_alter_ne.
    + destruct (insert_node fuel h (Node.right n) e) as [[h1 q]|] eqn:E;
        [|done]. simpl in Hrun. injection Hrun as <- <-.
      destruct (IH _ _ _ _ _ E) as (Hsame & _ & Hlen & Hnew & Hold).
      split_and!.
      * by intros ? [= ->].
      * done.
      * by rewrite length_alter.
      * rewrite list_lookup_alter_ne by lia. done.
      * intros q0 n0 Hq0. destruct (Hold _ _ Hq0) as (n1 & Hn1 & He & Hl & Hrr).
        destruct (decide (q0 = r)) as [->|Hne].
        -- exists (Node.set_right (Some q) n1).
           rewrite list_lookup_alter_eq, Hn1. split_and!; try done.
           intros x Hx. simpl. rewrite Hr in Hq0. injection Hq0 as <-.
           by rewrite (Hsame _ Hx).
        -- exists n1. by rewrite list_lookup_alter_ne.
  - injection Hrun as <- <-. split_and!.
    + done.
    + done.
    + rewrite length_app. simpl. lia.
    + by apply list_lookup_middle.
    + intros q n Hq. exists n. split_and!; try done.
      by apply lookup_app_l_Some.
Qed.

Lemma insert_node_keeps_nodes_witness :
  let h' := [Node.mk emp_bob (Some 1%nat) None;
             Node.mk emp_ann (Some 2%nat) None;
             Node.mk emp_cy None None] in
  (∀ q, Some 0%nat = Some q → 0%nat = q)
  ∧ (Some 0%nat = @None loc → 0%nat = length ex_heap)
  ∧ length h' = S (length ex_heap)
  ∧ h' !! length ex_heap = Some (Node.mk emp_cy None None)
  ∧ ∀ q n, ex_heap !! q = Some n →
      ∃ n', h' !! q = Some n'
        ∧ Node.emp n' = Node.emp n
        ∧ (∀ x, Node.left n = Some x → Node.left n' = Some x)
        ∧ (∀ x, Node.right n = Some x → Node.right n' = Some x).
Proof.
  intros h'.
  apply (insert_node_keeps_nodes 3 ex_heap (Some 0%nat) emp_cy h' 0%nat).
  reflexivity.
Defined.

(** ** The Builder on records whose keys may coincide *)

Lemma key_lt_neg_trans (a b c : string * Z) :
  key_lt c a = true → key_lt c b = true ∨ key_lt b a = true.
Proof.
  intros Hca. destruct (key_lt c b) eqn:Hcb; [by left|right].
  destruct (decide (c = b)) as [->|Hne]; [done|].
  eapply key_lt_trans; [|exact Hca]. by apply key_lt_total.
Qed.

Lemma klt_kle_trans (a b c : Employee) : klt a b → kle b c → klt a c.
Proof.
  unfold kle, klt. intros Hab Hbc.
  destruct (key_lt_neg_trans (key b) (key c) (key a) Hab) as [?|Hcb]; [done|].
  by destruct Hbc.
Qed.

Lemma kle_klt_trans (a b c : Employee) : kle a b → klt b c → klt a c.
Proof.
  unfold kle, klt. intros Hab Hbc.
  destruct (key_lt_neg_trans (key c) (key a) (key b) Hbc) as [Hba|?]; [|done].
  by destruct Hab.
Qed.

Lemma kle_trans (a b c : Employee) : kle a b → kle b c → kle a c.
Proof.
  unfold kle. intros Hab Hbc Hca.
  destruct (key_lt_neg_trans (key a) (key b) (key c) Hca) as [Hcb|Hba].
  - by apply Hbc.
  - by apply Hab.
Qed.

Lemma ordered_insert (e : Employee) (t : tree) :
  ordered t → ordered (insert e t).
Proof.
  induction t as [|l IHl x r IHr]; simpl.
  - intros _. repeat split; constructor.
  - intros (Hl & Hr & Ol & Or).
    destruct (key_lt (key e) (key x)) eqn:E; simpl; repeat split; auto.
    + rewrite inorder_insert. by constructor.
    + rewrite inorder_insert. constructor; [|done].
      unfold klt. by rewrite E.
Qed.

Lemma build_tree_ordered (es : list Employee) (t : tree) :
  ordered t → ordered (build_tree es t).
Proof.
  revert t. induction es as [|e es IH]; intros t Ho; simpl; [done|].
  by apply IH, ordered_insert.
Qed.

Lemma ordered_sorted (t : tree) : ordered t → StronglySorted kle (inorder t).
Proof.
  induction t as [|l IHl x r IHr]; simpl; [constructor|].
  intros (Hl & Hr & Ol & Or). rewrite Forall_forall in Hl.
  rewrite Forall_forall in Hr.
  apply StronglySorted_app. split_and!; [|by apply IHl|].
  - intros a b Ha Hb. apply elem_of_cons in Hb as [->|Hb].
    + by apply klt_asym, Hl.
    + apply klt_asym. eapply klt_kle_trans; [by apply Hl|].
      unfold kle. by apply Hr.
  - constructor; [by apply IHr|]. by apply Forall_forall.
Qed.

(** The new record goes behind the records that are not greater and
    before the greater ones. *)
Lemma insert_position (e : Employee) (t : tree) :
  ordered t →
  ∃ l1 l2,
    inorder t = l1 ++ l2
    ∧ inorder (insert e t) = l1 ++ e :: l2
    ∧ Forall (λ x, ¬ klt e x) l1
    ∧ Forall (klt e) l2.
Proof.
  induction t as [|l IHl x r IHr]; simpl.
  - intros _. exists [], []. by split_and!.
  - intros (Hl & Hr & Ol & Or).
    destruct (key_lt (key e) (key x)) eqn:E; simpl.
    + destruct (IHl Ol) as (a1 & a2 & Hin & Hins & H1 & H2).
      exists a1, (a2 ++ x :: inorder r). rewrite Hin, Hins.
      split_and!; [by rewrite <- app_assoc|by rewrite <- app_assoc|done|].
      apply Forall_app. split; [done|]. constructor; [done|].
      eapply Forall_impl; [exact Hr|]. intros b Hb. simpl in Hb.
      by eapply klt_kle_trans.
    + destruct (IHr Or) as (b1 & b2 & Hin & Hins & H1 & H2).
      exists (inorder l ++ x :: b1), b2. rewrite Hin, Hins.
      split_and!; [by rewrite <- app_assoc|by rewrite <- app_assoc| |done].
      apply Forall_app. split.
      * eapply Forall_impl; [exact Hl|]. intros a Ha Hea. simpl in Ha.
        pose proof (klt_trans _ _ _ Hea Ha) as Hex. unfold klt in Hex.
        by rewrite E in Hex.
      * constructor; [|done]. unfold klt. by rewrite E.
Qed.

Lemma filter_key_none (k : string * Z) (l : list Employee) :
  Forall (λ x, key x ≠ k) l → filter (λ x, key x = k) l = [].
Proof.
  induction 1 as [|x l Hx _ IH]; [done|]. by rewrite filter_cons_False.
Qed.

Lemma insert_stable (e : Employee) (t : tree) (k : string * Z) :
  ordered t →
  filter (λ x, key x = k) (inorder (insert e t))
  = filter (λ x, key x = k) (inorder t ++ [e]).
Proof.
  intros Ho. destruct (insert_position e t Ho) as (l1 & l2 & -> & -> & _ & H2).
  rewrite !filter_app, filter_cons.
  destruct (decide (key e = k)) as [<-|Hne].
  - rewrite (filter_key_none (key e) l2).
    + by rewrite filter_cons_True, app_nil_r.
    + eapply Forall_impl; [exact H2|]. intros x Hx Heq. simpl in Hx.
      unfold klt in Hx. rewrite Heq in Hx. by rewrite key_lt_irrefl in Hx.
  - by rewrite filter_cons_False, app_nil_r.
Qed.

Lemma build_tree_stable (es : list Employee) (t : tree) (k : string * Z) :
  ordered t →
  filter (λ x, key x = k) (inorder (build_tree es t))
  = filter (λ x, key x = k) (inorder t ++ es).
Proof.
  revert t. induction es as [|e es IH]; intros t Ho; simpl.
  - by rewrite app_nil_r.
  - rewrite IH by by apply ordered_insert.
    rewrite filter_app, insert_stable by done.
    by rewrite <- filter_app, <- app_assoc.
Qed.

Lemma insert_all_any fuel h es :
  (length es ≤ fuel)%nat →
  ∃ h' root fp,
    insert_all fuel h None es = Some (h', root)
    ∧ is_tree h' root (build_tree es Leaf) fp.
Proof.
  intros Hfuel.
  destruct (insert_all_repr es h None Leaf [] fuel (repr_leaf h) (NoDup_nil_2)
              ltac:(simpl; lia))
    as (h' & root & fp & Hrun & Hrepr & Hnd & _).
  by exists h', root, fp.
Qed.

(** X2. Records whose keys may coincide: for every list of records and
    fuel of at least their number, the Builder returns a proper tree that
    meets the ordering of the data model (smaller keys to the left, greater
    or equal keys to the right); its in-order traversal is a permutation of
    the records in non-decreasing order of keys. *)
Theorem builder_sorts_any_records {G : Type} `{RandomLaws G}
  (fuel : nat) (h : heap) (employees : list Employee) (g : G) :
  (length employees ≤ fuel)%nat →
  ∃ h' root g' t fp,
    build_valid_bst_from_list fuel h employees g = Some (h', root, g')
    ∧ is_tree h' root t fp
    ∧ ordered t
    ∧ inorder t ≡ₚ employees
    ∧ StronglySorted kle (inorder t).
Proof.
  intros Hfuel. unfold build_valid_bst_from_list.
  pose proof (shuffle_perm _ employees g) as Hperm.
  destruct (shuffle employees g) as [shuffled g1]. simpl in Hperm.
  destruct (insert_all_any fuel h shuffled) as (h' & root & fp & -> & Htree).
  { by rewrite <- Hperm. }
  exists h', root, g1, (build_tree shuffled Leaf), fp. simpl.
  assert (ordered (build_tree shuffled Leaf)) as Ho
    by by apply build_tree_ordered.
  split_and!; try done.
  - by rewrite build_tree_inorder, Hperm.
  - by apply ordered_sorted.
Qed.

Lemma builder_sorts_any_records_witness :
  ∃ h' root g' t fp,
    build_valid_bst_from_list 3 [] [emp_ann; emp_bob; emp_amy] (mkLcg [] 1)
      = Some (h', root, g')
    ∧ is_tree h' root t fp
    ∧ ordered t
    ∧ inorder t ≡ₚ [emp_ann; emp_bob; emp_amy]
    ∧ StronglySorted kle (inorder t).
Proof.
  apply (builder_sorts_any_records 3 [] [emp_ann; emp_bob; emp_amy]
           (mkLcg [] 1)).
  simpl. lia.
Defined.

(** X3. Ties go to the right, so the Builder is stable: for every
    insertion order and every key, the records with that key come out of
    the in-order traversal in the order of their insertion. *)
Theorem builder_stable (fuel : nat) (h : heap) (order : list Employee) :
  (length order ≤ fuel)%nat →
  ∃ h' root t fp,
    insert_all fuel h None order = Some (h', root)
    ∧ is_tree h' root t fp
    ∧ ∀ k, filter (λ x, key x = k) (inorder t)
           = filter (λ x, key x = k) order.
Proof.
  intros Hfuel.
  destruct (insert_all_any fuel h order Hfuel) as (h' & root & fp & Hrun & Htree).
  exists h', root, (build_tree order Leaf), fp. split_and!; try done.
  intros k. by rewrite build_tree_stable.
Qed.

Lemma builder_stable_witness :
  ∃ h' root t fp,
    insert_all 3 [] None [emp_ann; emp_bob; emp_amy] = Some (h', root)
    ∧ is_tree h' root t fp
    ∧ ∀ k, filter (λ x, key x = k) (inorder t)
           = filter (λ x, key x = k) [emp_ann; emp_bob; emp_amy].
Proof.
  apply (builder_stable 3 [] [emp_ann; emp_bob; emp_amy]).
  simpl. lia.
Defined.

(** ** Recursion depth *)

Lemma collect_short h root t fp :
  repr h root t fp →
  ∀ fuel out, (fuel ≤ height t)%nat →
  collect_nodes_inorder fuel h root out = None.
Proof.
  induction 1 as [|p n l r fl fr Hp Hl IHl Hr IHr]; intros fuel out Hfuel.
  - simpl in Hfuel. by assert (fuel = 0%nat) as -> by lia.
  - destruct fuel as [|fuel]; [done|]. simpl in Hfuel |- *. rewrite Hp. simpl.
    destruct (decide (fuel ≤ height l)%nat) as [Hle|Hgt].
    + by rewrite IHl.
    + rewrite (collect_repr _ _ _ _ Hl) by lia. simpl.
      apply IHr. lia.
Qed.

(** X4. [collect_nodes_inorder] on a tree in the store returns exactly when
    the recursion depth allowed exceeds the height of the tree; it then
    returns the list it was given followed by the nodes of the tree, as
    many as the tree has records, and the payloads of these nodes, read
    in order, are the in-order sequence of the records. *)
Theorem collect_inorder_exact (fuel : nat) (h : heap) (root : option loc)
  (t : tree) (fp out : list loc) :
  repr h root t fp →
  (is_Some (collect_nodes_inorder fuel h root out) ↔ (height t < fuel)%nat)
  ∧ ((height t < fuel)%nat →
     collect_nodes_inorder fuel h root out = Some (out ++ fp))
  ∧ length fp = size t
  ∧ Forall2 (λ q e, Node.emp <$> h !! q = Some e) fp (inorder t).
Proof.
  intros Hrepr. split_and!.
  - split.
    + intros [nodes Hrun].
      destruct (decide (height t < fuel)%nat) as [|Hle]; [done|].
      rewrite (collect_short _ _ _ _ Hrepr) in Hrun by lia. done.
    + intros Hfuel. rewrite (collect_repr _ _ _ _ Hrepr) by done. by eexists.
  - intros Hfuel. by apply (collect_repr _ _ _ _ Hrepr).
  - by eapply repr_length.
  - by eapply repr_emps.
Qed.

Lemma collect_inorder_exact_witness :
  (is_Some (collect_nodes_inorder 3 ex_heap (Some 0%nat) [7%nat])
   ↔ (height ex_tree < 3)%nat)
  ∧ ((height ex_tree < 3)%nat →
     collect_nodes_inorder 3 ex_heap (Some 0%nat) [7%nat]
     = Some ([7%nat] ++ [1; 0]%nat))
  ∧ length [1; 0]%nat = size ex_tree
  ∧ Forall2 (λ q e, Node.emp <$> ex_heap !! q = Some e) [1; 0]%nat
      (inorder ex_tree).
Proof.
  apply (collect_inorder_exact 3 ex_heap (Some 0%nat) ex_tree [1; 0]%nat
           [7%nat]).
  exact ex_heap_repr.
Defined.

Lemma insert_node_short h root t fp :
  repr h root t fp →
  ∀ fuel e, (fuel ≤ insert_depth e t)%nat → insert_node fuel h root e = None.
Proof.
  induction 1 as [|p n l r fl fr Hp Hl IHl Hr IHr]; intros fuel e Hfuel.
  - simpl in Hfuel. by assert (fuel = 0%nat) as -> by lia.
  - destruct fuel as [|fuel]; [done|]. simpl in Hfuel |- *. rewrite Hp. simpl.
    destruct (key_lt (key e) (key (Node.emp n))).
    + by rewrite IHl by lia.
    + by rewrite IHr by lia.
Qed.

Lemma right_spine_height (t : tree) : right_spine t → height t = size t.
Proof.
  induction t as [|l IHl x r IHr]; simpl; [done|].
  intros [-> Hr]. simpl. rewrite (IHr Hr). lia.
Qed.

Lemma right_spine_insert (e : Employee) (t : tree) :
  right_spine t → Forall (λ x, klt x e) (inorder t) →
  right_spine (insert e t) ∧ insert_depth e t = size t.
Proof.
  induction t as [|l IHl x r IHr]; simpl; [done|].
  intros [-> Hr]. simpl. intros [Hx Hall]%Forall_cons.
  assert (key_lt (key e) (key x) = false) as -> by by apply key_lt_asym.
  simpl. destruct (IHr Hr Hall) as [Hs Hd]. by rewrite Hd.
Qed.

Lemma right_spine_inorder (e : Employee) (t : tree) :
  right_spine t → Forall (λ x, klt x e) (inorder t) →
  inorder (insert e t) = inorder t ++ [e].
Proof.
  induction t as [|l IHl x r IHr]; simpl; [done|].
  intros [-> Hr]. simpl. intros [Hx Hall]%Forall_cons.
  assert (key_lt (key e) (key x) = false) as -> by by apply key_lt_asym.
  simpl. by rewrite (IHr Hr Hall).
Qed.

Lemma sorted_app_last (es : list Employee) (e : Employee) (rest : list Employee) :
  StronglySorted klt (es ++ e :: rest) → Forall (λ x, klt x e) es.
Proof.
  intros (Hcross & _ & _)%StronglySorted_app.
  apply Forall_forall. intros x Hx. apply Hcross; [done|left].
Qed.

Lemma build_tree_spine (es : list Employee) :
  ∀ t, right_spine t → StronglySorted klt (inorder t ++ es) →
  right_spine (build_tree es t) ∧ inorder (build_tree es t) = inorder t ++ es.
Proof.
  induction es as [|e es IH]; intros t Hs Hsorted; simpl.
  - by rewrite app_nil_r.
  - pose proof (sorted_app_last _ _ _ Hsorted) as Hall.
    destruct (right_spine_insert e t Hs Hall) as [Hs' _].
    pose proof (right_spine_inorder e t Hs Hall) as Hin.
    destruct (IH (insert e t) Hs') as [Hspine Hinorder].
    + by rewrite Hin, <- app_assoc.
    + split; [done|]. by rewrite Hinorder, Hin, <- app_assoc.
Qed.

Lemma insert_all_spine_short (es : list Employee) :
  ∀ fuel h root t fp,
  repr h root t fp → NoDup fp → right_spine t →
  StronglySorted klt (inorder t ++ es) → es ≠ [] →
  (fuel < size t + length es)%nat →
  insert_all fuel h root es = None.
Proof.
  induction es as [|e es IH];
    intros fuel h root t fp Hrepr Hnd Hs Hsorted Hne Hfuel; [done|].
  pose proof (sorted_app_last _ _ _ Hsorted) as Hall.
  destruct (right_spine_insert e t Hs Hall) as [Hs' Hdepth].
  simpl. destruct (decide (fuel ≤ size t)%nat) as [Hle|Hgt].
  - by rewrite (insert_node_short _ _ _ _ Hrepr) by lia.
  - destruct (insert_node_repr _ _ _ _ Hrepr Hnd fuel e)
      as (h1 & p & fp1 & -> & Hrepr1 & Hperm1 & _).
    { rewrite (right_spine_height _ Hs). lia. }
    simpl.
    pose proof (repr_lt _ _ _ _ Hrepr) as Hlt. rewrite Forall_forall in Hlt.
    apply (IH fuel h1 (Some p) (insert e t) fp1); try done.
    + rewrite Hperm1. constructor; [|done]. intros Hin. apply Hlt in Hin. lia.
    + by rewrite (right_spine_inorder e t Hs Hall), <- app_assoc.
    + intros ->. simpl in Hfuel. lia.
    + rewrite size_insert. simpl in Hfuel. lia.
Qed.

(** X5. The shape is not balanced by the Builder: records inserted in
    strictly increasing order of keys give a tree in which no node has a
    left child, of height N for N records, with the records in that
    order; and the insertion loop then returns exactly when the recursion
    depth allowed is at least N. *)
Theorem sorted_order_builds_spine (fuel : nat) (h : heap)
  (order : list Employee) :
  StronglySorted klt order → order ≠ [] →
  (is_Some (insert_all fuel h None order) ↔ (length order ≤ fuel)%nat)
  ∧ ((length order ≤ fuel)%nat →
     ∃ h' root t fp,
       insert_all fuel h None order = Some (h', root)
       ∧ is_tree h' root t fp
       ∧ right_spine t
       ∧ height t = length order
       ∧ inorder t = order).
Proof.
  intros Hsorted Hne.
  assert ((length order ≤ fuel)%nat →
          ∃ h' root t fp,
            insert_all fuel h None order = Some (h', root)
            ∧ is_tree h' root t fp
            ∧ right_spine t
            ∧ height t = length order
            ∧ inorder t = order) as Hok.
  { intros Hfuel.
    destruct (insert_all_any fuel h order Hfuel)
      as (h' & root & fp & Hrun & Htree).
    destruct (build_tree_spine order Leaf I Hsorted) as [Hspine Hin].
    exists h', root, (build_tree order Leaf), fp. split_and!; try done.
    rewrite (right_spine_height _ Hspine), build_tree_size. simpl. lia. }
  split; [|done]. split.
  - intros [r Hrun]. destruct (decide (length order ≤ fuel)%nat); [done|].
    rewrite (insert_all_spine_short order fuel h None Leaf [] (repr_leaf h)
               (NoDup_nil_2) I Hsorted Hne) in Hrun; [done|simpl; lia].
  - intros Hfuel. destruct (Hok Hfuel) as (h' & root & ? & ? & -> & _).
    by eexists.
Qed.

Lemma sorted_order_builds_spine_witness :
  (is_Some (insert_all 3 [] None [emp_cy; emp_ann; emp_bob])
   ↔ (length [emp_cy; emp_ann; emp_bob] ≤ 3)%nat)
  ∧ ((length [emp_cy; emp_ann; emp_bob] ≤ 3)%nat →
     ∃ h' root t fp,
       insert_all 3 [] None [emp_cy; emp_ann; emp_bob] = Some (h', root)
       ∧ is_tree h' root t fp
       ∧ right_spine t
       ∧ height t = length [emp_cy; emp_ann; emp_bob]
       ∧ inorder t = [emp_cy; emp_ann; emp_bob]).
Proof.
  apply (sorted_order_builds_spine 3 [] [emp_cy; emp_ann; emp_bob]).
  - repeat constructor.
  - discriminate.
Defined.

(** ** The size of a serialization *)








(** ** Reading a serialization back *)

Lemma attach_labels (level : list tree) :
  ∀ kids n,
  kids ++ replicate n LLeaf = labels <$> child_slots level →
  attach (render <$> level) kids = labels <$> level.
Proof.
  induction level as [|t level IH]; intros kids n Hkids; [done|].
  change (child_slots (t :: level))
    with (match t with Leaf => [] | T a _ b => [a; b] end ++ child_slots level)
    in Hkids.
  rewrite !fmap_cons. destruct t as [|a e b]; cbn [render labels attach].
  - change (String.eqb "null" "null") with true. cbv iota.
    f_equal. by apply (IH kids n).
  - rewrite Employee_str_not_null. rewrite fmap_app in Hkids.
    cbn [fmap list_fmap app] in Hkids.
    destruct kids as [|k1 [|k2 kids]]; cbn [nth drop app] in *.
    + destruct n as [|[|n]]; try done. cbn [replicate] in Hkids.
      injection Hkids as <- <- Hrest. f_equal. by apply (IH [] n).
    + injection Hkids as -> Hrest. destruct n as [|n]; [done|].
      cbn [replicate] in Hrest. injection Hrest as <- Hrest.
      f_equal. by apply (IH [] n).
    + injection Hkids as -> -> Hrest. f_equal. by apply (IH kids n).
Qed.

Lemma rebuild_levels fuel :
  ∀ level,
  (level = [] ∨ ends_present level) → (level_height level < fuel)%nat →
  rebuild ((λ lvl : list tree, render <$> lvl) <$> levels fuel level)
  = labels <$> level.
Proof.
  induction fuel as [|fuel IH]; intros level Hlevel Hfuel; [lia|].
  destruct level as [|t level]; [done|]. cbn [levels].
  destruct (trimmed_child_slots (t :: level) Hlevel) as [Htr Hlt].
  specialize (Hlt ltac:(done)).
  rewrite fmap_cons. cbn [rebuild]. rewrite (IH _ Htr) by lia.
  destruct (trim_split (child_slots (t :: level))) as [n Hn].
  apply (attach_labels (t :: level) _ n).
  rewrite Hn at 2. by rewrite fmap_app, fmap_replicate.
Qed.

Lemma rebuild_tree_levels (t : tree) :
  nth 0 (rebuild ((λ lvl : list tree, render <$> lvl) <$> tree_levels t)) LLeaf
  = labels t.
Proof.
  destruct t as [|a e b]; [done|]. unfold tree_levels.
  rewrite rebuild_levels; [done| |].
  - right. by exists [], a, e, b.
  - unfold level_height. simpl. lia.
Qed.

(** X7. The serialization can be read back. Splitting no line, the lists
    of tokens of the lines determine the tree of record lines: rebuilding
    the levels bottom up, a token [null] as an absent slot and each other
    token taking the next two slots of the level below (absent ones when
    the level below has run out, which is what the trimming of trailing
    [None]s leaves out), gives the tree back. For records without a space
    in their text fields the same holds of the lines split at single
    spaces. *)
Theorem serializer_round_trip (fuel : nat) (h : heap) (root : option loc)
  (t : tree) (fp : list loc) :
  repr h root t fp → (height t < fuel)%nat →
  ∃ parts : list (list string),
    serialize_tree fuel h root = Some (String.concat " " <$> parts)
    ∧ nth 0 (rebuild parts) LLeaf = labels t
    ∧ (Forall space_free (inorder t) →
       parse_lines (String.concat " " <$> parts) = labels t).
Proof.
  intros Hrepr Hfuel.
  exists ((λ lvl : list tree, render <$> lvl) <$> tree_levels t).
  split_and!.
  - rewrite (serialize_tree_spec _ _ _ _ _ Hrepr Hfuel). f_equal.
    by rewrite <- list_fmap_compose.
  - apply rebuild_tree_levels.
  - intros Hfree. unfold parse_lines.
    rewrite <- !list_fmap_compose.
    rewrite <- (rebuild_tree_levels t). f_equal. f_equal.
    apply Forall_fmap_ext_1.
    eapply Forall_impl; [exact (tree_levels_split t Hfree)|].
    intros lvl Hlvl. exact Hlvl.
Qed.

Lemma serializer_round_trip_witness :
  ∃ parts : list (list string),
    serialize_tree 3 ex_heap (Some 0%nat) = Some (String.concat " " <$> parts)
    ∧ nth 0 (rebuild parts) LLeaf = labels ex_tree
    ∧ (Forall space_free (inorder ex_tree) →
       parse_lines (String.concat " " <$> parts) = labels ex_tree).
Proof.
  apply (serializer_round_trip 3 ex_heap (Some 0%nat) ex_tree [1; 0]%nat).
  - exact ex_heap_repr.
  - simpl. lia.
Defined.

(** ** Reading a record line back *)

Lemma has_char_app (c : ascii) (a b : string) :
  has_char c (a +:+ b) = has_char c a || has_char c b.
Proof.
  induction a as [|c' a IH]; simpl; [done|]. rewrite IH.
  by rewrite orb_assoc.
Qed.

Lemma split_on_word (sep : ascii) (w : string) :
  has_char sep w = false → split_on sep w = [w].
Proof.
  induction w as [|c w IH]; simpl; [done|].
  intros [Hc Hw]%orb_false_iff. rewrite Hc, (IH Hw). done.
Qed.

Lemma split_on_app (sep : ascii) (w rest : string) :
  has_char sep w = false →
  split_on sep (w +:+ String sep EmptyString +:+ rest)
  = w :: split_on sep rest.
Proof.
  change (String sep EmptyString +:+ rest) with (String sep rest).
  induction w as [|c w IH]; simpl.
  - intros _. by rewrite Ascii.eqb_refl.
  - intros [Hc Hw]%orb_false_iff. rewrite Hc, (IH Hw). done.
Qed.

(** A numeral holds digits and at most a sign. *)
Lemma has_char_str_int (c : ascii) (z : Z) :
  Forall (λ d, Ascii.eqb d c = false) (list_ascii_of_string "-0123456789") →
  has_char c (str_int z) = false.
Proof.
  intros Hc. simpl in Hc.
  repeat (apply Forall_cons in Hc as [? Hc]).
  assert (∀ d, has_char c (DecimalString.NilEmpty.string_of_uint d) = false)
    as Huint.
  { induction d as [|d IH|d IH|d IH|d IH|d IH|d IH|d IH|d IH|d IH|d IH];
      simpl; [done|rewrite IH, orb_false_r; done..]. }
  assert (∀ d, has_char c (DecimalString.NilZero.string_of_uint d) = false)
    as Hzero.
  { intros [| | | | | | | | | |]; simpl;
      try (rewrite Huint, orb_false_r); try done.
    by rewrite orb_false_r. }
  unfold str_int. destruct (Z.to_int z); simpl; [apply Hzero|].
  rewrite Hzero, orb_false_r. done.
Qed.

Lemma parse_int_str_int (z : Z) : parse_int (str_int z) = Some z.
Proof.
  unfold parse_int, str_int.
  rewrite DecimalString.NilZero.isi.
  - simpl. by rewrite DecimalZ.of_to.
  - destruct z; simpl; try done;
      intros [= Hnil]; by apply DecimalPos.Unsigned.to_uint_nonnil in Hnil.
  - destruct z; simpl; try done;
      intros [= Hnil]; by apply DecimalPos.Unsigned.to_uint_nonnil in Hnil.
Qed.

Lemma parse_record_str (e : Employee) :
  char_free "," e → parse_record (Employee_str e) = Some e.
Proof.
  intros (Hname & Hdep & Hjob). unfold parse_record, Employee_str.
  assert (∀ z, has_char "," (str_int z) = false) as Hint.
  { intros z. apply has_char_str_int. simpl. repeat constructor. }
  do 4 rewrite split_on_app by (done || apply Hint).
  rewrite split_on_word by apply Hint.
  rewrite !parse_int_str_int. simpl. by destruct e.
Qed.

(** X8. A record line can be read back: splitting it at the commas and
    reading the two numerals gives the record, for every record whose
    name, department and job title hold no comma (the numbers may be any
    integers); so two such records with the same line are the same
    record. *)
Theorem record_line_round_trip (e1 e2 : Employee) :
  char_free "," e1 →
  parse_record (Employee_str e1) = Some e1
  ∧ (char_free "," e2 → Employee_str e1 = Employee_str e2 → e1 = e2).
Proof.
  intros Hfree1. split; [by apply parse_record_str|].
  intros Hfree2 Heq.
  pose proof (parse_record_str e1 Hfree1) as H1.
  rewrite Heq, (parse_record_str e2 Hfree2) in H1. by injection H1.
Qed.

Lemma record_line_round_trip_witness :
  parse_record (Employee_str emp_ann) = Some emp_ann
  ∧ (char_free "," emp_bob → Employee_str emp_ann = Employee_str emp_bob →
     emp_ann = emp_bob).
Proof.
  apply (record_line_round_trip emp_ann emp_bob).
  repeat split.
Defined.

(** ** The keys that the Generator can draw *)

Lemma elem_of_key_space (k : string * Z) :
  k ∈ key_space ↔ k.1 ∈ DEPARTMENTS ∧ 1 ≤ k.2 ≤ 200.
Proof.
  destruct k as [d i]. unfold key_space.
  rewrite list_elem_of_In, in_prod_iff, <- !list_elem_of_In.
  rewrite list_elem_of_fmap. cbn [fst snd]. split.
  - intros [Hd (n & -> & Hn)]. apply elem_of_seq in Hn. split; [done|lia].
  - intros [Hd Hi]. split; [done|]. exists (Z.to_nat i). split; [lia|].
    apply elem_of_seq. lia.
Qed.

Lemma length_key_space : length key_space = 1400%nat.
Proof.
  unfold key_space. by rewrite length_prod, length_fmap, length_seq.
Qed.

Section Capacity.
Context {G : Type} `{RandomLaws G}.

Lemma generate_employees_props fuel n :
  ∀ (g : G) used es used' g',
  generate_employees fuel n g used = Some (es, used', g') →
  length es = n
  ∧ NoDup (key <$> es)
  ∧ used' = list_to_set (key <$> es) ∪ used
  ∧ Forall (λ e, (key e ∉ used) ∧ key e ∈ key_space) es.
Proof.
  induction n as [|n IH]; intros g used es used' g' Hrun; simpl in Hrun.
  - injection Hrun as <- <- <-. split_and!; [done|constructor| |constructor].
    simpl. by rewrite (left_id_L ∅ (∪)).
  - destruct (generate_employee fuel g used) as [[[e used1] g1]|] eqn:E;
      [|done]. simpl in Hrun.
    destruct (generate_employees fuel n g1 used1) as [[[es1 used2] g2]|] eqn:E2;
      [|done]. simpl in Hrun. injection Hrun as <- <- <-.
    destruct (generate_employee_props _ _ _ _ _ _ E)
      as (Hnin & -> & Hdep & Hid & _).
    destruct (IH _ _ _ _ _ E2) as (Hlen & Hnd & -> & Hall).
    rewrite Forall_forall in Hall. split_and!.
    + simpl. by rewrite Hlen.
    + rewrite fmap_cons. apply NoDup_cons. split; [|done].
      intros (x & Hkey & Hx)%list_elem_of_fmap.
      destruct (Hall x Hx) as [Hfresh _]. apply Hfresh.
      apply elem_of_union_l, elem_of_singleton. done.
    + rewrite fmap_cons, list_to_set_cons.
      rewrite (assoc_L (∪)). by rewrite (comm_L (∪) (list_to_set _) {[key e]}).
    + apply Forall_cons. split.
      * split; [done|]. by apply elem_of_key_space.
      * apply Forall_forall. intros x Hx. destruct (Hall x Hx) as [Hfresh ?].
        split; [|done]. intros Hin. apply Hfresh. by apply elem_of_union_r.
Qed.

Lemma NoDup_key_space_length (ks : list (string * Z)) :
  NoDup ks → Forall (λ k, k ∈ key_space) ks → (length ks ≤ 1400)%nat.
Proof.
  intros Hnd Hall. rewrite <- length_key_space.
  apply submseteq_length, NoDup_submseteq; [done|].
  by apply Forall_forall.
Qed.

End Capacity.

(** X9. The records of a fixture, as the comprehension of
    [generate_testcase] collects them from a set of used keys: when it
    returns there are as many records as asked for, their keys are
    pairwise distinct, none of them was in the set before, each is a
    department of the list with a number from 1 to 200, and the set has
    grown by exactly these keys. So it returns for at most 1400 records:
    the keys it can draw are 7 times 200. *)
Theorem fixture_records_distinct {G : Type} `{RandomLaws G} (fuel n : nat)
  (g : G) (used : gset (string * Z)) (es : list Employee)
  (used' : gset (string * Z)) (g' : G) :
  generate_employees fuel n g used = Some (es, used', g') →
  length es = n
  ∧ NoDup (key <$> es)
  ∧ used' = list_to_set (key <$> es) ∪ used
  ∧ Forall (λ e, (key e ∉ used) ∧ department e ∈ DEPARTMENTS
                 ∧ 1 ≤ id_in_department e ≤ 200) es
  ∧ (n ≤ 1400)%nat.
Proof.
  intros Hrun.
  destruct (generate_employees_props _ _ _ _ _ _ _ Hrun)
    as (Hlen & Hnd & Hused & Hall).
  split_and!; try done.
  - eapply Forall_impl; [exact Hall|]. intros e [Hfresh Hkey].
    apply elem_of_key_space in Hkey. done.
  - rewrite <- Hlen, <- (length_fmap key). apply NoDup_key_space_length; [done|].
    apply Forall_fmap. eapply Forall_impl; [exact Hall|]. by intros e [_ ?].
Qed.

Lemma fixture_records_distinct_witness :
  let es := [mkEmployee "gase" "Sales" 99 "Midlevel" 1041;
             mkEmployee "gm" "Sales" 53 "Midlevel" 2756] in
  length es = 2%nat
  ∧ NoDup (key <$> es)
  ∧ list_to_set (key <$> es) ∪ ex_used = list_to_set (key <$> es) ∪ ex_used
  ∧ Forall (λ e, (key e ∉ ex_used) ∧ department e ∈ DEPARTMENTS
                 ∧ 1 ≤ id_in_department e ≤ 200) es
  ∧ (2 ≤ 1400)%nat.
Proof.
  intros es.
  apply (fixture_records_distinct (G:=Lcg) 3 2 ex_rng ex_used es
           (list_to_set (key <$> es) ∪ ex_used) (mkLcg [] 639546082)).
  vm_compute. reflexivity.
Defined.

(** X10. The Generator has no way out of its loop when no key is left:
    from a set that holds every key it can draw (each department of the
    list with each number from 1 to 200) it returns with no amount of
    fuel, whatever the random source gives. *)
Theorem generator_exhausted {G : Type} `{RandomLaws G} (fuel : nat) (g : G)
  (used : gset (string * Z)) :
  (∀ k, k ∈ key_space → k ∈ used) →
  generate_employee fuel g used = None.
Proof.
  intros Hfull.
  destruct (generate_employee fuel g used) as [[[e used'] g']|] eqn:E; [|done].
  destruct (generate_employee_props _ _ _ _ _ _ E) as (Hnin & _ & Hdep & Hid & _).
  destruct Hnin. apply Hfull. by apply elem_of_key_space.
Qed.

Lemma generator_exhausted_witness :
  generate_employee (G:=Lcg) 5 ex_rng (list_to_set key_space) = None.
Proof.
  apply (generator_exhausted (G:=Lcg) 5 ex_rng (list_to_set key_space)).
  intros k Hk. by apply elem_of_list_to_set.
Defined.

(** X11. A fixture of more than 1400 records cannot be made: when the
    range of sizes in force (the one given, or [EMPLOYEE_RANGE]) starts
    above 1400, [generate_testcase] returns with no amount of fuel, and so
    writes no file. *)
Theorem oversized_fixture_never_returns {G : Type} `{RandomLaws G}
  (cfg : Config) (fuel : nat) (is_valid : bool) (test_index : Z) (g : G)
  (emp_range : option (Z * Z)) (h : heap) (fs : gmap string string) :
  1400 < (default (EMPLOYEE_RANGE cfg) emp_range).1 →
  (default (EMPLOYEE_RANGE cfg) emp_range).1
    ≤ (default (EMPLOYEE_RANGE cfg) emp_range).2 →
  generate_testcase cfg fuel is_valid test_index g emp_range h fs = None.
Proof.
  intros Hlo Hle. unfold generate_testcase.
  pose proof (randint_range _ _ g Hle) as Hnum.
  destruct (randint (default (EMPLOYEE_RANGE cfg) emp_range).1
              (default (EMPLOYEE_RANGE cfg) emp_range).2 g) as [num g1].
  simpl in Hnum.
  destruct (generate_employees fuel (Z.to_nat num) g1 ∅)
    as [[[es used] g2]|] eqn:E; [|done].
  destruct (generate_employees_props _ _ _ _ _ _ _ E) as (Hlen & Hnd & _ & Hall).
  assert (length (key <$> es) ≤ 1400)%nat as Hcap.
  { apply NoDup_key_space_length; [done|]. apply Forall_fmap.
    eapply Forall_impl; [exact Hall|]. by intros e [_ ?]. }
  rewrite length_fmap in Hcap. lia.
Qed.

Lemma oversized_fixture_never_returns_witness :
  generate_testcase (G:=Lcg) default_config 5 true 9 ex_rng
    (Some (1401, 1500)) [] ∅ = None.
Proof.
  apply (oversized_fixture_never_returns (G:=Lcg) default_config 5 true 9
           ex_rng (Some (1401, 1500)) [] ∅); simpl; lia.
Defined.

(** ** Reading a fixture file back *)

Lemma has_space_has_char (s : string) : has_space s = has_char " " s.
Proof. induction s as [|c s IH]; simpl; [done|]. by rewrite IH. Qed.

Lemma char_free_space (e : Employee) : char_free " " e → space_free e.
Proof.
  intros (? & ? & ?). unfold space_free. by rewrite !has_space_has_char.
Qed.

Lemma split_on_nonempty (sep : ascii) (s : string) : split_on sep s ≠ [].
Proof.
  induction s as [|c s IH]; simpl; [done|].
  destruct (Ascii.eqb c sep); [done|]. by destruct (split_on sep s).
Qed.

Lemma read_lines_file_of_lines (lines : list string) :
  Forall (λ line, has_char nl_char line = false) lines →
  read_lines (file_of_lines lines) = lines.
Proof.
  unfold read_lines. induction 1 as [|line lines Hline _ IH]; [done|].
  change (file_of_lines (line :: lines))
    with (line +:+ String nl_char EmptyString +:+ file_of_lines lines).
  rewrite split_on_app by done.
  pose proof (split_on_nonempty nl_char (file_of_lines lines)) as Hne.
  destruct (split_on nl_char (file_of_lines lines)) as [|w ws]; [done|].
  by rewrite <- IH.
Qed.

Lemma has_char_concat (c : ascii) (sep : string) (parts : list string) :
  has_char c sep = false →
  Forall (λ w, has_char c w = false) parts →
  has_char c (String.concat sep parts) = false.
Proof.
  intros Hsep. induction 1 as [|w parts Hw Hparts IH]; [done|].
  destruct parts as [|w' parts]; [done|].
  change (String.concat sep (w :: w' :: parts))
    with (w +:+ sep +:+ String.concat sep (w' :: parts)).
  by rewrite !has_char_app, Hw, Hsep, IH.
Qed.

Lemma has_char_Employee_str (c : ascii) (e : Employee) :
  Forall (λ d, Ascii.eqb d c = false) (list_ascii_of_string ",-0123456789") →
  char_free c e → has_char c (Employee_str e) = false.
Proof.
  intros Hc (Hname & Hdep & Hjob).
  apply Forall_cons in Hc as [Hcomma Hc].
  assert (has_char c "," = false) as Hsep.
  { cbn [has_char]. by rewrite Hcomma. }
  unfold Employee_str.
  by rewrite !has_char_app, Hname, Hdep, Hjob, !(has_char_str_int c), Hsep.
Qed.

Lemma tree_levels_lines (c : ascii) (t : tree) :
  Forall (λ d, Ascii.eqb d c = false)
    (list_ascii_of_string " null,-0123456789") →
  Forall (char_free c) (inorder t) →
  Forall (λ line, has_char c line = false) (render_line <$> tree_levels t).
Proof.
  intros Hc Hfree. simpl in Hc.
  apply Forall_cons in Hc as [Hsp Hc]. apply Forall_cons in Hc as [Hn Hc].
  apply Forall_cons in Hc as [Hu Hc]. apply Forall_cons in Hc as [Hl Hc].
  apply Forall_cons in Hc as [_ Hc].
  apply Forall_fmap.
  destruct t as [|a0 e0 b0]; [constructor|]. unfold tree_levels.
  assert ([T a0 e0 b0] = [] ∨ ends_present [T a0 e0 b0]) as Hlevel.
  { right. by exists [], a0, e0, b0. }
  assert (level_height [T a0 e0 b0] < S (height (T a0 e0 b0)))%nat as Hfuel.
  { unfold level_height. simpl. lia. }
  apply Forall_forall. intros lvl Hlvl. rewrite Forall_forall in Hfree.
  unfold render_line. apply has_char_concat.
  - cbn [has_char]. by rewrite Hsp.
  - apply Forall_fmap, Forall_forall. intros [|a e b] Hslot.
    + unfold compose. cbn [render has_char]. by rewrite Hn, Hu, Hl.
    + unfold compose. cbn [render].
      apply has_char_Employee_str; [done|]. apply Hfree.
      pose proof (levels_present_emps _ _ _ _ _ _ Hlevel Hfuel Hlvl Hslot)
        as He.
      unfold level_emps in He. simpl in He. by rewrite app_nil_r in He.
Qed.

Lemma parse_tree_labels (t : tree) :
  Forall (char_free ",") (inorder t) → parse_tree (labels t) = Some t.
Proof.
  induction t as [|l IHl e r IHr]; [done|]. simpl.
  intros [Hl [He Hr]%Forall_cons]%Forall_app.
  by rewrite (IHl Hl), (parse_record_str e He), (IHr Hr).
Qed.

Lemma decode_tree_levels (t : tree) :
  Forall clean (inorder t) →
  decode (file_of_lines (render_line <$> tree_levels t)) = Some t.
Proof.
  intros Hclean. unfold decode.
  rewrite read_lines_file_of_lines.
  - unfold parse_lines. rewrite <- list_fmap_compose.
    assert (split_spaces ∘ render_line <$> tree_levels t
            = (λ lvl : list tree, render <$> lvl) <$> tree_levels t) as ->.
    { apply Forall_fmap_ext_1, tree_levels_split.
      eapply Forall_impl; [exact Hclean|].
      intros e (? & _). by apply char_free_space. }
    rewrite rebuild_tree_levels. apply parse_tree_labels.
    eapply Forall_impl; [exact Hclean|]. by intros e (_ & ? & _).
  - apply tree_levels_lines; [simpl; repeat constructor|].
    eapply Forall_impl; [exact Hclean|]. by intros e (_ & _ & ?).
Qed.

(** X12. A serialization written to a file, one line after the other,
    each followed by a newline, is read back as the tree: splitting the
    content at the newlines, the lines at the spaces and the record lines
    at the commas, and rebuilding the levels bottom up, gives the tree
    with its records, when no record holds a space, a comma or a newline
    in its text fields. So the shape and the records of a tree are
    determined by its file. *)
Theorem fixture_file_round_trip (fuel : nat) (h : heap) (root : option loc)
  (t : tree) (fp : list loc) :
  repr h root t fp → (height t < fuel)%nat → Forall clean (inorder t) →
  ∃ lines,
    serialize_tree fuel h root = Some lines
    ∧ decode (file_of_lines lines) = Some t.
Proof.
  intros Hrepr Hfuel Hclean. exists (render_line <$> tree_levels t).
  split; [by eapply serialize_tree_spec|by apply decode_tree_levels].
Qed.

Lemma fixture_file_round_trip_witness :
  ∃ lines,
    serialize_tree 3 ex_heap (Some 0%nat) = Some lines
    ∧ decode (file_of_lines lines) = Some ex_tree.
Proof.
  apply (fixture_file_round_trip 3 ex_heap (Some 0%nat) ex_tree [1; 0]%nat).
  - exact ex_heap_repr.
  - simpl. lia.
  - repeat constructor.
Defined.

(** ** What a fixture holds *)

Section Fixture.
Context {G : Type} `{RandomLaws G}.

Lemma generated_char_free (c : ascii) (e : Employee) :
  Forall (λ d, Ascii.eqb d c = false) ascii_lowercase →
  Forall (λ s, has_char c s = false) (DEPARTMENTS ++ JOB_TITLES) →
  Forall (λ d, d ∈ ascii_lowercase) (list_ascii_of_string (name e)) →
  department e ∈ DEPARTMENTS → job_title e ∈ JOB_TITLES →
  char_free c e.
Proof.
  intros Hlow Htext Hname Hdep Hjob.
  rewrite Forall_forall in Hlow. rewrite Forall_forall in Htext.
  split_and!.
  - revert Hname. generalize (name e).
    induction s as [|d s IH]; [done|]. cbn [list_ascii_of_string has_char].
    intros [Hd Hs]%Forall_cons. by rewrite (Hlow d Hd), (IH Hs).
  - apply Htext, elem_of_app. by left.
  - apply Htext, elem_of_app. by right.
Qed.

Lemma generate_employee_clean fuel (g : G) used e used' g' :
  generate_employee fuel g used = Some (e, used', g') → clean e.
Proof.
  intros Hrun.
  destruct (generate_employee_props _ _ _ _ _ _ Hrun)
    as (_ & _ & Hdep & _ & _ & Hname & Hjob & _).
  split_and!; (apply generated_char_free; [..|done|done|done]);
    unfold ascii_lowercase, DEPARTMENTS, JOB_TITLES; simpl;
    repeat constructor.
Qed.

Lemma generate_employees_clean fuel n :
  ∀ (g : G) used es used' g',
  generate_employees fuel n g used = Some (es, used', g') → Forall clean es.
Proof.
  induction n as [|n IH]; intros g used es used' g' Hrun; simpl in Hrun.
  - injection Hrun as <- <- <-. constructor.
  - destruct (generate_employee fuel g used) as [[[e used1] g1]|] eqn:E;
      [|done]. simpl in Hrun.
    destruct (generate_employees fuel n g1 used1) as [[[es1 used2] g2]|] eqn:E2;
      [|done]. simpl in Hrun. injection Hrun as <- <- <-.
    constructor; [by eapply generate_employee_clean|by eapply IH].
Qed.

(** Everything that a returned call of [generate_testcase] has done: the
    records drawn, the tree built from them, the tree that is serialized
    and the two files. *)
Lemma generate_testcase_inv (cfg : Config) fuel is_valid idx (g : G) emp_range
  h fs h' g' fs' :
  generate_testcase cfg fuel is_valid idx g emp_range h fs
    = Some (h', g', fs') →
  ∃ es t0 t root fp,
    length es
    = Z.to_nat (randint (default (EMPLOYEE_RANGE cfg) emp_range).1
                  (default (EMPLOYEE_RANGE cfg) emp_range).2 g).1
    ∧ NoDup (key <$> es)
    ∧ Forall clean es
    ∧ Forall (λ e, key e ∈ key_space) es
    ∧ bst t0 ∧ inorder t0 ≡ₚ es
    ∧ shape_of t = shape_of t0 ∧ inorder t ≡ₚ es
    ∧ (if is_valid then t = t0
       else if decide (2 ≤ size t0)%nat then has_inversion (inorder t)
            else t = t0)
    ∧ is_tree h' root t fp
    ∧ fs' = <[test_dir cfg idx +:+ "/output.txt" :=
                (if is_valid then "true" else "false") +:+ nl]>
              (<[test_dir cfg idx +:+ "/input.txt" :=
                   file_of_lines (render_line <$> tree_levels t)]> fs).
Proof.
  unfold generate_testcase. intros Hrun.
  destruct (randint (default (EMPLOYEE_RANGE cfg) emp_range).1
              (default (EMPLOYEE_RANGE cfg) emp_range).2 g) as [num g1].
  destruct (generate_employees fuel (Z.to_nat num) g1 ∅)
    as [[[es used] ga]|] eqn:Egen; [|done].
  destruct (generate_employees_props _ _ _ _ _ _ _ Egen)
    as (Hlen & Hnd & _ & Hkeys).
  pose proof (generate_employees_clean _ _ _ _ _ _ _ Egen) as Hclean.
  cbn [mbind option_bind] in Hrun.
  destruct (build_valid_bst_from_list fuel h es ga)
    as [[[ha roota] gc]|] eqn:Eb; [|done].
  destruct (build_partial _ _ _ _ _ _ _ Hnd Eb) as (-> & fpa & Hta).
  cbn [mbind option_bind] in Hrun.
  pose proof (shuffle_perm _ es ga) as Hperm.
  set (t0 := build_tree (shuffle es ga).1 Leaf) in *.
  assert (inorder t0 ≡ₚ es) as Hin0.
  { unfold t0. rewrite build_tree_inorder. simpl. by rewrite <- Hperm. }
  assert (bst t0) as Hbst0.
  { unfold t0. apply build_tree_bst; [done|]. simpl. by rewrite <- Hperm. }
  assert (∃ t hc rootc ge fpc,
            (if is_valid then Some (ha, roota, (shuffle es ga).2)
             else violate_bst fuel ha roota (shuffle es ga).2)
            = Some (hc, rootc, ge)
            ∧ is_tree hc rootc t fpc
            ∧ shape_of t = shape_of t0 ∧ inorder t ≡ₚ es
            ∧ (if is_valid then t = t0
               else if decide (2 ≤ size t0)%nat then has_inversion (inorder t)
                    else t = t0))
    as (t & hc & rootc & ge & fpc & Ec & Htc & Hshape & Hin & Hcase).
  { destruct is_valid.
    - by exists t0, ha, roota, (shuffle es ga).2, fpa.
    - destruct (violate_bst fuel ha roota (shuffle es ga).2)
        as [[[hc rootc] ge]|] eqn:Ev; [|done].
      destruct (violate_partial _ _ _ _ _ _ _ _ _ Hta Ev)
        as (-> & t & Htree & Hshape & Hcase).
      exists t, hc, roota, ge, fpa. split; [done|]. split; [done|].
      split; [done|].
      destruct (decide (2 ≤ size t0)%nat) as [Hsize|Hsize].
      + destruct Hcase as [Hin ->].
        destruct (sample2_distinct (size t0) (shuffle es ga).2 Hsize)
          as (Hi & Hj & Hij).
        split.
        * by rewrite Hin, swap_at_perm.
        * rewrite Hin. apply swap_at_inversion;
            rewrite ?size_inorder; try done. by apply bst_sorted.
      + destruct Hcase as [Hin ->].
        assert (t = t0) as -> by by apply shape_inorder_inj. done. }
  rewrite Ec in Hrun. cbn [mbind option_bind] in Hrun.
  destruct (serialize_tree fuel hc rootc) as [lines|] eqn:Es; [|done].
  rewrite (serialize_partial _ _ _ _ _ _ (proj1 Htc) Es) in Hrun.
  simpl in Hrun. injection Hrun as <- <- <-.
  exists es, t0, t, rootc, fpc. split_and!; try done.
  eapply Forall_impl; [exact Hkeys|]. by intros e [_ ?].
Qed.

End Fixture.

Lemma generate_testcase_fixture {G : Type} `{RandomLaws G} (cfg : Config)
  (fuel : nat) (is_valid : bool) (test_index : Z) (g : G)
  (emp_range : option (Z * Z)) (h : heap) (fs : gmap string string)
  (h' : heap) (g' : G) (fs' : gmap string string) :
  (default (EMPLOYEE_RANGE cfg) emp_range).1
    ≤ (default (EMPLOYEE_RANGE cfg) emp_range).2 →
  generate_testcase cfg fuel is_valid test_index g emp_range h fs
    = Some (h', g', fs') →
  fixture_at cfg fs' test_index is_valid (default (EMPLOYEE_RANGE cfg) emp_range)
  ∧ (∀ path, path ≠ test_dir cfg test_index +:+ "/input.txt" →
             path ≠ test_dir cfg test_index +:+ "/output.txt" →
             fs' !! path = fs !! path).
Proof.
  intros Hrange Hrun.
  destruct (generate_testcase_inv _ _ _ _ _ _ _ _ _ _ _ Hrun)
    as (es & t0 & t & root & fp & Hlen & Hnd & Hclean & _ & Hbst0 & Hin0
        & Hshape & Hin & Hcase & _ & ->).
  pose proof (randint_range _ _ g Hrange) as Hnum.
  assert (size t = length es) as Hsize.
  { by rewrite <- size_inorder, Hin. }
  assert (size t0 = size t) as Hsize0.
  { symmetry. by apply shape_size. }
  assert (bst t ↔ is_valid = true ∨ (size t < 2)%nat) as Hverdict.
  { destruct is_valid.
    - subst t. split; [by left|done].
    - destruct (decide (2 ≤ size t0)%nat) as [Hge|Hlt].
      + split.
        * intros Hb%bst_sorted%StronglySorted_Sorted.
          by apply (inversion_not_sorted _ Hcase) in Hb.
        * intros [?|?]; [done|lia].
      + subst t. split; [right; lia|done]. }
  pose proof (fixture_paths_ne (test_dir cfg test_index)) as Hne.
  split.
  - exists t, (file_of_lines (render_line <$> tree_levels t)). split_and!.
    + by rewrite lookup_insert_ne, lookup_insert_eq.
    + apply decode_tree_levels. by rewrite Hin.
    + by rewrite lookup_insert_eq.
    + lia.
    + lia.
    + by rewrite Hin.
    + done.
  - intros path Hp1 Hp2. by rewrite !lookup_insert_ne.
Qed.

(** X13. What a fixture is worth. Whenever [generate_testcase] returns,
    it has written the two files of the fixture and touched no other;
    [input.txt] reads back as a tree whose number of nodes is in the range
    of sizes in force and whose keys are pairwise distinct, and
    [output.txt] is the verdict asked for. The tree is a valid BST exactly
    when the fixture is marked valid or the tree has fewer than two nodes:
    so the recorded verdict is the truth about the file whenever the range
    of sizes starts at 2 or more. *)
Theorem fixture_verdict {G : Type} `{RandomLaws G} (cfg : Config) (fuel : nat)
  (is_valid : bool) (test_index : Z) (g : G) (emp_range : option (Z * Z))
  (h : heap) (fs : gmap string string) (h' : heap) (g' : G)
  (fs' : gmap string string) :
  (default (EMPLOYEE_RANGE cfg) emp_range).1
    ≤ (default (EMPLOYEE_RANGE cfg) emp_range).2 →
  generate_testcase cfg fuel is_valid test_index g emp_range h fs
    = Some (h', g', fs') →
  ∃ (t : tree) (content : string),
    fs' !! (test_dir cfg test_index +:+ "/input.txt") = Some content
    ∧ decode content = Some t
    ∧ fs' !! (test_dir cfg test_index +:+ "/output.txt")
      = Some ((if is_valid then "true" else "false") +:+ nl)
    ∧ (∀ path, path ≠ test_dir cfg test_index +:+ "/input.txt" →
               path ≠ test_dir cfg test_index +:+ "/output.txt" →
               fs' !! path = fs !! path)
    ∧ (Z.to_nat (default (EMPLOYEE_RANGE cfg) emp_range).1 ≤ size t
       ≤ Z.to_nat (default (EMPLOYEE_RANGE cfg) emp_range).2)%nat
    ∧ NoDup (key <$> inorder t)
    ∧ (bst t ↔ is_valid = true ∨ (size t < 2)%nat)
    ∧ (2 ≤ (default (EMPLOYEE_RANGE cfg) emp_range).1 →
       (bst t ↔ is_valid = true)).
Proof.
  intros Hrange Hrun.
  destruct (generate_testcase_fixture _ _ _ _ _ _ _ _ _ _ _ Hrange Hrun)
    as [(t & content & Hin & Hdec & Hout & Hsize & Hnd & Hverdict) Hframe].
  exists t, content. split_and!; try (done || lia).
  intros Hlo. rewrite Hverdict. split; [|by left].
  intros [?|?]; [done|lia].
Qed.

Lemma fixture_verdict_witness :
  ∃ (t : tree) (content : string),
    case_files ex_case !! (test_dir small_config 9 +:+ "/input.txt")
      = Some content
    ∧ decode content = Some t
    ∧ case_files ex_case !! (test_dir small_config 9 +:+ "/output.txt")
      = Some ("false" +:+ nl)
    ∧ (∀ path, path ≠ test_dir small_config 9 +:+ "/input.txt" →
               path ≠ test_dir small_config 9 +:+ "/output.txt" →
               case_files ex_case !! path = (∅ : gmap string string) !! path)
    ∧ (Z.to_nat 2 ≤ size t ≤ Z.to_nat 3)%nat
    ∧ NoDup (key <$> inorder t)
    ∧ (bst t ↔ false = true ∨ (size t < 2)%nat)
    ∧ (2 ≤ 2 → (bst t ↔ false = true)).
Proof.
  apply (fixture_verdict (G:=Lcg) small_config 10 false 9 ex_rng None [] ∅
           (case_heap ex_case) (case_rng ex_case)).
  - simpl. lia.
  - vm_compute. reflexivity.
Defined.

(** ** The fixtures of a run *)

Section Run.
Context {G : Type} `{RandomLaws G}.
Variable cfg : Config.
Hypothesis EMPLOYEE_RANGE_ok : (EMPLOYEE_RANGE cfg).1 ≤ (EMPLOYEE_RANGE cfg).2.
Hypothesis SPECIAL_RANGE_ok : (SPECIAL_RANGE cfg).1 ≤ (SPECIAL_RANGE cfg).2.

(** One loop of [main]: the fixture of each round is in the file system
    at the end, with the range of sizes of its round, and no other path
    has changed. *)
Lemma testcase_loop_fixtures fuel is_valid num range :
  ∀ idx (g : G) h fs idx' g' h' fs',
  testcase_loop cfg fuel is_valid num range idx g h fs
    = Some (idx', g', h', fs') →
  idx' = idx + Z.of_nat (length range)
  ∧ (∀ path,
       (∀ i, idx ≤ i < idx + Z.of_nat (length range) →
             path ≠ test_dir cfg i +:+ "/input.txt"
             ∧ path ≠ test_dir cfg i +:+ "/output.txt") →
       fs' !! path = fs !! path)
  ∧ ∀ k i, range !! k = Some i →
      fixture_at cfg fs' (idx + Z.of_nat k) is_valid
        (if decide (Z.of_nat i = Z.of_nat num - 1)
         then SPECIAL_RANGE cfg else EMPLOYEE_RANGE cfg).
Proof.
  induction range as [|i range IH]; intros idx g h fs idx' g' h' fs' Hrun.
  - simpl in Hrun. injection Hrun as <- <- <- <-.
    split_and!; [simpl; lia|done|done].
  - cbn [testcase_loop] in Hrun.
    destruct (generate_testcase cfg fuel is_valid idx g
                (if decide (Z.of_nat i = Z.of_nat num - 1)
                 then Some (SPECIAL_RANGE cfg) else None) h fs)
      as [[[h1 g1] fs1]|] eqn:E1; [|done].
    cbn [mbind option_bind] in Hrun.
    destruct (IH _ _ _ _ _ _ _ _ Hrun) as (Hidx & Hframe & Hrest).
    apply generate_testcase_fixture in E1 as [Hfix Hframe1];
      [|by destruct (decide (Z.of_nat i = Z.of_nat num - 1))].
    assert (∀ path,
              (path = test_dir cfg idx +:+ "/input.txt"
               ∨ path = test_dir cfg idx +:+ "/output.txt") →
              fs' !! path = fs1 !! path) as Hkept.
    { intros path Hpath. apply Hframe. intros j Hj.
      destruct Hpath as [->| ->]; split; intros Heq.
      - apply input_path_inj in Heq. lia.
      - by apply input_output_path_ne in Heq.
      - symmetry in Heq. by apply input_output_path_ne in Heq.
      - apply output_path_inj in Heq. lia. }
    split_and!.
    + cbn [length]. lia.
    + intros path Hpath. rewrite Hframe.
      * apply Hframe1; apply (Hpath idx); cbn [length]; lia.
      * intros j Hj. apply Hpath. cbn [length]. lia.
    + intros [|k] j Hk.
      * injection Hk as <-. rewrite Z.add_0_r.
        assert (default (EMPLOYEE_RANGE cfg)
                  (if decide (Z.of_nat i = Z.of_nat num - 1)
                   then Some (SPECIAL_RANGE cfg) else None)
                = if decide (Z.of_nat i = Z.of_nat num - 1)
                  then SPECIAL_RANGE cfg else EMPLOYEE_RANGE cfg) as Hr.
        { by destruct (decide (Z.of_nat i = Z.of_nat num - 1)). }
        rewrite Hr in Hfix.
        destruct Hfix as (t & content & Hin & Hdec & Hout & Hsize & Hnd & Hv).
        exists t, content. rewrite !Hkept by auto. done.
      * replace (idx + Z.of_nat (S k)) with (idx + 1 + Z.of_nat k) by lia.
        by apply Hrest.
Qed.

Lemma main_fixtures fuel h fs h' fs' (i : Z) :
  main (G:=G) cfg fuel h fs = Some (h', fs') →
  START_INDEX cfg ≤ i
    < START_INDEX cfg + Z.of_nat (NUM_VALID cfg) + Z.of_nat (NUM_INVALID cfg) →
  fixture_at cfg fs' i
    (bool_decide (i < START_INDEX cfg + Z.of_nat (NUM_VALID cfg)))
    (if bool_decide
          (i = START_INDEX cfg + Z.of_nat (NUM_VALID cfg) - 1
           ∨ i = START_INDEX cfg + Z.of_nat (NUM_VALID cfg)
                 + Z.of_nat (NUM_INVALID cfg) - 1)
     then SPECIAL_RANGE cfg else EMPLOYEE_RANGE cfg).
Proof.
  unfold main. intros Hrun Hi.
  destruct (testcase_loop cfg fuel true (NUM_VALID cfg) (seq 0 (NUM_VALID cfg))
              (START_INDEX cfg) (Random (SEED cfg)) h fs)
    as [[[[idx1 g1] h1] fs1]|] eqn:E1; [|done].
  cbn [mbind option_bind] in Hrun.
  destruct (testcase_loop cfg fuel false (NUM_INVALID cfg)
              (seq 0 (NUM_INVALID cfg)) idx1 g1 h1 fs1)
    as [[[[idx2 g2] h2] fs2]|] eqn:E2; [|done].
  cbn [mbind option_bind] in Hrun. injection Hrun as <- <-.
  destruct (testcase_loop_fixtures _ _ _ _ _ _ _ _ _ _ _ _ E1)
    as (-> & _ & Hvalid).
  destruct (testcase_loop_fixtures _ _ _ _ _ _ _ _ _ _ _ _ E2)
    as (_ & Hframe & Hinvalid).
  rewrite length_seq in Hframe.
  destruct (decide (i < START_INDEX cfg + Z.of_nat (NUM_VALID cfg)))
    as [Hlt|Hge].
  - rewrite bool_decide_eq_true_2 by done.
    specialize (Hvalid (Z.to_nat (i - START_INDEX cfg))
                  (Z.to_nat (i - START_INDEX cfg))).
    rewrite lookup_seq in Hvalid.
    specialize (Hvalid ltac:(split; [done|lia])).
    replace (START_INDEX cfg + Z.of_nat (Z.to_nat (i - START_INDEX cfg)))
      with i in Hvalid by lia.
    assert (∀ path,
              (path = test_dir cfg i +:+ "/input.txt"
               ∨ path = test_dir cfg i +:+ "/output.txt") →
              fs2 !! path = fs1 !! path) as Hkept.
    { intros path Hpath. apply Hframe. intros j Hj.
      destruct Hpath as [->| ->]; split; intros Heq.
      - apply input_path_inj in Heq. lia.
      - by apply input_output_path_ne in Heq.
      - symmetry in Heq. by apply input_output_path_ne in Heq.
      - apply output_path_inj in Heq. lia. }
    destruct Hvalid as (t & content & Hin & Hdec & Hout & Hsize & Hnd & Hv).
    exists t, content. rewrite !Hkept by auto.
    split_and!; try done.
    + destruct (decide (Z.of_nat (Z.to_nat (i - START_INDEX cfg))
                        = Z.of_nat (NUM_VALID cfg) - 1)) as [Heq|Hne].
      * rewrite bool_decide_eq_true_2 by lia. lia.
      * rewrite bool_decide_eq_false_2 by lia. lia.
    + destruct (decide (Z.of_nat (Z.to_nat (i - START_INDEX cfg))
                        = Z.of_nat (NUM_VALID cfg) - 1)) as [Heq|Hne].
      * rewrite bool_decide_eq_true_2 by lia. lia.
      * rewrite bool_decide_eq_false_2 by lia. lia.
  - rewrite bool_decide_eq_false_2 by done.
    specialize (Hinvalid
                  (Z.to_nat (i - START_INDEX cfg - Z.of_nat (NUM_VALID cfg)))
                  (Z.to_nat (i - START_INDEX cfg - Z.of_nat (NUM_VALID cfg)))).
    rewrite lookup_seq in Hinvalid.
    specialize (Hinvalid ltac:(split; [done|lia])).
    replace (START_INDEX cfg + Z.of_nat (length (seq 0 (NUM_VALID cfg)))
             + Z.of_nat
                 (Z.to_nat (i - START_INDEX cfg - Z.of_nat (NUM_VALID cfg))))
      with i in Hinvalid by (rewrite length_seq; lia).
    destruct Hinvalid as (t & content & Hin & Hdec & Hout & Hsize & Hnd & Hv).
    exists t, content. split_and!; try done.
    + destruct (decide (Z.of_nat (Z.to_nat (i - START_INDEX cfg
                                            - Z.of_nat (NUM_VALID cfg)))
                        = Z.of_nat (NUM_INVALID cfg) - 1)) as [Heq|Hne].
      * rewrite bool_decide_eq_true_2 by lia. lia.
      * rewrite bool_decide_eq_false_2 by lia. lia.
    + destruct (decide (Z.of_nat (Z.to_nat (i - START_INDEX cfg
                                            - Z.of_nat (NUM_VALID cfg)))
                        = Z.of_nat (NUM_INVALID cfg) - 1)) as [Heq|Hne].
      * rewrite bool_decide_eq_true_2 by lia. lia.
      * rewrite bool_decide_eq_false_2 by lia. lia.
Qed.

End Run.

(** X14. The fixtures of a run of [main], for every configuration whose
    two ranges of sizes are not empty. When [main] returns, every fixture
    from the first index on is in the file system: its [input.txt] reads
    back as a tree with pairwise distinct keys; the number of nodes is in
    [SPECIAL_RANGE] for the last fixture marked valid and the last marked
    invalid, and in [EMPLOYEE_RANGE] for the others; [output.txt] is
    [true] for the first [NUM_VALID] fixtures and [false] for the rest.
    When both ranges start at 2 or more, as in the script, the verdict is
    right: the tree that the file holds is a valid BST exactly for the
    fixtures marked valid. *)
Theorem run_fixtures {G : Type} `{RandomLaws G} (cfg : Config) (fuel : nat)
  (h : heap) (fs : gmap string string) (h' : heap)
  (fs' : gmap string string) (i : Z) :
  (EMPLOYEE_RANGE cfg).1 ≤ (EMPLOYEE_RANGE cfg).2 →
  (SPECIAL_RANGE cfg).1 ≤ (SPECIAL_RANGE cfg).2 →
  main (G:=G) cfg fuel h fs = Some (h', fs') →
  START_INDEX cfg ≤ i
    < START_INDEX cfg + Z.of_nat (NUM_VALID cfg) + Z.of_nat (NUM_INVALID cfg) →
  fixture_at cfg fs' i
    (bool_decide (i < START_INDEX cfg + Z.of_nat (NUM_VALID cfg)))
    (if bool_decide
          (i = START_INDEX cfg + Z.of_nat (NUM_VALID cfg) - 1
           ∨ i = START_INDEX cfg + Z.of_nat (NUM_VALID cfg)
                 + Z.of_nat (NUM_INVALID cfg) - 1)
     then SPECIAL_RANGE cfg else EMPLOYEE_RANGE cfg)
  ∧ (2 ≤ (EMPLOYEE_RANGE cfg).1 → 2 ≤ (SPECIAL_RANGE cfg).1 →
     ∀ content t,
       fs' !! (test_dir cfg i +:+ "/input.txt") = Some content →
       decode content = Some t →
       (bst t ↔ i < START_INDEX cfg + Z.of_nat (NUM_VALID cfg))).
Proof.
  intros Hemp Hspecial Hrun Hi.
  pose proof (main_fixtures cfg Hemp Hspecial _ _ _ _ _ _ Hrun Hi) as Hfix.
  split; [done|]. intros Hlo1 Hlo2 content t Hin Hdec.
  destruct Hfix as (t' & content' & Hin' & Hdec' & _ & Hsize & _ & Hv).
  rewrite Hin in Hin'. injection Hin' as <-.
  rewrite Hdec in Hdec'. injection Hdec' as <-.
  rewrite Hv, bool_decide_eq_true. split; [|by left].
  intros [?|Hsmall]; [done|].
  destruct (bool_decide _) in Hsize; lia.
Qed.

Lemma run_fixtures_witness :
  fixture_at small_config (run_files ex_run1) 10
    (bool_decide (10 < START_INDEX small_config
                       + Z.of_nat (NUM_VALID small_config)))
    (if bool_decide
          (10 = START_INDEX small_config + Z.of_nat (NUM_VALID small_config) - 1
           ∨ 10 = START_INDEX small_config + Z.of_nat (NUM_VALID small_config)
                  + Z.of_nat (NUM_INVALID small_config) - 1)
     then SPECIAL_RANGE small_config else EMPLOYEE_RANGE small_config)
  ∧ (2 ≤ (EMPLOYEE_RANGE small_config).1 → 2 ≤ (SPECIAL_RANGE small_config).1 →
     ∀ content t,
       run_files ex_run1 !! (test_dir small_config 10 +:+ "/input.txt")
         = Some content →
       decode content = Some t →
       (bst t ↔ 10 < START_INDEX small_config
                     + Z.of_nat (NUM_VALID small_config))).
Proof.
  apply (run_fixtures (G:=Lcg) small_config 20 [] ∅ (run_heap ex_run1)).
  - simpl. lia.
  - simpl. lia.
  - vm_compute. reflexivity.
  - simpl. lia.
Defined.

(** ** The Corruptor exchanges two payloads *)

Section Exchange.
Context {G : Type} `{RandomLaws G}.

(** The store that the Corruptor leaves, written out. *)
Lemma violate_explicit fuel h root t fp (g : G) i j g1 a b na nb :
  repr h root t fp → (2 ≤ size t)%nat → (height t < fuel)%nat →
  sample2_index (size t) g = ((i, j), g1) →
  fp !! i = Some a → fp !! j = Some b →
  h !! a = Some na → h !! b = Some nb →
  violate_bst fuel h root g
  = Some (alter (Node.set_emp (Node.emp na)) b
            (alter (Node.set_emp (Node.emp nb)) a h), root, g1).
Proof.
  intros Hrepr Hsize Hfuel Hsample Ha Hb Hna Hnb. unfold violate_bst.
  rewrite (collect_repr _ _ _ _ Hrepr) by done. simpl.
  pose proof (repr_length _ _ _ _ Hrepr) as Hlen. rewrite Hlen.
  destruct (decide (2 ≤ size t)%nat); [|lia].
  unfold sample2. rewrite Hlen, Hsample, Ha, Hb. simpl.
  by rewrite Hna, Hnb.
Qed.

Lemma shape_height (t1 t2 : tree) :
  shape_of t1 = shape_of t2 → height t1 = height t2.
Proof.
  revert t2. induction t1 as [|l1 IHl e1 r1 IHr]; intros [|l2 e2 r2] Hs;
    try done. simpl in Hs |- *. injection Hs as Hl Hr.
  by rewrite (IHl _ Hl), (IHr _ Hr).
Qed.

Lemma set_emp_back (n m : Node.t) :
  Node.set_emp (Node.emp n) (Node.set_emp (Node.emp m) n) = n.
Proof. by destruct n. Qed.

Lemma exchange_back (h : heap) (a b : loc) (na nb : Node.t) :
  a ≠ b → h !! a = Some na → h !! b = Some nb →
  alter (Node.set_emp (Node.emp nb)) b
    (alter (Node.set_emp (Node.emp na)) a
       (alter (Node.set_emp (Node.emp na)) b
          (alter (Node.set_emp (Node.emp nb)) a h))) = h.
Proof.
  intros Hab Hna Hnb. apply list_eq. intros q.
  destruct (decide (q = b)) as [->|Hqb].
  - rewrite list_lookup_alter_eq, list_lookup_alter_ne by done.
    rewrite list_lookup_alter_eq, list_lookup_alter_ne by done.
    rewrite Hnb. simpl. by rewrite set_emp_back.
  - rewrite list_lookup_alter_ne by done.
    destruct (decide (q = a)) as [->|Hqa].
    + rewrite list_lookup_alter_eq, list_lookup_alter_ne by done.
      rewrite list_lookup_alter_eq, Hna. simpl. by rewrite set_emp_back.
    + by rewrite !list_lookup_alter_ne by done.
Qed.

Lemma exchange_comm (h : heap) (a b : loc) (x y : Employee) :
  a ≠ b →
  alter (Node.set_emp x) a (alter (Node.set_emp y) b h)
  = alter (Node.set_emp y) b (alter (Node.set_emp x) a h).
Proof.
  intros Hab. apply list_eq. intros q.
  destruct (decide (q = a)) as [->|Hqa].
  - rewrite list_lookup_alter_eq, list_lookup_alter_ne by done.
    by rewrite list_lookup_alter_ne, list_lookup_alter_eq by done.
  - rewrite list_lookup_alter_ne by done.
    destruct (decide (q = b)) as [->|Hqb].
    + by rewrite !list_lookup_alter_eq, list_lookup_alter_ne by done.
    + by rewrite !list_lookup_alter_ne by done.
Qed.

End Exchange.

(** X15. The Corruptor exchanges exactly two payloads. On a tree with at
    least two nodes, the node objects at the two sampled in-order
    positions, which are different objects, hold each other's former
    record afterwards, and every other cell of the store, in the tree or
    not, is what it was. Exchanging is its own inverse: a second call of
    the Corruptor on the result that samples the same two positions, in
    either order, gives the first store back. *)
Theorem corruptor_exchange {G : Type} `{RandomLaws G} (fuel : nat) (h : heap)
  (root : option loc) (t : tree) (fp : list loc) (g : G) :
  is_tree h root t fp → (2 ≤ size t)%nat → (height t < fuel)%nat →
  ∃ (h1 : heap) (a b : loc),
    violate_bst fuel h root g = Some (h1, root, (sample2_index (size t) g).2)
    ∧ fp !! (sample2_index (size t) g).1.1 = Some a
    ∧ fp !! (sample2_index (size t) g).1.2 = Some b
    ∧ a ≠ b
    ∧ Node.emp <$> h1 !! a = Node.emp <$> h !! b
    ∧ Node.emp <$> h1 !! b = Node.emp <$> h !! a
    ∧ (∀ q, q ≠ a → q ≠ b → h1 !! q = h !! q)
    ∧ ∀ g2 : G,
        ((sample2_index (size t) g2).1 = (sample2_index (size t) g).1
         ∨ (sample2_index (size t) g2).1
           = ((sample2_index (size t) g).1.2, (sample2_index (size t) g).1.1)) →
        violate_bst fuel h1 root g2
        = Some (h, root, (sample2_index (size t) g2).2).
Proof.
  intros Htree Hsize Hfuel.
  destruct (violate_spec fuel h root t fp g Htree Hsize Hfuel)
    as (h1 & t1 & Hrun & [Hrepr1 _] & Hshape & _ & _ & _ & Hij & Hi & Hj & _).
  destruct Htree as [Hrepr Hnd].
  pose proof (repr_length _ _ _ _ Hrepr) as Hlen.
  destruct (sample2_index (size t) g) as [[i j] g1] eqn:Hsample.
  simpl in Hij, Hi, Hj, Hrun |- *.
  destruct (lookup_lt_is_Some_2 fp i ltac:(lia)) as [a Ha].
  destruct (lookup_lt_is_Some_2 fp j ltac:(lia)) as [b Hb].
  pose proof (repr_lt _ _ _ _ Hrepr) as Hlt. rewrite Forall_forall in Hlt.
  destruct (lookup_lt_is_Some_2 h a) as [na Hna].
  { apply Hlt. by eapply list_elem_of_lookup_2. }
  destruct (lookup_lt_is_Some_2 h b) as [nb Hnb].
  { apply Hlt. by eapply list_elem_of_lookup_2. }
  assert (a ≠ b) as Hab.
  { intros ->. apply Hij. by eapply NoDup_lookup. }
  rewrite (violate_explicit fuel h root t fp g i j g1 a b na nb) in Hrun
    by done.
  injection Hrun as <-.
  assert (alter (Node.set_emp (Node.emp na)) b
            (alter (Node.set_emp (Node.emp nb)) a h) !! a
          = Some (Node.set_emp (Node.emp nb) na)) as Ha1.
  { rewrite list_lookup_alter_ne, list_lookup_alter_eq by done.
    by rewrite Hna. }
  assert (alter (Node.set_emp (Node.emp na)) b
            (alter (Node.set_emp (Node.emp nb)) a h) !! b
          = Some (Node.set_emp (Node.emp na) nb)) as Hb1.
  { rewrite list_lookup_alter_eq, list_lookup_alter_ne by done.
    by rewrite Hnb. }
  exists (alter (Node.set_emp (Node.emp na)) b
            (alter (Node.set_emp (Node.emp nb)) a h)), a, b.
  split_and!; try done.
  - by apply (violate_explicit fuel h root t fp g i j g1 a b na nb).
  - by rewrite Ha1, Hnb.
  - by rewrite Hb1, Hna.
  - intros q Hqa Hqb. by rewrite !list_lookup_alter_ne.
  - intros g2 Hpair.
    assert (size t1 = size t) as Hsize1 by by apply shape_size.
    assert (height t1 = height t) as Hheight1 by by apply shape_height.
    destruct (sample2_index (size t) g2) as [[i2 j2] g3] eqn:Hsample2.
    simpl in Hpair |- *. destruct Hpair as [[= -> ->]|[= -> ->]].
    + rewrite (violate_explicit fuel _ root t1 fp g2 i j g3 a b
                 (Node.set_emp (Node.emp nb) na)
                 (Node.set_emp (Node.emp na) nb));
        [|done|lia|lia|by rewrite Hsize1|done..].
      cbn [Node.emp Node.set_emp]. by rewrite exchange_back.
    + rewrite (violate_explicit fuel _ root t1 fp g2 j i g3 b a
                 (Node.set_emp (Node.emp na) nb)
                 (Node.set_emp (Node.emp nb) na));
        [|done|lia|lia|by rewrite Hsize1|done..].
      cbn [Node.emp Node.set_emp].
      rewrite (exchange_comm _ a b) by done. by rewrite exchange_back.
Qed.

Lemma corruptor_exchange_witness :
  ∃ (h1 : heap) (a b : loc),
    violate_bst 3 ex_heap (Some 0%nat) (mkLcg [] 1)
    = Some (h1, Some 0%nat, (sample2_index (size ex_tree) (mkLcg [] 1)).2)
    ∧ [1; 0]%nat !! (sample2_index (size ex_tree) (mkLcg [] 1)).1.1 = Some a
    ∧ [1; 0]%nat !! (sample2_index (size ex_tree) (mkLcg [] 1)).1.2 = Some b
    ∧ a ≠ b
    ∧ Node.emp <$> h1 !! a = Node.emp <$> ex_heap !! b
    ∧ Node.emp <$> h1 !! b = Node.emp <$> ex_heap !! a
    ∧ (∀ q, q ≠ a → q ≠ b → h1 !! q = ex_heap !! q)
    ∧ ∀ g2 : Lcg,
        ((sample2_index (size ex_tree) g2).1
         = (sample2_index (size ex_tree) (mkLcg [] 1)).1
         ∨ (sample2_index (size ex_tree) g2).1
           = ((sample2_index (size ex_tree) (mkLcg [] 1)).1.2,
              (sample2_index (size ex_tree) (mkLcg [] 1)).1.1)) →
        violate_bst 3 h1 (Some 0%nat) g2
        = Some (ex_heap, Some 0%nat, (sample2_index (size ex_tree) g2).2).
Proof.
  apply (corruptor_exchange (G:=Lcg) 3 ex_heap (Some 0%nat) ex_tree
           [1; 0]%nat (mkLcg [] 1)).
  - split; [exact ex_heap_repr|]. refine (bool_decide_unpack _ _).
    vm_compute. exact I.
  - simpl. lia.
  - simpl. lia.
Defined.

(** X16. [random_string(rng, length)] makes exactly one draw per
    character and nothing else: the result has [length] characters, all
    of them lowercase letters, and on the logging source the log grows by
    [length] choices among 26; for a length of zero or less the result is
    the empty string and the source is left as it was. *)
Theorem random_string_draws {G : Type} `{RandomLaws G} (g : G) (n : Z)
  (tr : list Draw) :
  String.length (random_string g n).1 = Z.to_nat n
  ∧ Forall (λ c, c ∈ ascii_lowercase)
      (list_ascii_of_string (random_string g n).1)
  ∧ (n ≤ 0 → random_string g n = (""%string, g))
  ∧ random_string (G:=Traced G) (g, tr) n
    = ((random_string g n).1,
       ((random_string g n).2, tr ++ replicate (Z.to_nat n) (DChoice 26))).
Proof.
  unfold random_string. rewrite random_chars_traced.
  destruct (random_chars_spec (Z.to_nat n) g) as [Hlen Hall].
  split_and!.
  - destruct (random_chars (Z.to_nat n) g) as [cs g1]. simpl in *.
    rewrite <- Hlen. clear. induction cs as [|c cs IH]; simpl; [done|].
    by rewrite IH.
  - destruct (random_chars (Z.to_nat n) g) as [cs g1]. simpl in *.
    by rewrite list_ascii_of_string_of_list_ascii.
  - intros Hn. by replace (Z.to_nat n) with 0%nat by lia.
  - by destruct (random_chars (Z.to_nat n) g) as [cs g1].
Qed.

Lemma random_string_draws_witness :
  String.length (random_string ex_rng 3).1 = Z.to_nat 3
  ∧ Forall (λ c, c ∈ ascii_lowercase)
      (list_ascii_of_string (random_string ex_rng 3).1)
  ∧ (3 ≤ 0 → random_string ex_rng 3 = (""%string, ex_rng))
  ∧ random_string (G:=Traced Lcg) (ex_rng, []) 3
    = ((random_string ex_rng 3).1,
       ((random_string ex_rng 3).2, [] ++ replicate (Z.to_nat 3) (DChoice 26))).
Proof.
  apply (random_string_draws (G:=Lcg) ex_rng 3 []).
Defined.
